(** * Academic Outreach Assistant: the AI gateway and the wizard state machine

    A shallow embedding of [services/geminiService.ts] (the JSON clean-up
    helper and the three gateway operations) and of the event handlers of
    [App.tsx] (the wizard), with the properties of the specification proved
    about them.

    Conventions of the embedding.
    - A JavaScript string is the list of its UTF-16 code units ([list N]).
    - A value produced by [JSON.parse] is a [json]; a property read gives a
      [jsval], an optional [json] in which [None] is [undefined].
    - [JSON.parse] and [encodeURIComponent] are functions of the host
      runtime, not of this repository: the development is parametric in
      them (class [Runtime]), and a reference instance is given for
      evaluation on concrete inputs.
    - A thrown exception, or a rejected promise, is the [Err] branch of
      [result].
    - The gateway is modelled on the values a response really holds; the
      wizard is modelled on values of the types that [types.ts] declares,
      and the unchecked type assertions between the two are written out as
      views ([asContact], [asEmail]).
    - One activation of an event handler is run to completion on the state
      it starts from, with no other event in between; the replies of the AI
      service, the answer to a confirmation dialog and the readings of the
      clock are inputs of the handler.  What the handler does to the world
      outside the component (requests sent, windows opened, the stored
      history) is threaded through as a [World].
    - The handlers that wait for the service are also modelled in two
      parts, before and after their [await], with the events of the page
      coming in between: see the part on the wizard while its handlers
      wait. *)

From Stdlib Require Import ZArith NArith Lia String Ascii List Bool.
From stdpp Require Import base decidable option list gmap strings.
Import ListNotations.

Local Open Scope Z_scope.

Set Warnings "-register-all".

(** ** JavaScript strings *)

Abbreviation jsstring := (list N).

(** The code units of an ASCII literal. *)
Definition js (s : string) : jsstring :=
  map N_of_ascii (list_ascii_of_string s).

(** The same, with every apostrophe standing for a double quote and every
    vertical bar for a line feed: JSON texts are written with ['] and [|]. *)
Definition jsq (s : string) : jsstring :=
  map (fun c => if (c =? 39)%N then 34%N else if (c =? 124)%N then 10%N else c)
      (js s).

(** ECMAScript [WhiteSpace] and [LineTerminator] code points: the class
    [\s] of regular expressions and the characters removed by
    [String.prototype.trim]. *)
Definition isWhiteSpace (c : N) : bool :=
  (((9 <=? c) && (c <=? 13)) || (c =? 32) || (c =? 160) || (c =? 5760)
   || ((8192 <=? c) && (c <=? 8202)) || (c =? 8232) || (c =? 8233)
   || (c =? 8239) || (c =? 8287) || (c =? 12288) || (c =? 65279))%N.

Fixpoint dropWhile {A} (p : A -> bool) (l : list A) : list A :=
  match l with
  | [] => []
  | x :: r => if p x then dropWhile p r else l
  end.

(** [str.trim()] *)
Definition trim (s : jsstring) : jsstring :=
  rev (dropWhile isWhiteSpace (rev (dropWhile isWhiteSpace s))).

(** [stripPrefix p s] is [Some r] when [s = p ++ r]. *)
Fixpoint stripPrefix (p s : jsstring) : option jsstring :=
  match p, s with
  | [], _ => Some s
  | _ :: _, [] => None
  | a :: p', b :: s' => if (a =? b)%N then stripPrefix p' s' else None
  end.

Definition stripSuffix (p s : jsstring) : option jsstring :=
  match stripPrefix (rev p) (rev s) with
  | Some r => Some (rev r)
  | None => None
  end.

Definition fenceOpen : jsstring := Eval cbv in js "```json".
Definition fenceClose : jsstring := Eval cbv in js "```".

(** [str.replace(/^```json\s*|```$/g, '')].  The pattern has no [m] flag, so
    [^] matches at offset 0 only and [$] at the end of the input only.  The
    first alternative can therefore match once, at offset 0, where its
    greedy [\s*] takes all the white space that follows the fence; the
    scan then resumes after that match, and the second alternative matches
    where the three last code units of what remains are back quotes. *)
Definition replaceFences (str : jsstring) : jsstring :=
  let r := match stripPrefix fenceOpen str with
           | Some t => dropWhile isWhiteSpace t
           | None => str
           end in
  match stripSuffix fenceClose r with
  | Some t => t
  | None => r
  end.

(** [s.indexOf(c)] for a one-character needle: -1 when absent. *)
Fixpoint indexOfFrom (c : N) (s : jsstring) (i : Z) : Z :=
  match s with
  | [] => -1
  | x :: r => if (x =? c)%N then i else indexOfFrom c r (i + 1)
  end.

Definition indexOf (c : N) (s : jsstring) : Z := indexOfFrom c s 0.

(** [s.lastIndexOf(c)] for a one-character needle: -1 when absent. *)
Fixpoint lastIndexOfFrom (c : N) (s : jsstring) (i acc : Z) : Z :=
  match s with
  | [] => acc
  | x :: r => lastIndexOfFrom c r (i + 1) (if (x =? c)%N then i else acc)
  end.

Definition lastIndexOf (c : N) (s : jsstring) : Z := lastIndexOfFrom c s 0 (-1).

(** [s.substring(a, b)]: both ends are clamped to [0, length] and swapped
    when out of order. *)
Definition substring (a b : Z) (s : jsstring) : jsstring :=
  let n := Z.of_nat (length s) in
  let a' := Z.min (Z.max a 0) n in
  let b' := Z.min (Z.max b 0) n in
  let lo := Z.min a' b' in
  let hi := Z.max a' b' in
  take (Z.to_nat (hi - lo)) (drop (Z.to_nat lo) s).

Definition chLBracket : N := 91.
Definition chRBracket : N := 93.
Definition chLBrace : N := 123.
Definition chRBrace : N := 125.

(** [cleanJsonString], geminiService.ts. *)
Definition cleanJsonString (str : jsstring) : jsstring :=
  let cleaned := trim (replaceFences str) in
  let firstOpen := indexOf chLBracket cleaned in
  let firstCurly := indexOf chLBrace cleaned in
  let start :=
    if firstOpen =? -1 then firstCurly
    else if firstCurly =? -1 then firstOpen
    else Z.min firstOpen firstCurly in
  if start =? -1 then cleaned
  else
    let lastClose := lastIndexOf chRBracket cleaned in
    let lastCurly := lastIndexOf chRBrace cleaned in
    let end_ := Z.max lastClose lastCurly in
    if (end_ =? -1) || (end_ <? start) then cleaned
    else substring start (end_ + 1) cleaned.

(** *** The extraction, in the words of the specification

    "Locate the first opening bracket or brace and the last closing bracket
    or brace": the definitions below say it with positions in the cleaned
    text; [cleanJsonString_extract] compares them with the code. *)

Definition charIs (c x : N) : bool := (x =? c)%N.

Definition isOpening (c : N) : bool := charIs 91 c || charIs 123 c.
Definition isClosing (c : N) : bool := charIs 93 c || charIs 125 c.
Definition isBracket (c : N) : bool := isOpening c || isClosing c.

Fixpoint findFirst (p : N -> bool) (s : jsstring) : option nat :=
  match s with
  | [] => None
  | x :: r => if p x then Some O else S <$> findFirst p r
  end.

Fixpoint findLast (p : N -> bool) (s : jsstring) : option nat :=
  match s with
  | [] => None
  | x :: r =>
      match findLast p r with
      | Some k => Some (S k)
      | None => if p x then Some O else None
      end
  end.

Definition extract (cleaned : jsstring) : jsstring :=
  match findFirst isOpening cleaned, findLast isClosing cleaned with
  | Some i, Some j =>
      if (j <? i)%nat then cleaned else take (S j - i) (drop i cleaned)
  | _, _ => cleaned
  end.

(** [s] is [J] with text before it that holds no opening bracket or brace
    and text after it that holds no closing one. *)
Definition wrapped (P Q : N -> bool) (J s : jsstring) : Prop :=
  exists pre post, s = pre ++ J ++ post
    /\ Forall (fun c => P c = false) pre /\ Forall (fun c => Q c = false) post.

(** [J] opens with a bracket or brace and closes with one. *)
Definition delimited (J : jsstring) : Prop :=
  exists o mid c, J = o :: mid ++ [c] /\ isOpening o = true /\ isClosing c = true.

(** ** Exceptions *)

Inductive exn : Type :=
| SyntaxError                    (* thrown by [JSON.parse] *)
| TypeError                      (* a property read on [null], [in] on a primitive, a call of a non-function *)
| URIError                       (* thrown by [encodeURIComponent] *)
| ApiError                       (* the request to the AI service was rejected *)
| Error (message : jsstring).    (* [new Error(message)] *)

Inductive result (A : Type) : Type :=
| Ok (a : A)
| Err (e : exn).
Arguments Ok {A} a.
Arguments Err {A} e.

Definition bind {A B} (r : result A) (k : A -> result B) : result B :=
  match r with
  | Ok a => k a
  | Err e => Err e
  end.

#[export] Instance result_bind : MBind result := fun A B k r => bind r k.
#[export] Instance result_ret : MRet result := fun A a => Ok a.

Definition isOk {A} (r : result A) : bool :=
  match r with Ok _ => true | Err _ => false end.

(** [try { body } catch (error) { throw new Error(message) }] *)
Definition translate {A} (message : jsstring) (body : result A) : result A :=
  match body with
  | Ok a => Ok a
  | Err _ => Err (Error message)
  end.

(** ** JSON values *)

(** The values [JSON.parse] returns.  [JNum zero m e] is the double nearest
    to [m * 10^e]; [zero] tells whether that double is 0 (the only thing
    the code asks of a number is its truthiness).  The properties of an
    object are kept in the order of the text; of two properties with the
    same key the later one is the object's. *)
Inductive json : Type :=
| JNull
| JBool (b : bool)
| JNum (zero : bool) (m e : Z)
| JStr (s : jsstring)
| JArr (items : list json)
| JObj (props : list (jsstring * json)).

(** A JavaScript value read from a parsed document: [None] is [undefined]. *)
Abbreviation jsval := (option json).

Fixpoint eqbs (a b : jsstring) : bool :=
  match a, b with
  | [], [] => true
  | x :: a', y :: b' => (x =? y)%N && eqbs a' b'
  | _, _ => false
  end.

Fixpoint ownProp (k : jsstring) (props : list (jsstring * json)) : option json :=
  match props with
  | [] => None
  | (k', v) :: r =>
      match ownProp k r with
      | Some w => Some w
      | None => if eqbs k' k then Some v else None
      end
  end.

(** [v.k], for a key [k] that names no built-in property (none of the keys
    the code reads is defined on [Object.prototype], [Array.prototype] or
    the wrappers of the primitives, and none is an index or [length]). *)
Definition getProp (k : jsstring) (v : json) : result jsval :=
  match v with
  | JNull => Err TypeError
  | JObj props => Ok (ownProp k props)
  | _ => Ok None
  end.

(** [k in v], for the same keys. *)
Definition hasProp (k : jsstring) (v : json) : result bool :=
  match v with
  | JObj props => Ok (match ownProp k props with Some _ => true | None => false end)
  | JArr _ => Ok false
  | _ => Err TypeError
  end.

(** ToBoolean. *)
Definition truthy (v : jsval) : bool :=
  match v with
  | None => false
  | Some JNull => false
  | Some (JBool b) => b
  | Some (JNum zero _ _) => negb zero
  | Some (JStr s) => match s with [] => false | _ => true end
  | Some (JArr _) => true
  | Some (JObj _) => true
  end.

(** [v || d] where [d] is a JSON value. *)
Definition orElse (v : jsval) (d : json) : json :=
  match v with
  | Some x => if truthy v then x else d
  | None => d
  end.

(** [Array.isArray(v)] is the [JArr] case of a match on [v]. *)

(** ** The host runtime *)

Class Runtime : Type := {
  (** [JSON.parse(text)]; [None] when it throws [SyntaxError] *)
  JSON_parse : jsstring -> option json;
  (** [encodeURIComponent(s)]; [None] when it throws [URIError] *)
  encodeURIComponent : jsstring -> option jsstring
}.

(** *** Reference implementation of [JSON.parse] (ECMA-404 grammar) *)

Module RefJSON.

Definition isJsonWs (c : N) : bool :=
  ((c =? 32) || (c =? 10) || (c =? 13) || (c =? 9))%N.

Definition skipWs (s : jsstring) : jsstring := dropWhile isJsonWs s.

Definition isDigit (c : N) : bool := ((48 <=? c) && (c <=? 57))%N.

Definition hexVal (c : N) : option N :=
  if ((48 <=? c) && (c <=? 57))%N then Some (c - 48)%N
  else if ((65 <=? c) && (c <=? 70))%N then Some (c - 55)%N
  else if ((97 <=? c) && (c <=? 102))%N then Some (c - 87)%N
  else None.

Definition hex4 (a b c d : N) : option N :=
  match hexVal a, hexVal b, hexVal c, hexVal d with
  | Some x, Some y, Some z, Some w => Some (((x * 16 + y) * 16 + z) * 16 + w)%N
  | _, _, _, _ => None
  end.

Definition simpleEscape (c : N) : option N :=
  if (c =? 34)%N then Some 34%N          (* quotation mark *)
  else if (c =? 92)%N then Some 92%N     (* reverse solidus *)
  else if (c =? 47)%N then Some 47%N     (* solidus *)
  else if (c =? 98)%N then Some 8%N      (* b: backspace *)
  else if (c =? 102)%N then Some 12%N    (* f: form feed *)
  else if (c =? 110)%N then Some 10%N    (* n: line feed *)
  else if (c =? 114)%N then Some 13%N    (* r: carriage return *)
  else if (c =? 116)%N then Some 9%N     (* t: tabulation *)
  else None.

(** The characters of a string after its opening quote; [acc] is reversed. *)
Fixpoint stringBody (s acc : jsstring) : option (jsstring * jsstring) :=
  match s with
  | [] => None
  | c :: r =>
      if (c =? 34)%N then Some (rev acc, r)
      else if (c =? 92)%N then
        match r with
        | [] => None
        | x :: r1 =>
            if (x =? 117)%N then
              match r1 with
              | h1 :: h2 :: h3 :: h4 :: r2 =>
                  match hex4 h1 h2 h3 h4 with
                  | Some u => stringBody r2 (u :: acc)
                  | None => None
                  end
              | _ => None
              end
            else
              match simpleEscape x with
              | Some u => stringBody r1 (u :: acc)
              | None => None
              end
        end
      else if (c <? 32)%N then None
      else stringBody r (c :: acc)
  end.

(** A run of digits: its value on top of [acc], how many there are, the rest. *)
Fixpoint digits (s : jsstring) (acc : Z) (n : nat) : Z * nat * jsstring :=
  match s with
  | c :: r => if isDigit c then digits r (acc * 10 + Z.of_N (c - 48)) (S n)
              else (acc, n, s)
  | [] => (acc, n, s)
  end.

(** Does the double nearest to [m * 10^e] equal 0?  Below or at half the
    least subnormal, 2^-1075, the nearest double is 0. *)
Definition roundsToZero (m e : Z) : bool :=
  (m =? 0) || ((e <? 0) && (Z.abs m * 2 ^ 1075 <=? 10 ^ (- e))).

Definition number (s : jsstring) : option (json * jsstring) :=
  let '(neg, s1) := match s with
                    | c :: r => if (c =? 45)%N then (true, r) else (false, s)
                    | [] => (false, s)
                    end in
  let intPart :=
    match s1 with
    | c :: r =>
        if (c =? 48)%N then Some (0, r)
        else if isDigit c then let '(v, _, r') := digits s1 0 0 in Some (v, r')
        else None
    | [] => None
    end in
  match intPart with
  | None => None
  | Some (i, s2) =>
      let frac :=
        match s2 with
        | c :: r =>
            if (c =? 46)%N then
              let '(v, n, r') := digits r i 0 in
              match n with O => None | _ => Some (v, n, r') end
            else Some (i, O, s2)
        | [] => Some (i, O, s2)
        end in
      match frac with
      | None => None
      | Some (m, k, s3) =>
          let expo :=
            match s3 with
            | c :: r =>
                if ((c =? 101) || (c =? 69))%N then
                  let '(eneg, r1) :=
                    match r with
                    | d :: r' => if (d =? 45)%N then (true, r')
                                 else if (d =? 43)%N then (false, r')
                                 else (false, r)
                    | [] => (false, r)
                    end in
                  let '(v, n, r2) := digits r1 0 0 in
                  match n with
                  | O => None
                  | _ => Some (if eneg then - v else v, r2)
                  end
                else Some (0, s3)
            | [] => Some (0, s3)
            end in
          match expo with
          | None => None
          | Some (x, s4) =>
              let m' := if neg then - m else m in
              let e' := x - Z.of_nat k in
              Some (JNum (roundsToZero m' e') m' e', s4)
          end
      end
  end.

Definition literal (word : jsstring) (v : json) (s : jsstring)
  : option (json * jsstring) :=
  match stripPrefix word s with
  | Some r => Some (v, r)
  | None => None
  end.

Definition wTrue : jsstring := Eval cbv in js "true".
Definition wFalse : jsstring := Eval cbv in js "false".
Definition wNull : jsstring := Eval cbv in js "null".

Fixpoint value (fuel : nat) (s : jsstring) : option (json * jsstring) :=
  match fuel with
  | O => None
  | S f =>
      match skipWs s with
      | [] => None
      | c :: r =>
          if (c =? 91)%N then
            match skipWs r with
            | d :: r' => if (d =? 93)%N then Some (JArr [], r')
                         else elements f r []
            | [] => None
            end
          else if (c =? 123)%N then
            match skipWs r with
            | d :: r' => if (d =? 125)%N then Some (JObj [], r')
                         else members f r []
            | [] => None
            end
          else if (c =? 34)%N then
            match stringBody r [] with
            | Some (str, r') => Some (JStr str, r')
            | None => None
            end
          else if (c =? 116)%N then literal wTrue (JBool true) (c :: r)
          else if (c =? 102)%N then literal wFalse (JBool false) (c :: r)
          else if (c =? 110)%N then literal wNull JNull (c :: r)
          else number (c :: r)
      end
  end
with elements (fuel : nat) (s : jsstring) (acc : list json)
  : option (json * jsstring) :=
  match fuel with
  | O => None
  | S f =>
      match value f s with
      | None => None
      | Some (v, r) =>
          match skipWs r with
          | c :: r' =>
              if (c =? 44)%N then elements f r' (v :: acc)
              else if (c =? 93)%N then Some (JArr (rev (v :: acc)), r')
              else None
          | [] => None
          end
      end
  end
with members (fuel : nat) (s : jsstring) (acc : list (jsstring * json))
  : option (json * jsstring) :=
  match fuel with
  | O => None
  | S f =>
      match skipWs s with
      | q :: r0 =>
          if (q =? 34)%N then
            match stringBody r0 [] with
            | None => None
            | Some (k, r1) =>
                match skipWs r1 with
                | c :: r2 =>
                    if (c =? 58)%N then
                      match value f r2 with
                      | None => None
                      | Some (v, r3) =>
                          match skipWs r3 with
                          | d :: r4 =>
                              if (d =? 44)%N then members f r4 ((k, v) :: acc)
                              else if (d =? 125)%N
                                   then Some (JObj (rev ((k, v) :: acc)), r4)
                              else None
                          | [] => None
                          end
                      end
                    else None
                | [] => None
                end
            end
          else None
      | [] => None
      end
  end.

(** Every call consumes a code unit, so the length of the text bounds the
    depth of the recursion. *)
Definition parse (text : jsstring) : option json :=
  match value (S (length text)) text with
  | Some (v, r) => match skipWs r with [] => Some v | _ :: _ => None end
  | None => None
  end.

End RefJSON.

(** *** Reference implementation of [encodeURIComponent] *)

Module RefURI.

Definition unreserved (c : N) : bool :=
  (((65 <=? c) && (c <=? 90)) || ((97 <=? c) && (c <=? 122))
   || ((48 <=? c) && (c <=? 57))
   || (c =? 45) || (c =? 95) || (c =? 46) || (c =? 33) || (c =? 126)
   || (c =? 42) || (c =? 39) || (c =? 40) || (c =? 41))%N.

Definition hexDigit (n : N) : N :=
  if (n <? 10)%N then (48 + n)%N else (55 + n)%N.

Definition percent (byte : N) : jsstring :=
  [37%N; hexDigit (byte / 16); hexDigit (byte mod 16)].

(** The UTF-8 bytes of a code point, percent-encoded. *)
Definition utf8 (cp : N) : jsstring :=
  (if cp <? 128 then percent cp
   else if cp <? 2048 then
     percent (192 + cp / 64) ++ percent (128 + cp mod 64)
   else if cp <? 65536 then
     percent (224 + cp / 4096) ++ percent (128 + (cp / 64) mod 64)
     ++ percent (128 + cp mod 64)
   else
     percent (240 + cp / 262144) ++ percent (128 + (cp / 4096) mod 64)
     ++ percent (128 + (cp / 64) mod 64) ++ percent (128 + cp mod 64))%N.

Definition isHigh (c : N) : bool := ((55296 <=? c) && (c <=? 56319))%N.
Definition isLow (c : N) : bool := ((56320 <=? c) && (c <=? 57343))%N.

Fixpoint encode (s : jsstring) : option jsstring :=
  match s with
  | [] => Some []
  | c :: r =>
      if unreserved c then
        match encode r with Some t => Some (c :: t) | None => None end
      else if isLow c then None
      else if isHigh c then
        match r with
        | d :: r' =>
            if isLow d then
              match encode r' with
              | Some t =>
                  Some (utf8 ((c - 55296) * 1024 + (d - 56320) + 65536)%N ++ t)
              | None => None
              end
            else None
        | [] => None
        end
      else
        match encode r with Some t => Some (utf8 c ++ t) | None => None end
  end.

End RefURI.

#[export] Instance referenceRuntime : Runtime := {|
  JSON_parse := RefJSON.parse;
  encodeURIComponent := RefURI.encode
|}.

(** ** Data model (types.ts) *)

Inductive Step : Type := Input | Select | Review.

(** The argument of [parseResume]: [{ name, mimeType, data }]. *)
Record RawFile : Type := {
  file_name : jsstring;
  file_mimeType : jsstring;
  file_data : jsstring
}.

(** [ResumeData].  The three extracted fields hold what the parsed response
    holds: the interface declares [string[]], [string], [string[]], and
    nothing checks it at run time. *)
Record ResumeData : Type := {
  resume_name : jsstring;
  resume_mimeType : jsstring;
  resume_data : jsstring;
  resume_skills : json;
  resume_educationLevel : json;
  resume_projects : json
}.

Record Contact : Type := {
  contact_name : jsstring;
  contact_title : jsstring;
  contact_email : option jsstring;               (* [string | null] *)
  contact_researchInterests : jsstring;
  contact_labWebsite : option jsstring;
  contact_recentPublication : option jsstring;
  contact_linkedinProfile : option jsstring
}.

Record Email : Type := {
  email_to : jsstring;
  email_subject : jsstring;
  email_body : jsstring;
  email_sent : bool
}.

Record HistoryEntry : Type := {
  history_to : jsstring;
  history_subject : jsstring;
  history_body : jsstring;
  history_dateSent : jsstring
}.

(** What [generateEmailForContact] builds, [Omit<Email, 'sent'>] by its
    signature: [to] is [contact.email] (the [!] of [contact.email!] is erased
    by the compiler), [subject] and [body] are whatever the parsed response
    holds under these keys. *)
Record Draft : Type := {
  draft_to : option jsstring;
  draft_subject : jsval;
  draft_body : jsval
}.

(** *** Views at the declared types

    The wizard (App.tsx) is written against the interfaces above, and the
    values reach it through unchecked assertions ([result as Contact[]], the
    [any] of a parsed response).  The views below make those assertions
    explicit; they are the identity on values of the declared type, and the
    wizard is modelled on such values. *)

Definition asString (v : jsval) : jsstring :=
  match v with Some (JStr s) => s | _ => [] end.

Definition asNullable (v : jsval) : option jsstring :=
  match v with Some (JStr s) => Some s | _ => None end.

Definition field (k : jsstring) (v : json) : jsval :=
  match v with JObj props => ownProp k props | _ => None end.

Definition asContact (v : json) : Contact := {|
  contact_name := asString (field (js "name") v);
  contact_title := asString (field (js "title") v);
  contact_email := asNullable (field (js "email") v);
  contact_researchInterests := asString (field (js "researchInterests") v);
  contact_labWebsite := asNullable (field (js "labWebsite") v);
  contact_recentPublication := asNullable (field (js "recentPublication") v);
  contact_linkedinProfile := asNullable (field (js "linkedinProfile") v)
|}.

(** [{ ...e, sent: false }] at type [Email]. *)
Definition asEmail (d : Draft) : Email := {|
  email_to := default [] (draft_to d);
  email_subject := asString (draft_subject d);
  email_body := asString (draft_body d);
  email_sent := false
|}.

(** ** The world outside the component *)

Inductive request : Type :=
| ReqParseResume (file : RawFile)
| ReqFindContacts (university department : jsstring) (resume : ResumeData)
| ReqDraftEmail (contact : Contact) (purpose : jsstring) (resume : ResumeData).

(** How a request to the AI service settles. *)
Inductive reply : Type :=
| Reply (text : jsstring)      (* [response.text] *)
| Rejected.                    (* the promise of [generateContent] rejects *)

Record World : Type := {
  requests : list request;            (* the calls of [ai.models.generateContent], oldest first *)
  windows : list jsstring;            (* the URLs given to [window.open], oldest first *)
  storage : option (list HistoryEntry) (* the entry [academicOutreachHistory] of [localStorage] *)
}.

Definition logRequest (r : request) (w : World) : World :=
  {| requests := requests w ++ [r]; windows := windows w; storage := storage w |}.

Definition openWindow (url : jsstring) (w : World) : World :=
  {| requests := requests w; windows := windows w ++ [url]; storage := storage w |}.

Definition setStorage (s : option (list HistoryEntry)) (w : World) : World :=
  {| requests := requests w; windows := windows w; storage := s |}.

(** [await ai.models.generateContent(...)] *)
Definition generateContent (r : request) (rep : reply) (w : World)
  : result jsstring * World :=
  (match rep with Reply text => Ok text | Rejected => Err ApiError end,
   logRequest r w).

(** ** The AI gateway (services/geminiService.ts) *)

Definition msgResume : jsstring :=
  js "The model's response for resume analysis was not valid JSON.".
Definition msgContacts : jsstring :=
  js "The model's response was not valid JSON. Please try again.".
Definition msgEmail : jsstring :=
  js "The model's response for email generation was not valid JSON.".
Definition msgFormat : jsstring := js "Parsed JSON is not in the expected format.".
Definition msgNotArray : jsstring := js "Parsed JSON is not an array.".

(** *** Building a prompt

    The prompts are template literals over the resume facts, and these hold
    what the parsed response holds.  Of a prompt only this is modelled:
    whether it can be built. *)

(** [ToString(v)] succeeds.  An object is converted by its method
    [toString]; a parsed object that has a property of that name has a value
    there that cannot be called, and [valueOf] gives no primitive either, so
    the conversion throws a [TypeError].  An array is converted by [join],
    which converts its elements. *)
Fixpoint stringifies (v : json) : bool :=
  match v with
  | JObj props =>
      match ownProp (js "toString") props with Some _ => false | None => true end
  | JArr items => forallb stringifies items
  | _ => true
  end.

(** [`${v}`] *)
Definition ToString (v : json) : result unit :=
  if stringifies v then Ok tt else Err TypeError.

(** [v.join(sep)]: only an array has a [join] to call, and [join] converts
    each element other than [null] to a string. *)
Definition join (v : json) : result unit :=
  match v with
  | JArr items => if forallb stringifies items then Ok tt else Err TypeError
  | _ => Err TypeError
  end.

(** [`${v[0] || 'a relevant project'}`]: the element read is the first item
    of an array, the property [0] of an object, the first character of a
    string, [undefined] on a number or a boolean; the read throws on
    [null]. *)
Definition first (v : json) : result unit :=
  match v with
  | JNull => Err TypeError
  | JArr items => ToString (orElse (items !! 0%nat) (JStr (js "a relevant project")))
  | JObj props => ToString (orElse (ownProp (js "0") props) (JStr (js "a relevant project")))
  | JStr _ | JNum _ _ _ | JBool _ => Ok tt
  end.

(** The template literal of [findContacts] (the university and the
    department are strings). *)
Definition contactsPrompt (resume : ResumeData) : result unit :=
  _ ← join (resume_skills resume);
  _ ← ToString (resume_educationLevel resume);
  join (resume_projects resume).

(** The template literal of [generateEmailForContact] (the fields of the
    contact and the purpose are strings). *)
Definition emailPrompt (resume : ResumeData) : result unit :=
  _ ← join (resume_skills resume);
  _ ← ToString (resume_educationLevel resume);
  first (resume_projects resume).

Section Gateway.
Context {rt : Runtime}.

Definition parseJSON (text : jsstring) : result json :=
  match JSON_parse text with
  | Some v => Ok v
  | None => Err SyntaxError
  end.

(** The [try] block of [parseResume]. *)
Definition parseResume_try (resume : RawFile) (text : jsstring)
  : result ResumeData :=
  let cleanedText := cleanJsonString text in
  parsedJson ← parseJSON cleanedText;
  skills ← getProp (js "skills") parsedJson;
  educationLevel ← getProp (js "educationLevel") parsedJson;
  projects ← getProp (js "projects") parsedJson;
  Ok {| resume_name := file_name resume;
        resume_mimeType := file_mimeType resume;
        resume_data := file_data resume;
        resume_skills := orElse skills (JArr []);
        resume_educationLevel := orElse educationLevel (JStr (js "Not found"));
        resume_projects := orElse projects (JArr []) |}.

Definition parseResume (resume : RawFile) (rep : reply) (w : World)
  : result ResumeData * World :=
  let '(response, w1) := generateContent (ReqParseResume resume) rep w in
  (text ← response; translate msgResume (parseResume_try resume text), w1).

(** ['name' in item && 'title' in item && 'researchInterests' in item] *)
Definition looksLikeContact (item : json) : result bool :=
  hasName ← hasProp (js "name") item;
  if hasName : bool then
    hasTitle ← hasProp (js "title") item;
    if hasTitle : bool then hasProp (js "researchInterests") item else Ok false
  else Ok false.

(** [items.every(f)], which stops at the first item that fails. *)
Fixpoint every (f : json -> result bool) (items : list json) : result bool :=
  match items with
  | [] => Ok true
  | x :: r => b ← f x; if b : bool then every f r else Ok false
  end.

(** The [try] block of [findContacts]. *)
Definition findContacts_try (text : jsstring) : result (list json) :=
  let cleanedText := cleanJsonString text in
  parsed ← parseJSON cleanedText;
  match parsed with
  | JArr items =>
      unexpected ←
        (if (0 <? length items)%nat
         then all ← every looksLikeContact items; Ok (negb all)
         else Ok false);
      if unexpected : bool then Err (Error msgFormat) else Ok items
  | _ => Err (Error msgNotArray)
  end.

Definition findContacts (university department : jsstring) (resume : ResumeData)
    (rep : reply) (w : World) : result (list json) * World :=
  match contactsPrompt resume with
  | Err e => (Err e, w)                      (* the prompt could not be built *)
  | Ok _ =>
      let '(response, w1) :=
        generateContent (ReqFindContacts university department resume) rep w in
      (text ← response; translate msgContacts (findContacts_try text), w1)
  end.

(** The [try] block of [generateEmailForContact]. *)
Definition generateEmailForContact_try (contact : Contact) (text : jsstring)
  : result Draft :=
  let cleanedText := cleanJsonString text in
  emailContent ← parseJSON cleanedText;
  subject ← getProp (js "subject") emailContent;
  body ← getProp (js "body") emailContent;
  Ok {| draft_to := contact_email contact;
        draft_subject := subject;
        draft_body := body |}.

Definition generateEmailForContact (contact : Contact) (purpose : jsstring)
    (resume : ResumeData) (rep : reply) (w : World) : result Draft * World :=
  match emailPrompt resume with
  | Err e => (Err e, w)                      (* the prompt could not be built *)
  | Ok _ =>
      let '(response, w1) :=
        generateContent (ReqDraftEmail contact purpose resume) rep w in
      (text ← response; translate msgEmail (generateEmailForContact_try contact text),
       w1)
  end.

End Gateway.

(** ** The wizard (App.tsx) *)

Inductive View : Type := AppView | HistoryView.

(** The state variables of the component [App]. *)
Record AppState : Type := {
  currentStep : Step;
  resumeData : option ResumeData;
  university : jsstring;
  department : jsstring;
  purpose : jsstring;
  contacts : list Contact;
  selectedContacts : gset jsstring;
  emails : list Email;
  history : list HistoryEntry;
  view : View;
  isLoading : bool;
  isParsingResume : bool;
  isGeneratingEmails : bool;
  isSending : bool;
  error : option jsstring;
  isDarkMode : bool
}.

Definition setCurrentStep (v : Step) (s : AppState) : AppState :=
  let 'Build_AppState _ a2 a3 a4 a5 a6 a7 a8 a9 a10 a11 a12 a13 a14 a15 a16 := s in
  Build_AppState v a2 a3 a4 a5 a6 a7 a8 a9 a10 a11 a12 a13 a14 a15 a16.
Definition setResumeData (v : option ResumeData) (s : AppState) : AppState :=
  let 'Build_AppState a1 _ a3 a4 a5 a6 a7 a8 a9 a10 a11 a12 a13 a14 a15 a16 := s in
  Build_AppState a1 v a3 a4 a5 a6 a7 a8 a9 a10 a11 a12 a13 a14 a15 a16.
Definition setUniversity (v : jsstring) (s : AppState) : AppState :=
  let 'Build_AppState a1 a2 _ a4 a5 a6 a7 a8 a9 a10 a11 a12 a13 a14 a15 a16 := s in
  Build_AppState a1 a2 v a4 a5 a6 a7 a8 a9 a10 a11 a12 a13 a14 a15 a16.
Definition setDepartment (v : jsstring) (s : AppState) : AppState :=
  let 'Build_AppState a1 a2 a3 _ a5 a6 a7 a8 a9 a10 a11 a12 a13 a14 a15 a16 := s in
  Build_AppState a1 a2 a3 v a5 a6 a7 a8 a9 a10 a11 a12 a13 a14 a15 a16.
Definition setPurpose (v : jsstring) (s : AppState) : AppState :=
  let 'Build_AppState a1 a2 a3 a4 _ a6 a7 a8 a9 a10 a11 a12 a13 a14 a15 a16 := s in
  Build_AppState a1 a2 a3 a4 v a6 a7 a8 a9 a10 a11 a12 a13 a14 a15 a16.
Definition setContacts (v : list Contact) (s : AppState) : AppState :=
  let 'Build_AppState a1 a2 a3 a4 a5 _ a7 a8 a9 a10 a11 a12 a13 a14 a15 a16 := s in
  Build_AppState a1 a2 a3 a4 a5 v a7 a8 a9 a10 a11 a12 a13 a14 a15 a16.
Definition setSelectedContacts (v : gset jsstring) (s : AppState) : AppState :=
  let 'Build_AppState a1 a2 a3 a4 a5 a6 _ a8 a9 a10 a11 a12 a13 a14 a15 a16 := s in
  Build_AppState a1 a2 a3 a4 a5 a6 v a8 a9 a10 a11 a12 a13 a14 a15 a16.
Definition setEmails (v : list Email) (s : AppState) : AppState :=
  let 'Build_AppState a1 a2 a3 a4 a5 a6 a7 _ a9 a10 a11 a12 a13 a14 a15 a16 := s in
  Build_AppState a1 a2 a3 a4 a5 a6 a7 v a9 a10 a11 a12 a13 a14 a15 a16.
Definition setHistory (v : list HistoryEntry) (s : AppState) : AppState :=
  let 'Build_AppState a1 a2 a3 a4 a5 a6 a7 a8 _ a10 a11 a12 a13 a14 a15 a16 := s in
  Build_AppState a1 a2 a3 a4 a5 a6 a7 a8 v a10 a11 a12 a13 a14 a15 a16.
Definition setView (v : View) (s : AppState) : AppState :=
  let 'Build_AppState a1 a2 a3 a4 a5 a6 a7 a8 a9 _ a11 a12 a13 a14 a15 a16 := s in
  Build_AppState a1 a2 a3 a4 a5 a6 a7 a8 a9 v a11 a12 a13 a14 a15 a16.
Definition setIsLoading (v : bool) (s : AppState) : AppState :=
  let 'Build_AppState a1 a2 a3 a4 a5 a6 a7 a8 a9 a10 _ a12 a13 a14 a15 a16 := s in
  Build_AppState a1 a2 a3 a4 a5 a6 a7 a8 a9 a10 v a12 a13 a14 a15 a16.
Definition setIsParsingResume (v : bool) (s : AppState) : AppState :=
  let 'Build_AppState a1 a2 a3 a4 a5 a6 a7 a8 a9 a10 a11 _ a13 a14 a15 a16 := s in
  Build_AppState a1 a2 a3 a4 a5 a6 a7 a8 a9 a10 a11 v a13 a14 a15 a16.
Definition setIsGeneratingEmails (v : bool) (s : AppState) : AppState :=
  let 'Build_AppState a1 a2 a3 a4 a5 a6 a7 a8 a9 a10 a11 a12 _ a14 a15 a16 := s in
  Build_AppState a1 a2 a3 a4 a5 a6 a7 a8 a9 a10 a11 a12 v a14 a15 a16.
Definition setIsSending (v : bool) (s : AppState) : AppState :=
  let 'Build_AppState a1 a2 a3 a4 a5 a6 a7 a8 a9 a10 a11 a12 a13 _ a15 a16 := s in
  Build_AppState a1 a2 a3 a4 a5 a6 a7 a8 a9 a10 a11 a12 a13 v a15 a16.
Definition setError (v : option jsstring) (s : AppState) : AppState :=
  let 'Build_AppState a1 a2 a3 a4 a5 a6 a7 a8 a9 a10 a11 a12 a13 a14 _ a16 := s in
  Build_AppState a1 a2 a3 a4 a5 a6 a7 a8 a9 a10 a11 a12 a13 a14 v a16.
Definition setIsDarkMode (v : bool) (s : AppState) : AppState :=
  let 'Build_AppState a1 a2 a3 a4 a5 a6 a7 a8 a9 a10 a11 a12 a13 a14 a15 _ := s in
  Build_AppState a1 a2 a3 a4 a5 a6 a7 a8 a9 a10 a11 a12 a13 a14 a15 v.

(** The state of the first render; the mount effect has loaded the history
    kept in [localStorage] (nothing, when the entry is absent or corrupt). *)
Definition initialState (w : World) (dark : bool) : AppState := {|
  currentStep := Input;
  resumeData := None;
  university := [];
  department := [];
  purpose := js "seeking a PhD research position";
  contacts := [];
  selectedContacts := ∅;
  emails := [];
  history := default [] (storage w);
  view := AppView;
  isLoading := false;
  isParsingResume := false;
  isGeneratingEmails := false;
  isSending := false;
  error := None;
  isDarkMode := dark
|}.

(** Truthiness of a string: [!s] is [negb (nonEmpty s)]. *)
Definition nonEmpty (s : jsstring) : bool :=
  match s with [] => false | _ :: _ => true end.

(** Truthiness of [p.email]. *)
Definition hasEmail (p : Contact) : bool :=
  match contact_email p with
  | Some e => nonEmpty e
  | None => false
  end.

(** [p.email as string] *)
Definition emailOf (p : Contact) : jsstring := default [] (contact_email p).

Definition msgMissingInput : jsstring :=
  js "Please upload your resume and enter a university name and department.".
Definition msgFindFailed : jsstring :=
  js "Failed to find contacts. The model may have returned an unexpected format. Please try again.".
Definition msgGenerateGuard : jsstring :=
  js "Something went wrong. Please ensure resume, purpose, and contacts are selected.".
Definition msgGenerateFailed : jsstring :=
  js "An error occurred while generating emails. Please try again.".
Definition msgParseFailed : jsstring :=
  js "Failed to parse resume. The AI couldn't extract details. Please try another file.".
Definition msgNotPdf : jsstring := js "Please upload a valid PDF file.".
Definition reminder : jsstring :=
  Eval cbv in [10; 10]%N ++ js "(Remember to attach your resume!)".
Definition pdfType : jsstring := js "application/pdf".

(** The file picked in the upload control: its name, its MIME type, and the
    part of its data URL after the first comma (if the reader produced one). *)
Record Upload : Type := {
  upload_name : jsstring;
  upload_type : jsstring;
  upload_base64 : option jsstring
}.

(** [Promise.all]: the drafts when every promise fulfils, a rejection
    otherwise (its reason is only logged by the caller). *)
Fixpoint promiseAll {A} (l : list (result A)) : result (list A) :=
  match l with
  | [] => Ok []
  | Ok a :: r => match promiseAll r with Ok t => Ok (a :: t) | Err e => Err e end
  | Err e :: _ => Err e
  end.

(** [newEmails[index].body = newBody] on the copy [[...prev]]; the write to
    [.body] of a missing element throws.  The copy is shallow, so the
    assignment acts on the object the list holds at [index]; the elements
    of the list are distinct objects (each one comes from an object literal
    of its own, in [handleGenerateEmails] or in [handleSendAll]), so a list
    of values describes it. *)
Definition changeBody (index : nat) (newBody : jsstring) (prev : list Email)
  : result (list Email) :=
  match prev !! index with
  | Some e =>
      Ok (<[index := {| email_to := email_to e; email_subject := email_subject e;
                        email_body := newBody; email_sent := email_sent e |}]> prev)
  | None => Err TypeError
  end.

(** [newEmails[i] = { ...newEmails[i], sent: true }] on the copy [[...prev]].
    Past the end JavaScript extends the array by the object [{ sent: true }]
    (after a run of holes); [sendLoop_length] shows that the send loop never
    writes there. *)
Definition blankEmail (sent : bool) : Email :=
  {| email_to := []; email_subject := []; email_body := []; email_sent := sent |}.

Definition markSent (i : nat) (prev : list Email) : list Email :=
  match prev !! i with
  | Some e =>
      <[i := {| email_to := email_to e; email_subject := email_subject e;
                email_body := email_body e; email_sent := true |}]> prev
  | None => prev ++ replicate (i - length prev)%nat (blankEmail false)
                 ++ [blankEmail true]
  end.

Section Wizard.
Context {rt : Runtime}.

(** [handleFileChange]; the [onloadend] callback of the reader is run with it. *)
Definition handleFileChange (file : option Upload) (rep : reply)
    (s : AppState) (w : World) : AppState * World :=
  match file with
  | Some f =>
      if eqbs (upload_type f) pdfType then
        let s1 := setResumeData None (setError None (setIsParsingResume true s)) in
        match upload_base64 f with
        | Some (c :: b) =>
            let rawFile := {| file_name := upload_name f;
                              file_mimeType := upload_type f;
                              file_data := c :: b |} in
            let '(parsed, w1) := parseResume rawFile rep w in
            let s2 := match parsed with
                      | Ok parsedData => setResumeData (Some parsedData) s1
                      | Err _ => setResumeData None (setError (Some msgParseFailed) s1)
                      end in
            (setIsParsingResume false s2, w1)
        | _ => (s1, w)
        end
      else (setResumeData None (setError (Some msgNotPdf) s), w)
  | None => (setResumeData None (setError (Some msgNotPdf) s), w)
  end.

(** [handleFindContacts] *)
Definition handleFindContacts (rep : reply) (s : AppState) (w : World)
  : AppState * World :=
  match resumeData s with
  | Some resume =>
      if nonEmpty (university s) && nonEmpty (department s) then
        let s1 := setError None (setIsLoading true s) in
        let '(found, w1) :=
          findContacts (university s) (department s) resume rep w in
        let s2 :=
          match found with
          | Ok result =>
              let foundContacts := map asContact result in
              setCurrentStep Select
                (setSelectedContacts
                   (list_to_set (map emailOf (filter (fun p => hasEmail p = true)
                                                     foundContacts)))
                   (setContacts foundContacts s1))
          | Err _ => setError (Some msgFindFailed) s1
          end in
        (setIsLoading false s2, w1)
      else (setError (Some msgMissingInput) s, w)
  | None => (setError (Some msgMissingInput) s, w)
  end.

(** [handleContactSelection] *)
Definition handleContactSelection (email : jsstring) (s : AppState) : AppState :=
  let prev := selectedContacts s in
  setSelectedContacts
    (if decide (email ∈ prev) then prev ∖ {[email]} else prev ∪ {[email]}) s.

(** The [onChange] of the check box of a contact:
    [() => contact.email && handleContactSelection(contact.email)]. *)
Definition onContactChange (contact : Contact) (s : AppState) : AppState :=
  if hasEmail contact then handleContactSelection (emailOf contact) s else s.

(** [contactsToEmail.map(contact => generateEmailForContact(...))]: the
    requests are issued in list order, request [i] settles as [replies i]. *)
Fixpoint draftAll (contactsToEmail : list Contact) (purpose : jsstring)
    (resume : ResumeData) (replies : nat -> reply) (i : nat) (w : World)
  : list (result Draft) * World :=
  match contactsToEmail with
  | [] => ([], w)
  | contact :: rest =>
      let '(d, w1) := generateEmailForContact contact purpose resume (replies i) w in
      let '(ds, w2) := draftAll rest purpose resume replies (S i) w1 in
      (d :: ds, w2)
  end.

Definition contactsToEmail (s : AppState) : list Contact :=
  filter (fun p => hasEmail p = true ∧ emailOf p ∈ selectedContacts s) (contacts s).

(** [handleGenerateEmails] *)
Definition handleGenerateEmails (replies : nat -> reply) (s : AppState) (w : World)
  : AppState * World :=
  match resumeData s with
  | Some resume =>
      if nonEmpty (purpose s) && negb (size (selectedContacts s) =? 0)%nat then
        let s1 := setEmails [] (setError None (setIsGeneratingEmails true s)) in
        let '(emailPromises, w1) :=
          draftAll (contactsToEmail s) (purpose s) resume replies 0 w in
        let s2 :=
          match promiseAll emailPromises with
          | Ok generatedEmails =>
              let emailsWithStatus := map asEmail generatedEmails in
              setCurrentStep Review (setEmails emailsWithStatus s1)
          | Err _ => setError (Some msgGenerateFailed) s1
          end in
        (setIsGeneratingEmails false s2, w1)
      else (setError (Some msgGenerateGuard) s, w)
  | None => (setError (Some msgGenerateGuard) s, w)
  end.

(** [handleEmailChange]: the updater given to [setEmails] throws when there
    is no email at [index]. *)
Definition handleEmailChange (index : nat) (newBody : jsstring) (s : AppState)
  : result AppState :=
  newEmails ← changeBody index newBody (emails s);
  Ok (setEmails newEmails s).

(** The [mailto:] link of [handleSendAll]. *)
Definition mailtoLink (email : Email) : result jsstring :=
  match encodeURIComponent (email_subject email) with
  | None => Err URIError
  | Some subject =>
      match encodeURIComponent (email_body email ++ reminder) with
      | None => Err URIError
      | Some body =>
          Ok (js "mailto:" ++ email_to email ++ js "?subject=" ++ subject
              ++ js "&body=" ++ body)
      end
  end.

(** The loop of [handleSendAll] from index [i] on.  [snapshot] is what is
    left of the array [emails] the handler closed over, [cur] the state
    variable the updaters of [setEmails] act on, [now i] the reading of the
    clock in round [i]. *)
Fixpoint sendLoop (snapshot : list Email) (i : nat) (now : nat -> jsstring)
    (cur : list Email) (newHistoryEntries : list HistoryEntry) (w : World)
  : result (list HistoryEntry) * list Email * World :=
  match snapshot with
  | [] => (Ok newHistoryEntries, cur, w)
  | email :: rest =>
      if negb (email_sent email) then
        match mailtoLink email with
        | Err e => (Err e, cur, w)
        | Ok link =>
            let w1 := openWindow link w in
            let cur1 := markSent i cur in
            let entry := {| history_to := email_to email;
                            history_subject := email_subject email;
                            history_body := email_body email;
                            history_dateSent := now i |} in
            sendLoop rest (S i) now cur1 (newHistoryEntries ++ [entry]) w1
        end
      else sendLoop rest (S i) now cur newHistoryEntries w
  end.

(** [handleSendAll].  The first component tells whether the handler ran to
    its end or stopped on an exception (with [isSending] left set). *)
Definition handleSendAll (now : nat -> jsstring) (s : AppState) (w : World)
  : result unit * AppState * World :=
  let s1 := setIsSending true s in
  let '(outcome, cur, w1) := sendLoop (emails s) 0 now (emails s) [] w in
  let s2 := setEmails cur s1 in
  match outcome with
  | Err e => (Err e, s2, w1)
  | Ok newHistoryEntries =>
      if (0 <? length newHistoryEntries)%nat then
        let updatedHistory := newHistoryEntries ++ history s2 in
        (Ok tt, setIsSending false (setHistory updatedHistory s2),
         setStorage (Some updatedHistory) w1)
      else (Ok tt, setIsSending false s2, w1)
  end.

(** [handleClearHistory]; [confirmed] is the answer to [window.confirm]. *)
Definition handleClearHistory (confirmed : bool) (s : AppState) (w : World)
  : AppState * World :=
  if confirmed then (setHistory [] s, setStorage None w) else (s, w).

(** [handleBack] *)
Definition handleBack (s : AppState) : AppState :=
  match currentStep s with
  | Review => setCurrentStep Select s
  | Select => setCurrentStep Input s
  | Input => s
  end.

(** *** Sessions *)

(** What the user can do to the page.  A control that is not on the page
    (a check box or a text area past the end of its list) does nothing. *)
Inductive event : Type :=
| ChangeUniversity (value : jsstring)
| ChangeDepartment (value : jsstring)
| ChangePurpose (value : jsstring)
| FileChange (file : option Upload) (rep : reply)
| FindContacts (rep : reply)
| ContactChange (index : nat)
| GenerateEmails (replies : nat -> reply)
| EmailChange (index : nat) (newBody : jsstring)
| SendAll (now : nat -> jsstring)
| ClearHistory (confirmed : bool)
| Back
| ToggleView
| ShowApp
| ToggleDarkMode.

Definition step (ev : event) (sw : AppState * World) : AppState * World :=
  let '(s, w) := sw in
  match ev with
  | ChangeUniversity v => (setUniversity v s, w)
  | ChangeDepartment v => (setDepartment v s, w)
  | ChangePurpose v => (setPurpose v s, w)
  | FileChange file rep => handleFileChange file rep s w
  | FindContacts rep => handleFindContacts rep s w
  | ContactChange index =>
      match contacts s !! index with
      | Some contact => (onContactChange contact s, w)
      | None => (s, w)
      end
  | GenerateEmails replies => handleGenerateEmails replies s w
  | EmailChange index newBody =>
      match handleEmailChange index newBody s with
      | Ok s' => (s', w)
      | Err _ => (s, w)
      end
  | SendAll now => let '(_, s', w') := handleSendAll now s w in (s', w')
  | ClearHistory confirmed => handleClearHistory confirmed s w
  | Back => (handleBack s, w)
  | ToggleView =>
      (setView (match view s with AppView => HistoryView | HistoryView => AppView end) s, w)
  | ShowApp => (setView AppView s, w)
  | ToggleDarkMode => (setIsDarkMode (negb (isDarkMode s)) s, w)
  end.

(** The state after a sequence of events, the first of the list first. *)
Definition run (evs : list event) (sw : AppState * World) : AppState * World :=
  fold_left (fun acc ev => step ev acc) evs sw.

End Wizard.

(** ** Vocabulary of the statements *)

Definition isSome {A} (o : option A) : bool :=
  match o with Some _ => true | None => false end.

(** An element of a discovery result exposes the three mandatory fields. *)
Definition exposes (item : json) : bool :=
  match item with
  | JObj props =>
      isSome (ownProp (js "name") props) && isSome (ownProp (js "title") props)
      && isSome (ownProp (js "researchInterests") props)
  | _ => false
  end.

(** The prompts of the two requests that read the resume can be built. *)
Definition contactsPromptOk (resume : ResumeData) : bool :=
  isOk (contactsPrompt resume).

Definition emailPromptOk (resume : ResumeData) : bool :=
  isOk (emailPrompt resume).

(** The cleaned text parses to a value that has properties to read. *)
Definition parsesToNonNull {rt : Runtime} (text : jsstring) : bool :=
  match JSON_parse (cleanJsonString text) with
  | Some JNull => false
  | Some _ => true
  | None => false
  end.

(** ** Sample data for the evaluations *)

Module Sample.

Definition file : RawFile :=
  {| file_name := js "cv.pdf"; file_mimeType := pdfType; file_data := js "JVBERi0x" |}.

Definition resume : ResumeData :=
  {| resume_name := js "cv.pdf"; resume_mimeType := pdfType;
     resume_data := js "JVBERi0x";
     resume_skills := JArr [JStr (js "Rocq")];
     resume_educationLevel := JStr (js "MSc in Logic");
     resume_projects := JArr [] |}.

Definition world : World := {| requests := []; windows := []; storage := None |}.

Definition ada : Contact :=
  {| contact_name := js "Ada Byron"; contact_title := js "Professor";
     contact_email := Some (js "ada@uni.example");
     contact_researchInterests := js "Analytical engines";
     contact_labWebsite := None; contact_recentPublication := None;
     contact_linkedinProfile := None |}.

(** A contact for whom no address was found. *)
Definition bob : Contact :=
  {| contact_name := js "Bob Lee"; contact_title := js "Lab Manager";
     contact_email := None;
     contact_researchInterests := js "Looms";
     contact_labWebsite := None; contact_recentPublication := None;
     contact_linkedinProfile := None |}.

(** A contact whose address is the empty string. *)
Definition eve : Contact :=
  {| contact_name := js "Eve Roy"; contact_title := js "PhD Candidate";
     contact_email := Some [];
     contact_researchInterests := js "Ciphers";
     contact_labWebsite := None; contact_recentPublication := None;
     contact_linkedinProfile := None |}.

Definition kim : Contact :=
  {| contact_name := js "Kim Oh"; contact_title := js "Research Scientist";
     contact_email := Some (js "kim@uni.example");
     contact_researchInterests := js "Proof assistants";
     contact_labWebsite := None; contact_recentPublication := None;
     contact_linkedinProfile := None |}.

End Sample.

(** The email [e] once dispatched: [{ ...e, sent: true }]. *)
Definition sentCopy (e : Email) : Email :=
  {| email_to := email_to e; email_subject := email_subject e;
     email_body := email_body e; email_sent := true |}.

(** The emails of a list that are still to be sent, in list order. *)
Definition unsent (l : list Email) : list Email :=
  filter (fun e => email_sent e = false) l.

(** The link of an email that is still to be sent can be built. *)
Definition dispatchable {rt : Runtime} (e : Email) : Prop :=
  email_sent e = false -> isOk (mailtoLink e) = true.

(** The history record of a dispatched email. *)
Definition recordOf (e : Email) (h : HistoryEntry) : Prop :=
  history_to h = email_to e /\ history_subject h = email_subject e
  /\ history_body h = email_body e.

(** [b] is the record [a] later in the session: same recipient and
    subject, and sent if [a] was. *)
Definition laterOf (a b : Email) : Prop :=
  email_to b = email_to a /\ email_subject b = email_subject a
  /\ (email_sent a = true -> email_sent b = true).

(** The events that replace the drafted list by a new batch of records. *)
Definition redrafts (ev : event) : bool :=
  match ev with GenerateEmails _ => true | _ => false end.

(** [e] is the address of a contact of the list that has one: non-null, and
    not the empty string (which the code treats as no address). *)
Definition selectable (s : AppState) (e : jsstring) : Prop :=
  exists p, p ∈ contacts s /\ contact_email p = Some e /\ e <> [].

(** The selection holds only addresses of contacts that have one. *)
Definition selectionInv (s : AppState) : Prop :=
  forall e, e ∈ selectedContacts s -> selectable s e.

(** ** Further vocabulary *)

(** [r] is a run of consecutive code units of [s]. *)
Definition infixOf (r s : jsstring) : Prop :=
  exists pre post, s = pre ++ r ++ post.

(** [response.text] wrapped in a fence: the opening fence, white space, the
    payload, the closing fence. *)
Definition fenced (ws payload : jsstring) : jsstring :=
  fenceOpen ++ ws ++ payload ++ fenceClose.

(** A field of a resume response that [join] accepts once [parseResume]
    has read it: a list of values that convert to strings, or a value that
    [||] replaces by the default list. *)
Definition joinable (v : jsval) : bool :=
  match v with
  | Some (JArr items) => forallb stringifies items
  | _ => negb (truthy v)
  end.

(** A field of a resume response that a template literal can print once
    [parseResume] has read it: a value that converts to a string, or none. *)
Definition printable (v : jsval) : bool :=
  match v with Some x => stringifies x | None => true end.

(** The numbers of the enumeration [Step] (types.ts). *)
Definition stepNumber (st : Step) : Z :=
  match st with Input => 1 | Select => 2 | Review => 3 end.

(** The email [e] with another body. *)
Definition withBody (newBody : jsstring) (e : Email) : Email :=
  {| email_to := email_to e; email_subject := email_subject e;
     email_body := newBody; email_sent := email_sent e |}.

(** An event that empties the history. *)
Definition clears (ev : event) : bool :=
  match ev with ClearHistory confirmed => confirmed | _ => false end.

(** The history in memory is the history in [localStorage]. *)
Definition storeInSync (sw : AppState * World) : Prop :=
  history sw.1 = default [] (storage sw.2).

(** ** What the page offers ([renderContent], [renderHistory], the header) *)

(** [emails.filter(e => !e.sent).length] *)
Definition unsentEmailCount (s : AppState) : nat :=
  length (filter (fun e => email_sent e = false) (emails s)).

(** The [disabled] attributes of the buttons and of a check box, and the
    [checked] attribute of a check box. *)
Definition findContactsDisabled (s : AppState) : bool :=
  isLoading s || negb (isSome (resumeData s)) || negb (nonEmpty (university s))
  || negb (nonEmpty (department s)).

Definition generateDisabled (s : AppState) : bool :=
  isGeneratingEmails s || (size (selectedContacts s) =? 0)%nat.

Definition sendAllDisabled (s : AppState) : bool :=
  isSending s || (unsentEmailCount s =? 0)%nat.

Definition clearDisabled (s : AppState) : bool := (length (history s) =? 0)%nat.

Definition checkboxDisabled (contact : Contact) : bool := negb (hasEmail contact).

Definition checkboxChecked (s : AppState) (contact : Contact) : bool :=
  hasEmail contact && bool_decide (emailOf contact ∈ selectedContacts s).

Definition onStep (st : Step) (s : AppState) : bool :=
  match view s, currentStep s, st with
  | AppView, Input, Input | AppView, Select, Select | AppView, Review, Review => true
  | _, _, _ => false
  end.

Definition onHistory (s : AppState) : bool :=
  match view s with HistoryView => true | AppView => false end.

(** The control of the event is on the page and enabled.  The wizard is
    rendered in the view [app] only, each step with its own controls: the
    inputs, the file picker (hidden while a resume is analysed) and [Find
    Contacts] on [Input]; the check boxes, [Back] and [Generate] on
    [Select]; the text areas (read-only once the email is sent), [Send All]
    and [Back] on [Review].  The history view has [Back to App] and
    [Clear]; the two buttons of the header are always there. *)
Definition offered (ev : event) (s : AppState) : bool :=
  match ev with
  | ChangeUniversity _ | ChangeDepartment _ | ChangePurpose _ => onStep Input s
  | FileChange _ _ => onStep Input s && negb (isParsingResume s)
  | FindContacts _ => onStep Input s && negb (findContactsDisabled s)
  | ContactChange index =>
      onStep Select s
      && match contacts s !! index with
         | Some contact => negb (checkboxDisabled contact)
         | None => false
         end
  | GenerateEmails _ => onStep Select s && negb (generateDisabled s)
  | EmailChange index _ =>
      onStep Review s
      && match emails s !! index with
         | Some email => negb (email_sent email)
         | None => false
         end
  | SendAll _ => onStep Review s && negb (sendAllDisabled s)
  | Back => onStep Select s || onStep Review s
  | ClearHistory _ => onHistory s && negb (clearDisabled s)
  | ShowApp => onHistory s
  | ToggleView | ToggleDarkMode => true
  end.

Section Page.
Context {rt : Runtime}.

(** An event on the page as it is: one that is not offered does nothing. *)
Definition uiStep (ev : event) (sw : AppState * World) : AppState * World :=
  if offered ev sw.1 then step ev sw else sw.

Definition uiRun (evs : list event) (sw : AppState * World) : AppState * World :=
  fold_left (fun acc ev => uiStep ev acc) evs sw.

End Page.

(** ** The wizard while its handlers wait

    [handleFileChange], [handleFindContacts] and [handleGenerateEmails]
    wait: the first for the reader of the file and then for the service,
    the other two for the service.  While a handler waits the page takes
    other events, and what the handler does after its [await] it does to
    the state there is then.

    This part follows the state variables that these three handlers, the
    inputs, the check boxes and [Back] read or write.  The other five
    ([emails], [history], [isSending], [view], [isDarkMode]) are read and
    written by the dispatch, the edits of a draft, the history and the
    header only, which in turn touch none of the variables followed here;
    they are left out, and with them the two calls of [setEmails] in
    [handleGenerateEmails]. *)

Record Nav : Type := {
  nav_currentStep : Step;
  nav_resumeData : option ResumeData;
  nav_university : jsstring;
  nav_department : jsstring;
  nav_purpose : jsstring;
  nav_contacts : list Contact;
  nav_selectedContacts : gset jsstring;
  nav_isLoading : bool;
  nav_isParsingResume : bool;
  nav_isGeneratingEmails : bool;
  nav_error : option jsstring
}.

(** These variables, of a state of the component. *)
Definition nav (s : AppState) : Nav := {|
  nav_currentStep := currentStep s;
  nav_resumeData := resumeData s;
  nav_university := university s;
  nav_department := department s;
  nav_purpose := purpose s;
  nav_contacts := contacts s;
  nav_selectedContacts := selectedContacts s;
  nav_isLoading := isLoading s;
  nav_isParsingResume := isParsingResume s;
  nav_isGeneratingEmails := isGeneratingEmails s;
  nav_error := error s
|}.

Definition navCurrentStep (v : Step) (n : Nav) : Nav :=
  let 'Build_Nav _ a2 a3 a4 a5 a6 a7 a8 a9 a10 a11 := n in
  Build_Nav v a2 a3 a4 a5 a6 a7 a8 a9 a10 a11.
Definition navResumeData (v : option ResumeData) (n : Nav) : Nav :=
  let 'Build_Nav a1 _ a3 a4 a5 a6 a7 a8 a9 a10 a11 := n in
  Build_Nav a1 v a3 a4 a5 a6 a7 a8 a9 a10 a11.
Definition navUniversity (v : jsstring) (n : Nav) : Nav :=
  let 'Build_Nav a1 a2 _ a4 a5 a6 a7 a8 a9 a10 a11 := n in
  Build_Nav a1 a2 v a4 a5 a6 a7 a8 a9 a10 a11.
Definition navDepartment (v : jsstring) (n : Nav) : Nav :=
  let 'Build_Nav a1 a2 a3 _ a5 a6 a7 a8 a9 a10 a11 := n in
  Build_Nav a1 a2 a3 v a5 a6 a7 a8 a9 a10 a11.
Definition navPurpose (v : jsstring) (n : Nav) : Nav :=
  let 'Build_Nav a1 a2 a3 a4 _ a6 a7 a8 a9 a10 a11 := n in
  Build_Nav a1 a2 a3 a4 v a6 a7 a8 a9 a10 a11.
Definition navContacts (v : list Contact) (n : Nav) : Nav :=
  let 'Build_Nav a1 a2 a3 a4 a5 _ a7 a8 a9 a10 a11 := n in
  Build_Nav a1 a2 a3 a4 a5 v a7 a8 a9 a10 a11.
Definition navSelectedContacts (v : gset jsstring) (n : Nav) : Nav :=
  let 'Build_Nav a1 a2 a3 a4 a5 a6 _ a8 a9 a10 a11 := n in
  Build_Nav a1 a2 a3 a4 a5 a6 v a8 a9 a10 a11.
Definition navIsLoading (v : bool) (n : Nav) : Nav :=
  let 'Build_Nav a1 a2 a3 a4 a5 a6 a7 _ a9 a10 a11 := n in
  Build_Nav a1 a2 a3 a4 a5 a6 a7 v a9 a10 a11.
Definition navIsParsingResume (v : bool) (n : Nav) : Nav :=
  let 'Build_Nav a1 a2 a3 a4 a5 a6 a7 a8 _ a10 a11 := n in
  Build_Nav a1 a2 a3 a4 a5 a6 a7 a8 v a10 a11.
Definition navIsGeneratingEmails (v : bool) (n : Nav) : Nav :=
  let 'Build_Nav a1 a2 a3 a4 a5 a6 a7 a8 a9 _ a11 := n in
  Build_Nav a1 a2 a3 a4 a5 a6 a7 a8 a9 v a11.
Definition navError (v : option jsstring) (n : Nav) : Nav :=
  let 'Build_Nav a1 a2 a3 a4 a5 a6 a7 a8 a9 a10 _ := n in
  Build_Nav a1 a2 a3 a4 a5 a6 a7 a8 a9 a10 v.

(** What a waiting handler waits for.  The outcome that will be there is
    part of it: the reply the service will give settles, from the moment
    the request is made, what the promise will come to. *)
Inductive wait : Type :=
| Reading (file : Upload) (rep : reply)        (* [reader.onloadend] *)
| Parsing (parsed : result ResumeData)         (* [await parseResume(rawFile)] *)
| Finding (found : result (list json))         (* [await findContacts(...)] *)
| Drafting (emailPromises : list (result Draft)). (* [await Promise.all(emailPromises)] *)

Record Session : Type := {
  shown : Nav;                (* the state variables *)
  asked : list request;       (* the requests made to the service, oldest first *)
  waiting : list wait         (* the handlers that wait, oldest first *)
}.

(** The world a request is made in, as far as the requests go. *)
Definition logged (asked : list request) : World :=
  {| requests := asked; windows := []; storage := None |}.

Definition navigate (f : Nav -> Nav) (p : Session) : Session :=
  {| shown := f (shown p); asked := asked p; waiting := waiting p |}.

Definition await (wt : wait) (p : Session) : Session :=
  {| shown := shown p; asked := asked p; waiting := waiting p ++ [wt] |}.

(** [contacts.filter(p => p.email && selectedContacts.has(p.email))] *)
Definition navContactsToEmail (n : Nav) : list Contact :=
  filter (fun p => hasEmail p = true ∧ emailOf p ∈ nav_selectedContacts n)
         (nav_contacts n).

Section Sessions.
Context {rt : Runtime}.

(** What a handler does once what it waited for is there. *)
Definition continue (wt : wait) (p : Session) : Session :=
  match wt with
  | Reading f rep =>
      (* [reader.onloadend], up to [await parseResume(rawFile)] *)
      match upload_base64 f with
      | Some (c :: b) =>
          let rawFile := {| file_name := upload_name f;
                            file_mimeType := upload_type f;
                            file_data := c :: b |} in
          let '(parsed, w1) := parseResume rawFile rep (logged (asked p)) in
          {| shown := shown p; asked := requests w1;
             waiting := waiting p ++ [Parsing parsed] |}
      | _ => p
      end
  | Parsing parsed =>
      navigate (fun n =>
        navIsParsingResume false
          match parsed with
          | Ok parsedData => navResumeData (Some parsedData) n
          | Err _ => navResumeData None (navError (Some msgParseFailed) n)
          end) p
  | Finding found =>
      navigate (fun n =>
        navIsLoading false
          match found with
          | Ok result =>
              let foundContacts := map asContact result in
              navCurrentStep Select
                (navSelectedContacts
                   (list_to_set (map emailOf (filter (fun p => hasEmail p = true)
                                                     foundContacts)))
                   (navContacts foundContacts n))
          | Err _ => navError (Some msgFindFailed) n
          end) p
  | Drafting emailPromises =>
      navigate (fun n =>
        navIsGeneratingEmails false
          match promiseAll emailPromises with
          | Ok _ => navCurrentStep Review n
          | Err _ => navError (Some msgGenerateFailed) n
          end) p
  end.

(** The user acts on the page: the handler of the event runs, up to its
    first [await] if it has to wait.  When the prompt of a discovery cannot
    be built, or when no drafting request is on its way (no prompt, or no
    contact to draft for), the awaited promise is settled from the start,
    and the rest of the handler runs before the page takes another event. *)
Definition press (ev : event) (p : Session) : Session :=
  let n := shown p in
  match ev with
  | ChangeUniversity v => navigate (navUniversity v) p
  | ChangeDepartment v => navigate (navDepartment v) p
  | ChangePurpose v => navigate (navPurpose v) p
  | FileChange file rep =>
      match file with
      | Some f =>
          if eqbs (upload_type f) pdfType then
            await (Reading f rep)
              (navigate (fun n => navResumeData None
                                    (navError None (navIsParsingResume true n))) p)
          else navigate (fun n => navResumeData None (navError (Some msgNotPdf) n)) p
      | None => navigate (fun n => navResumeData None (navError (Some msgNotPdf) n)) p
      end
  | FindContacts rep =>
      match nav_resumeData n with
      | Some resume =>
          if nonEmpty (nav_university n) && nonEmpty (nav_department n) then
            let n1 := navError None (navIsLoading true n) in
            let '(found, w1) :=
              findContacts (nav_university n) (nav_department n) resume rep
                (logged (asked p)) in
            let p1 := {| shown := n1; asked := requests w1; waiting := waiting p |} in
            if contactsPromptOk resume
            then await (Finding found) p1
            else continue (Finding found) p1
          else navigate (navError (Some msgMissingInput)) p
      | None => navigate (navError (Some msgMissingInput)) p
      end
  | ContactChange index =>
      match nav_contacts n !! index with
      | Some contact =>
          if hasEmail contact then
            let prev := nav_selectedContacts n in
            let email := emailOf contact in
            navigate (navSelectedContacts
                        (if decide (email ∈ prev)
                         then prev ∖ {[email]} else prev ∪ {[email]})) p
          else p
      | None => p
      end
  | GenerateEmails replies =>
      match nav_resumeData n with
      | Some resume =>
          if nonEmpty (nav_purpose n)
             && negb (size (nav_selectedContacts n) =? 0)%nat then
            let n1 := navError None (navIsGeneratingEmails true n) in
            let contactsToEmail := navContactsToEmail n in
            let '(emailPromises, w1) :=
              draftAll contactsToEmail (nav_purpose n) resume replies 0
                (logged (asked p)) in
            let p1 := {| shown := n1; asked := requests w1; waiting := waiting p |} in
            if emailPromptOk resume && (0 <? length contactsToEmail)%nat
            then await (Drafting emailPromises) p1
            else continue (Drafting emailPromises) p1
          else navigate (navError (Some msgGenerateGuard)) p
      | None => navigate (navError (Some msgGenerateGuard)) p
      end
  | Back =>
      match nav_currentStep n with
      | Review => navigate (navCurrentStep Select) p
      | Select => navigate (navCurrentStep Input) p
      | Input => p
      end
  | EmailChange _ _ | SendAll _ | ClearHistory _
  | ToggleView | ShowApp | ToggleDarkMode => p
  end.

(** What handler [k] of the waiting ones waits for is there. *)
Definition wake (k : nat) (p : Session) : Session :=
  match waiting p !! k with
  | Some wt =>
      continue wt {| shown := shown p; asked := asked p;
                     waiting := delete k (waiting p) |}
  | None => p
  end.

(** What happens to the page: the user acts, or a wait is over. *)
Inductive input : Type :=
| Do (ev : event)
| Wake (k : nat).

Definition turn (i : input) (p : Session) : Session :=
  match i with
  | Do ev => press ev p
  | Wake k => wake k p
  end.

(** The session after a sequence of inputs, the first of the list first. *)
Definition session (inputs : list input) (p : Session) : Session :=
  fold_left (fun acc i => turn i acc) inputs p.

End Sessions.

(** The session at the first render: nothing asked, nobody waiting. *)
Definition firstRender (w : World) (dark : bool) : Session :=
  {| shown := nav (initialState w dark); asked := []; waiting := [] |}.

(** The selection holds only addresses of contacts that have one. *)
Definition navSelectionInv (n : Nav) : Prop :=
  forall e, e ∈ nav_selectedContacts n ->
    exists p, p ∈ nav_contacts n /\ contact_email p = Some e /\ e <> [].

(** A request was made with what its handler checks for: a file with data,
    a university and a department, a purpose and a contact with an
    address. *)
Definition complete (r : request) : Prop :=
  match r with
  | ReqParseResume file => file_data file <> []
  | ReqFindContacts university department _ => university <> [] /\ department <> []
  | ReqDraftEmail contact purpose _ => purpose <> [] /\ hasEmail contact = true
  end.

Definition isDiscovery (r : request) : bool :=
  match r with ReqFindContacts _ _ _ => true | _ => false end.

Definition isDraft (r : request) : bool :=
  match r with ReqDraftEmail _ _ _ => true | _ => false end.

Definition discovered (asked : list request) : Prop :=
  Exists (fun r => isDiscovery r = true) asked.

Definition drafted (asked : list request) : Prop :=
  Exists (fun r => isDraft r = true) asked.

(** The request a waiting handler waits for has been made. *)
Definition backed (asked : list request) (wt : wait) : Prop :=
  match wt with
  | Finding _ => discovered asked
  | Drafting _ => drafted asked
  | Reading _ _ | Parsing _ => True
  end.

(** What holds of a session at every moment. *)
Definition sessionInv (p : Session) : Prop :=
  navSelectionInv (shown p)
  /\ Forall complete (asked p)
  /\ (nav_currentStep (shown p) <> Input -> discovered (asked p))
  /\ (nav_currentStep (shown p) = Review -> drafted (asked p))
  /\ (nav_contacts (shown p) <> [] -> discovered (asked p))
  /\ (drafted (asked p) -> discovered (asked p))
  /\ Forall (backed (asked p)) (waiting p).

(** [b] is the record [a] later in a session on the page: the same record
    if [a] was sent. *)
Definition frozen (a b : Email) : Prop :=
  email_to b = email_to a /\ email_subject b = email_subject a
  /\ (email_sent a = true -> b = a).

(** ** The step indicator (components/StepIndicator.tsx) *)

Inductive ItemLook : Type := Completed | Active | Upcoming.

(** [StepItem]: the circle is filled and shows a check mark when the step
    is completed, is ringed when it is the current one, is grey otherwise. *)
Definition StepItem (step currentStep : Z) : ItemLook :=
  let isActive := currentStep =? step in
  let isCompleted := currentStep >? step in
  if isCompleted then Completed else if isActive then Active else Upcoming.

Definition indicatorSteps : list Z := [1; 2; 3].

(** [StepIndicator]: the items, and for each item but the last whether the
    bar after it is coloured. *)
Definition StepIndicator (currentStep : Step) : list ItemLook * list bool :=
  (map (fun number => StepItem number (stepNumber currentStep)) indicatorSteps,
   map (fun number => stepNumber currentStep >? number)
       (take (length indicatorSteps - 1) indicatorSteps)).
(** * Properties *)

(** ** Evaluation of [cleanJsonString] *)

Example cleanJsonString_fenced :
  cleanJsonString (jsq "```json|[{'name': 'A'}]|```") = jsq "[{'name': 'A'}]".
Proof. reflexivity. Qed.

Example cleanJsonString_commentary :
  cleanJsonString (jsq "Here you go: {'a': [1, 2]} Hope it helps.")
  = jsq "{'a': [1, 2]}".
Proof. reflexivity. Qed.

Example cleanJsonString_plain :
  cleanJsonString (js "  no json here  ") = js "no json here".
Proof. reflexivity. Qed.

(** ** Evaluation of the reference runtime *)

Example parse_object :
  RefJSON.parse (jsq " {'a': [1, -2.50e1, true, null], 'b': 'x\ny'} ")
  = Some (JObj [(js "a", JArr [JNum false 1 0; JNum false (-250) (-1);
                              JBool true; JNull]);
                (js "b", JStr [120; 10; 121]%N)]).
Proof. vm_compute. reflexivity. Qed.

Example parse_rejects :
  map RefJSON.parse
    [js ""; js "nul"; js "[1,]"; js "{,}"; jsq "{'a' 1}"; js "01"; js "1.";
     js "[1] x"; jsq "'abc"; js "tru"; js "-"; js "[1 2]"; js "{a:1}"]
  = repeat None 13.
Proof. vm_compute. reflexivity. Qed.

Example parse_scalars :
  map RefJSON.parse [js "null"; js " true"; js "0"; js "0.0"; js "1e-400";
                     jsq "''"; jsq "'A\\'"; js "[]"; js "{ }"]
  = [Some JNull; Some (JBool true); Some (JNum true 0 0);
     Some (JNum true 0 (-1)); Some (JNum true 1 (-400));
     Some (JStr []); Some (JStr [65; 92]%N); Some (JArr []); Some (JObj [])].
Proof. vm_compute. reflexivity. Qed.

Example encode_examples :
  map RefURI.encode [js "Hello, World!"; [233]%N; [55357; 56832]%N; [55357]%N]
  = [Some (js "Hello%2C%20World!"); Some (js "%C3%A9");
     Some (js "%F0%9F%98%80"); None].
Proof. vm_compute. reflexivity. Qed.

(** ** [cleanJsonString] *)

Section Search.

Lemma indexOfFrom_findFirst c s i :
  indexOfFrom c s i =
  match findFirst (charIs c) s with
  | Some k => i + Z.of_nat k
  | None => -1
  end.
Proof.
  revert i; induction s as [|x r IH]; intros i; simpl; [done|].
  unfold charIs at 1. destruct (x =? c)%N; [lia|].
  rewrite IH. destruct (findFirst _ r); simpl; lia.
Qed.

Lemma lastIndexOfFrom_findLast c s i acc :
  lastIndexOfFrom c s i acc =
  match findLast (charIs c) s with
  | Some k => i + Z.of_nat k
  | None => acc
  end.
Proof.
  revert i acc; induction s as [|x r IH]; intros i acc; simpl; [done|].
  rewrite IH. destruct (findLast _ r); [lia|].
  unfold charIs. destruct (x =? c)%N; lia.
Qed.

Lemma findFirst_orb p q s :
  findFirst (fun c => p c || q c) s =
  match findFirst p s, findFirst q s with
  | Some a, Some b => Some (Nat.min a b)
  | Some a, None => Some a
  | None, r => r
  end.
Proof.
  induction s as [|x r IH]; simpl; [done|].
  rewrite IH.
  destruct (p x), (q x); simpl; try done;
    destruct (findFirst p r), (findFirst q r); simpl; done.
Qed.

Lemma findLast_orb p q s :
  findLast (fun c => p c || q c) s =
  match findLast p s, findLast q s with
  | Some a, Some b => Some (Nat.max a b)
  | Some a, None => Some a
  | None, r => r
  end.
Proof.
  induction s as [|x r IH]; simpl; [done|].
  rewrite IH.
  destruct (findLast p r), (findLast q r); simpl; try done;
    destruct (p x), (q x); simpl; done.
Qed.

Lemma findFirst_lt p s i : findFirst p s = Some i -> (i < length s)%nat.
Proof.
  revert i; induction s as [|x r IH]; intros i; simpl; [done|].
  destruct (p x); [intros [= <-]; lia|].
  destruct (findFirst p r) as [k|]; simpl; [|done].
  intros [= <-]. specialize (IH k eq_refl). lia.
Qed.

Lemma findLast_lt p s j : findLast p s = Some j -> (j < length s)%nat.
Proof.
  revert j; induction s as [|x r IH]; intros j; simpl; [done|].
  destruct (findLast p r) as [k|].
  - intros [= <-]. specialize (IH k eq_refl). lia.
  - destruct (p x); [intros [= <-]; lia|done].
Qed.

Lemma findFirst_none p s :
  Forall (fun c => p c = false) s -> findFirst p s = None.
Proof.
  induction 1 as [|x r Hx _ IH]; simpl; [done|]. by rewrite Hx, IH.
Qed.

Lemma findFirst_app p pre x r :
  Forall (fun c => p c = false) pre -> p x = true ->
  findFirst p (pre ++ x :: r) = Some (length pre).
Proof.
  intros Hpre Hx. induction Hpre as [|y pre Hy _ IH]; simpl.
  - by rewrite Hx.
  - by rewrite Hy, IH.
Qed.

Lemma findLast_app p pre x post :
  Forall (fun c => p c = false) post -> p x = true ->
  findLast p (pre ++ x :: post) = Some (length pre).
Proof.
  intros Hpost Hx.
  assert (Hnone : findLast p post = None).
  { clear Hx. induction Hpost as [|y post Hy _ IH]; simpl; [done|].
    by rewrite IH, Hy. }
  induction pre as [|y pre IH]; simpl.
  - by rewrite Hnone, Hx.
  - by rewrite IH.
Qed.

End Search.

(** The code computes the extraction of the specification. *)
Lemma cleanJsonString_extract s :
  cleanJsonString s = extract (trim (replaceFences s)).
Proof.
  unfold cleanJsonString, extract, indexOf, lastIndexOf.
  set (cleaned := trim (replaceFences s)).
  rewrite !indexOfFrom_findFirst, !lastIndexOfFrom_findLast.
  unfold isOpening, isClosing.
  rewrite (findFirst_orb (charIs 91%N) (charIs 123%N)).
  rewrite (findLast_orb (charIs 93%N) (charIs 125%N)).
  unfold chLBracket, chLBrace, chRBracket, chRBrace.
  pose proof (findLast_lt (charIs 93%N) cleaned) as L1.
  pose proof (findLast_lt (charIs 125%N) cleaned) as L2.
  assert (Hsub : forall i j : nat, (i <= j)%nat -> (j < length cleaned)%nat ->
     substring (Z.of_nat i) (Z.of_nat j + 1) cleaned
     = take (S j - i) (drop i cleaned)).
  { intros i j Hij Hj. unfold substring.
    replace (Z.min (Z.max (Z.of_nat i) 0) (Z.of_nat (length cleaned)))
      with (Z.of_nat i) by lia.
    replace (Z.min (Z.max (Z.of_nat j + 1) 0) (Z.of_nat (length cleaned)))
      with (Z.of_nat (S j)) by lia.
    replace (Z.min (Z.of_nat i) (Z.of_nat (S j))) with (Z.of_nat i) by lia.
    replace (Z.max (Z.of_nat i) (Z.of_nat (S j))) with (Z.of_nat (S j)) by lia.
    rewrite Nat2Z.id. f_equal. lia. }
  assert (Hne : forall k : nat, (0 + Z.of_nat k =? -1) = false)
    by (intros k; apply Z.eqb_neq; lia).
  destruct (findFirst (charIs 91%N) cleaned) as [a|],
           (findFirst (charIs 123%N) cleaned) as [b|];
  destruct (findLast (charIs 93%N) cleaned) as [c|],
           (findLast (charIs 125%N) cleaned) as [d|];
  try specialize (L1 _ eq_refl); try specialize (L2 _ eq_refl);
  rewrite ?Hne; simpl;
  repeat match goal with
    | |- context [Z.eqb ?x ?y] => destruct (Z.eqb_spec x y); try lia
    end; simpl; try done;
  repeat match goal with
    | |- context [Z.ltb ?x ?y] => destruct (Z.ltb_spec x y)
    | |- context [Nat.ltb ?x ?y] => destruct (Nat.ltb_spec x y)
    end; simpl; try done; try (exfalso; lia);
  match goal with
  | |- substring ?x (?y + 1) _ = take (S ?j - ?i) _ =>
      replace x with (Z.of_nat i) by lia;
      replace y with (Z.of_nat j) by lia;
      apply Hsub; lia
  end.
Qed.

Lemma wrapped_rev P Q J s : wrapped P Q J s -> wrapped Q P (rev J) (rev s).
Proof.
  intros (pre & post & -> & Hpre & Hpost).
  exists (rev post), (rev pre). rewrite !rev_app_distr, <- app_assoc.
  split; [done|]. split; apply Forall_rev; done.
Qed.

Lemma wrapped_rev_inv P Q J s : wrapped Q P (rev J) (rev s) -> wrapped P Q J s.
Proof.
  intros H. apply wrapped_rev in H.
  by rewrite !rev_involutive in H.
Qed.

(** Dropping a run of characters stops at the first character of [J] at
    the latest. *)
Lemma dropWhile_wrapped P Q p x J s :
  p x = false -> wrapped P Q (x :: J) s -> wrapped P Q (x :: J) (dropWhile p s).
Proof.
  intros Hx (pre & post & -> & Hpre & Hpost).
  induction Hpre as [|y pre Hy Hpre IH]; simpl.
  - rewrite Hx. by exists [], post.
  - destruct (p y); [apply IH|].
    exists (y :: pre), post. repeat split; [by constructor|done].
Qed.

(** A prefix made of characters that [J] cannot start with lies before [J]. *)
Lemma stripPrefix_wrapped P Q pfx x J s t :
  P x = true -> Forall (fun c => P c = false) pfx ->
  stripPrefix pfx s = Some t ->
  wrapped P Q (x :: J) s -> wrapped P Q (x :: J) t.
Proof.
  intros Hx Hpfx. revert s.
  induction Hpfx as [|a pfx Ha _ IH]; intros s Hs Hw; simpl in Hs.
  - by destruct s; injection Hs as <-.
  - destruct s as [|b s]; [done|].
    destruct (N.eqb_spec a b) as [<-|]; [|done].
    apply (IH s Hs).
    destruct Hw as (pre & post & Heq & Hpre & Hpost).
    destruct pre as [|y pre]; simpl in Heq.
    + injection Heq as -> _. congruence.
    + injection Heq as -> ->. apply Forall_cons in Hpre as [_ Hpre].
      by exists pre, post.
Qed.

Lemma isOpening_inv o : isOpening o = true -> o = 91%N \/ o = 123%N.
Proof.
  unfold isOpening, charIs. intros [H|H]%orb_true_iff; apply N.eqb_eq in H; auto.
Qed.

Lemma isClosing_inv c : isClosing c = true -> c = 93%N \/ c = 125%N.
Proof.
  unfold isClosing, charIs. intros [H|H]%orb_true_iff; apply N.eqb_eq in H; auto.
Qed.

Lemma stripSuffix_wrapped J c s t :
  isClosing c = true ->
  stripSuffix fenceClose s = Some t ->
  wrapped isOpening isClosing (J ++ [c]) s ->
  wrapped isOpening isClosing (J ++ [c]) t.
Proof.
  unfold stripSuffix. intros Hc Hs Hw.
  destruct (stripPrefix (rev fenceClose) (rev s)) as [r|] eqn:E; [|done].
  injection Hs as <-. apply wrapped_rev_inv. rewrite rev_involutive.
  apply wrapped_rev in Hw. rewrite rev_app_distr in Hw |- *. simpl in Hw |- *.
  eapply stripPrefix_wrapped; [exact Hc| |exact E|exact Hw].
  repeat constructor.
Qed.

Lemma replaceFences_wrapped o mid c s :
  isOpening o = true -> isClosing c = true ->
  wrapped isOpening isClosing (o :: mid ++ [c]) s ->
  wrapped isOpening isClosing (o :: mid ++ [c]) (replaceFences s).
Proof.
  intros Ho Hc Hw. unfold replaceFences.
  set (r := match stripPrefix fenceOpen s with
            | Some t => dropWhile isWhiteSpace t
            | None => s
            end).
  assert (Hr : wrapped isOpening isClosing (o :: mid ++ [c]) r).
  { subst r. destruct (stripPrefix fenceOpen s) as [t|] eqn:E; [|done].
    apply dropWhile_wrapped.
    - by destruct (isOpening_inv o Ho) as [-> | ->].
    - eapply stripPrefix_wrapped; [exact Ho| |exact E|exact Hw].
      repeat constructor. }
  destruct (stripSuffix fenceClose r) as [t|] eqn:E; [|done].
  change (o :: mid ++ [c]) with ((o :: mid) ++ [c]) in *.
  by eapply stripSuffix_wrapped.
Qed.

Lemma trim_wrapped o mid c s :
  isOpening o = true -> isClosing c = true ->
  wrapped isOpening isClosing (o :: mid ++ [c]) s ->
  wrapped isOpening isClosing (o :: mid ++ [c]) (trim s).
Proof.
  intros Ho Hc Hw. unfold trim.
  assert (E : rev (o :: mid ++ [c]) = c :: rev (o :: mid)).
  { change (o :: mid ++ [c]) with ((o :: mid) ++ [c]). by rewrite rev_app_distr. }
  apply wrapped_rev_inv. rewrite rev_involutive, E.
  apply dropWhile_wrapped.
  { by destruct (isClosing_inv c Hc) as [-> | ->]. }
  rewrite <- E. apply wrapped_rev.
  apply dropWhile_wrapped; [|done].
  by destruct (isOpening_inv o Ho) as [-> | ->].
Qed.

Lemma extract_wrapped J s :
  delimited J -> wrapped isOpening isClosing J s -> extract s = J.
Proof.
  intros (o & mid & c & -> & Ho & Hc) (pre & post & -> & Hpre & Hpost).
  assert (E1 : pre ++ (o :: mid ++ [c]) ++ post = pre ++ o :: (mid ++ c :: post)).
  { simpl. by rewrite <- app_assoc. }
  assert (E2 : pre ++ o :: (mid ++ c :: post) = (pre ++ o :: mid) ++ c :: post).
  { by rewrite <- app_assoc. }
  unfold extract. rewrite E1 at 1. rewrite findFirst_app by done.
  rewrite E1, E2 at 1. rewrite findLast_app by done.
  rewrite length_app. simpl length.
  destruct (Nat.ltb_spec (length pre + S (length mid)) (length pre)); [lia|].
  rewrite drop_app_length.
  replace (S (length pre + S (length mid)) - length pre)%nat
    with (length (o :: mid ++ [c]))
    by (simpl; rewrite length_app; simpl; lia).
  by rewrite take_app_length.
Qed.

(** Characters are only removed, never added. *)
Lemma dropWhile_Forall {A} (p : A -> bool) (R : A -> Prop) l :
  Forall R l -> Forall R (dropWhile p l).
Proof.
  induction 1 as [|x l Hx Hl IH]; simpl; [done|].
  destruct (p x); [done|by constructor].
Qed.

Lemma stripPrefix_Forall (R : N -> Prop) pfx s t :
  stripPrefix pfx s = Some t -> Forall R s -> Forall R t.
Proof.
  revert s; induction pfx as [|a pfx IH]; intros s Hs Hall; simpl in Hs.
  - by destruct s; injection Hs as <-.
  - destruct s as [|b s]; [done|]. destruct (a =? b)%N; [|done].
    apply Forall_cons in Hall as [_ Hall]. by apply (IH s).
Qed.

Lemma replaceFences_Forall (R : N -> Prop) s :
  Forall R s -> Forall R (replaceFences s).
Proof.
  intros Hs. unfold replaceFences.
  set (r := match stripPrefix fenceOpen s with
            | Some t => dropWhile isWhiteSpace t
            | None => s
            end).
  assert (Hr : Forall R r).
  { subst r. destruct (stripPrefix fenceOpen s) as [t|] eqn:E; [|done].
    apply dropWhile_Forall. by eapply stripPrefix_Forall. }
  unfold stripSuffix.
  destruct (stripPrefix (rev fenceClose) (rev r)) as [t|] eqn:E; [|done].
  apply Forall_rev. eapply stripPrefix_Forall; [exact E|]. by apply Forall_rev.
Qed.

Lemma trim_Forall (R : N -> Prop) s : Forall R s -> Forall R (trim s).
Proof.
  intros Hs. unfold trim.
  apply Forall_rev, dropWhile_Forall, Forall_rev, dropWhile_Forall, Hs.
Qed.

Lemma replaceFences_unfenced s :
  stripPrefix fenceOpen s = None -> stripSuffix fenceClose s = None ->
  replaceFences s = s.
Proof. intros H1 H2. unfold replaceFences. by rewrite H1, H2. Qed.

Lemma cleanJsonString_no_opening s :
  Forall (fun c => isOpening c = false) s ->
  cleanJsonString s = trim (replaceFences s).
Proof.
  intros Hs. rewrite cleanJsonString_extract. unfold extract.
  rewrite findFirst_none; [done|].
  by apply trim_Forall, replaceFences_Forall.
Qed.

Lemma isBracket_false c :
  isBracket c = false -> isOpening c = false /\ isClosing c = false.
Proof. unfold isBracket. by intros H%orb_false_iff. Qed.

(** A decision procedure for the side conditions on concrete texts. *)
Lemma Forall_false_forallb (f : N -> bool) (l : jsstring) :
  forallb (fun c => negb (f c)) l = true -> Forall (fun c => f c = false) l.
Proof.
  induction l as [|x l IH]; simpl; [constructor|].
  intros [Hx Hl]%andb_true_iff. constructor; [by destruct (f x)|by apply IH].
Qed.

(** C1, as the code has it.  For every response text [s]:
    (1) the code returns the extraction of the specification (the text
        from the first opening bracket or brace to the last closing one)
        applied to the text without its fences, trimmed;
    (2) when [s] is a JSON array or object text [J] (any text that opens
        with a bracket or brace and closes with one) wrapped in commentary
        and fences (text before it with no opening bracket or brace, text
        after it with no closing one), the code returns [J] itself, so the
        result parses to what [J] parses to;
    (3) when [s] holds no bracket character at all, the code returns the
        text without its fences, trimmed;
    (4) which is the trimmed original text when [s] neither starts with
        the fence [```json] nor ends with the fence [```]. *)
Theorem cleanJsonString_spec {rt : Runtime} (s : jsstring) :
  cleanJsonString s = extract (trim (replaceFences s))
  /\ (forall J, delimited J -> wrapped isOpening isClosing J s ->
        cleanJsonString s = J /\ JSON_parse (cleanJsonString s) = JSON_parse J)
  /\ (Forall (fun c => isBracket c = false) s ->
        cleanJsonString s = trim (replaceFences s))
  /\ (Forall (fun c => isBracket c = false) s ->
      stripPrefix fenceOpen s = None -> stripSuffix fenceClose s = None ->
        cleanJsonString s = trim s).
Proof.
  assert (Hnb : Forall (fun c => isBracket c = false) s ->
                cleanJsonString s = trim (replaceFences s)).
  { intros Hs. apply cleanJsonString_no_opening.
    eapply Forall_impl; [exact Hs|]. intros c Hc. by apply isBracket_false. }
  split; [apply cleanJsonString_extract|]. split; [|split; [exact Hnb|]].
  - intros J HJ Hw.
    assert (E : cleanJsonString s = J); [|by rewrite E].
    rewrite cleanJsonString_extract. apply extract_wrapped; [done|].
    destruct HJ as (o & mid & c & -> & Ho & Hc).
    by apply trim_wrapped, replaceFences_wrapped.
  - intros Hs H1 H2. rewrite Hnb by done. by rewrite replaceFences_unfenced.
Qed.

(** The theorem at a fenced array with commentary around it, and at a
    plain sentence. *)
Lemma cleanJsonString_spec_witness :
  cleanJsonString (jsq "Sure! ```json|[{'name': 'Ada'}]|``` Done.")
    = jsq "[{'name': 'Ada'}]"
  /\ cleanJsonString (js "  I found nothing.  ") = js "I found nothing.".
Proof.
  split.
  - destruct (cleanJsonString_spec
                (jsq "Sure! ```json|[{'name': 'Ada'}]|``` Done."))
      as (_ & Hwrapped & _).
    apply Hwrapped.
    + exists 91%N, (jsq "{'name': 'Ada'}"), 93%N. by vm_compute.
    + exists (jsq "Sure! ```json|"), (jsq "|``` Done.").
      split; [by vm_compute|].
      split; apply Forall_false_forallb; reflexivity.
  - destruct (cleanJsonString_spec (js "  I found nothing.  "))
      as (_ & _ & _ & Hplain).
    apply Hplain; try reflexivity.
    apply Forall_false_forallb; reflexivity.
Defined.

(** C1 as stated fails on a fenced text without brackets: the fences go,
    so the result is not the trimmed original. *)
Lemma cleanJsonString_trimmed_original_counterexample :
  let s := jsq "```json|No contacts were found.|```" in
  Forall (fun c => isBracket c = false) s
  /\ cleanJsonString s = js "No contacts were found."
  /\ trim s = s
  /\ cleanJsonString s <> trim s.
Proof.
  split; [|by vm_compute].
  apply Forall_false_forallb; reflexivity.
Qed.

(** ** The AI gateway *)

Section GatewayFacts.
Context {rt : Runtime}.

Lemma getProp_field k v : v <> JNull -> getProp k v = Ok (field k v).
Proof. by destruct v. Qed.

Lemma parseResume_try_ok resume text v :
  JSON_parse (cleanJsonString text) = Some v -> v <> JNull ->
  parseResume_try resume text =
  Ok {| resume_name := file_name resume;
        resume_mimeType := file_mimeType resume;
        resume_data := file_data resume;
        resume_skills := orElse (field (js "skills") v) (JArr []);
        resume_educationLevel :=
          orElse (field (js "educationLevel") v) (JStr (js "Not found"));
        resume_projects := orElse (field (js "projects") v) (JArr []) |}.
Proof.
  intros Hp Hv. unfold parseResume_try, parseJSON. rewrite Hp. simpl.
  unfold mbind, result_bind. simpl. rewrite !getProp_field by done. done.
Qed.

Lemma parseResume_try_isOk resume text :
  isOk (parseResume_try resume text) = parsesToNonNull text.
Proof.
  unfold parsesToNonNull.
  destruct (JSON_parse (cleanJsonString text)) as [v|] eqn:Hp.
  - destruct v; try (by rewrite (parseResume_try_ok resume text _ Hp)).
    unfold parseResume_try, parseJSON. by rewrite Hp.
  - unfold parseResume_try, parseJSON. by rewrite Hp.
Qed.

Lemma isOk_translate {A} msg (r : result A) : isOk (translate msg r) = isOk r.
Proof. by destruct r. Qed.

Lemma translate_err {A} msg (r : result A) :
  isOk r = false -> translate msg r = Err (Error msg).
Proof. by destruct r. Qed.

Lemma translate_ok {A} msg (r : result A) a : r = Ok a -> translate msg r = Ok a.
Proof. by intros ->. Qed.

(** Every error of the building of a prompt is a [TypeError]. *)
Lemma ToString_err v e : ToString v = Err e -> e = TypeError.
Proof. unfold ToString. destruct (stringifies v); congruence. Qed.

Lemma join_err v e : join v = Err e -> e = TypeError.
Proof.
  unfold join. destruct v; try congruence.
  destruct (forallb stringifies items); congruence.
Qed.

Lemma first_err v e : first v = Err e -> e = TypeError.
Proof. unfold first. destruct v; try congruence; apply ToString_err. Qed.

Lemma contactsPrompt_err resume :
  contactsPromptOk resume = false -> contactsPrompt resume = Err TypeError.
Proof.
  unfold contactsPromptOk, contactsPrompt, mbind, result_bind, bind.
  destruct (join (resume_skills resume)) as [[]|e1] eqn:E1.
  - destruct (ToString (resume_educationLevel resume)) as [[]|e2] eqn:E2.
    + destruct (join (resume_projects resume)) as [[]|e3] eqn:E3; [done|].
      by rewrite (join_err _ _ E3).
    + by rewrite (ToString_err _ _ E2).
  - by rewrite (join_err _ _ E1).
Qed.

Lemma emailPrompt_err resume :
  emailPromptOk resume = false -> emailPrompt resume = Err TypeError.
Proof.
  unfold emailPromptOk, emailPrompt, mbind, result_bind, bind.
  destruct (join (resume_skills resume)) as [[]|e1] eqn:E1.
  - destruct (ToString (resume_educationLevel resume)) as [[]|e2] eqn:E2.
    + destruct (first (resume_projects resume)) as [[]|e3] eqn:E3; [done|].
      by rewrite (first_err _ _ E3).
    + by rewrite (ToString_err _ _ E2).
  - by rewrite (join_err _ _ E1).
Qed.


End GatewayFacts.

(** *** [parseResume] *)

(** C6, as the code has it.  For every response text to resume
    extraction: [parseResume] throws exactly when the cleaned text is not
    parseable JSON or parses to [null], and what it throws then is the
    translation error; otherwise it returns a record with the name, type
    and data of the file, in which each extracted field is the field of the
    response when that is truthy and the default otherwise, so that a
    missing [skills] is the empty list, a missing [educationLevel] is the
    string [Not found] and a missing [projects] is the empty list. *)
Theorem parseResume_spec {rt : Runtime} (resume : RawFile) (text : jsstring)
    (w : World) :
  let outcome := fst (parseResume resume (Reply text) w) in
  isOk outcome = parsesToNonNull text
  /\ (isOk outcome = false -> outcome = Err (Error msgResume))
  /\ (forall v, JSON_parse (cleanJsonString text) = Some v -> v <> JNull ->
      exists r, outcome = Ok r
        /\ resume_name r = file_name resume
        /\ resume_mimeType r = file_mimeType resume
        /\ resume_data r = file_data resume
        /\ resume_skills r = orElse (field (js "skills") v) (JArr [])
        /\ resume_educationLevel r
           = orElse (field (js "educationLevel") v) (JStr (js "Not found"))
        /\ resume_projects r = orElse (field (js "projects") v) (JArr [])
        /\ (field (js "skills") v = None -> resume_skills r = JArr [])
        /\ (field (js "educationLevel") v = None ->
            resume_educationLevel r = JStr (js "Not found"))
        /\ (field (js "projects") v = None -> resume_projects r = JArr [])).
Proof.
  simpl. unfold parseResume. simpl. unfold mbind, result_bind. simpl.
  split; [|split].
  - by rewrite isOk_translate, parseResume_try_isOk.
  - rewrite isOk_translate. apply translate_err.
  - intros v Hp Hv. rewrite (parseResume_try_ok resume text v Hp Hv).
    eexists; split; [reflexivity|]. simpl.
    repeat split; try done; by intros ->.
Qed.

(** The theorem at a response that gives only the skills. *)
Lemma parseResume_spec_witness :
  exists r,
    fst (parseResume Sample.file (Reply (jsq "```json|{'skills': ['Rocq']}|```"))
           Sample.world) = Ok r
    /\ resume_skills r = JArr [JStr (js "Rocq")]
    /\ resume_educationLevel r = JStr (js "Not found")
    /\ resume_projects r = JArr [].
Proof.
  destruct (parseResume_spec Sample.file
              (jsq "```json|{'skills': ['Rocq']}|```") Sample.world)
    as (_ & _ & H).
  destruct (H (JObj [(js "skills", JArr [JStr (js "Rocq")])]))
    as (r & Hr & _ & _ & _ & Hs & _ & _ & _ & He & Hpr);
    [by vm_compute|done|].
  exists r. split; [exact Hr|]. split; [exact Hs|].
  split; [by apply He|by apply Hpr].
Defined.

(** C6 as stated fails on the response [null]: it is parseable JSON, and
    the operation throws all the same (the read of [.skills] on [null]). *)
Lemma parseResume_null_counterexample :
  JSON_parse (js "null") = Some JNull
  /\ cleanJsonString (js "null") = js "null"
  /\ fst (parseResume Sample.file (Reply (js "null")) Sample.world)
     = Err (Error msgResume).
Proof. by vm_compute. Qed.

(** *** [generateEmailForContact] *)

Section DraftFacts.
Context {rt : Runtime}.

Lemma generateEmailForContact_try_ok contact text v :
  JSON_parse (cleanJsonString text) = Some v -> v <> JNull ->
  generateEmailForContact_try contact text =
  Ok {| draft_to := contact_email contact;
        draft_subject := field (js "subject") v;
        draft_body := field (js "body") v |}.
Proof.
  intros Hp Hv. unfold generateEmailForContact_try, parseJSON. rewrite Hp.
  simpl. unfold mbind, result_bind. simpl. by rewrite !getProp_field.
Qed.

Lemma generateEmailForContact_try_isOk contact text :
  isOk (generateEmailForContact_try contact text) = parsesToNonNull text.
Proof.
  unfold parsesToNonNull.
  destruct (JSON_parse (cleanJsonString text)) as [v|] eqn:Hp.
  - destruct v; try (by rewrite (generateEmailForContact_try_ok contact text _ Hp)).
    unfold generateEmailForContact_try, parseJSON. by rewrite Hp.
  - unfold generateEmailForContact_try, parseJSON. by rewrite Hp.
Qed.

Lemma generateEmailForContact_reply contact purpose resume text w :
  emailPromptOk resume = true ->
  generateEmailForContact contact purpose resume (Reply text) w
  = (translate msgEmail (generateEmailForContact_try contact text),
     logRequest (ReqDraftEmail contact purpose resume) w).
Proof.
  unfold emailPromptOk, generateEmailForContact. intros H.
  by destruct (emailPrompt resume).
Qed.

Lemma generateEmailForContact_noPrompt contact purpose resume rep w :
  emailPromptOk resume = false ->
  generateEmailForContact contact purpose resume rep w = (Err TypeError, w).
Proof.
  intros H. unfold generateEmailForContact. by rewrite emailPrompt_err.
Qed.

End DraftFacts.

(** C2, as the code has it.  For every contact, purpose, resume and
    response text: the drafting operation succeeds exactly when its prompt
    can be built and the cleaned text parses to a value other than [null];
    when the prompt can be built, a failure is the translation error.  When
    it succeeds, the recipient of the record is the [email] field of the
    contact (its address, when it has one), and the subject and the body
    are the properties [subject] and [body] of the parsed value, which are
    [undefined] when the value has none. *)
Theorem generateEmailForContact_spec {rt : Runtime} (contact : Contact)
    (purpose : jsstring) (resume : ResumeData) (text : jsstring) (w : World) :
  let outcome :=
    fst (generateEmailForContact contact purpose resume (Reply text) w) in
  isOk outcome = emailPromptOk resume && parsesToNonNull text
  /\ (emailPromptOk resume = true -> isOk outcome = false ->
      outcome = Err (Error msgEmail))
  /\ (forall d, outcome = Ok d ->
      draft_to d = contact_email contact
      /\ (forall e, contact_email contact = Some e -> draft_to d = Some e)
      /\ exists v, JSON_parse (cleanJsonString text) = Some v
           /\ draft_subject d = field (js "subject") v
           /\ draft_body d = field (js "body") v).
Proof.
  simpl. destruct (emailPromptOk resume) eqn:Hprompt.
  - rewrite generateEmailForContact_reply by done. simpl.
    split; [|split].
    + by rewrite isOk_translate, generateEmailForContact_try_isOk.
    + intros _. rewrite isOk_translate. apply translate_err.
    + intros d Hd.
      assert (Hok : parsesToNonNull text = true).
      { rewrite <- (generateEmailForContact_try_isOk contact),
          <- (isOk_translate msgEmail). by rewrite Hd. }
      unfold parsesToNonNull in Hok.
      destruct (JSON_parse (cleanJsonString text)) as [v|] eqn:Hp; [|done].
      assert (Hv : v <> JNull) by (by intros ->).
      rewrite (generateEmailForContact_try_ok contact text v Hp Hv) in Hd.
      injection Hd as <-. simpl. split; [done|]. split; [by intros e ->|].
      by exists v.
  - rewrite generateEmailForContact_noPrompt by done. simpl.
    split; [done|]. split; [done|]. by intros d.
Qed.

(** The theorem at a well-formed response. *)
Lemma generateEmailForContact_spec_witness :
  exists d,
    fst (generateEmailForContact Sample.ada (js "ask for a position")
           Sample.resume (Reply (jsq "{'subject': 'Hello', 'body': 'Dear Ada'}"))
           Sample.world) = Ok d
    /\ draft_to d = Some (js "ada@uni.example")
    /\ draft_subject d = Some (JStr (js "Hello")).
Proof.
  destruct (generateEmailForContact_spec Sample.ada (js "ask for a position")
              Sample.resume (jsq "{'subject': 'Hello', 'body': 'Dear Ada'}")
              Sample.world) as (_ & _ & H).
  set (d := {| draft_to := Some (js "ada@uni.example");
               draft_subject := Some (JStr (js "Hello"));
               draft_body := Some (JStr (js "Dear Ada")) |}).
  assert (Hd : fst (generateEmailForContact Sample.ada (js "ask for a position")
                      Sample.resume
                      (Reply (jsq "{'subject': 'Hello', 'body': 'Dear Ada'}"))
                      Sample.world) = Ok d) by (by vm_compute).
  destruct (H d Hd) as (_ & Hto & _).
  exists d. split; [exact Hd|]. split; [by apply Hto|done].
Defined.

(** C2 as stated fails on the response [{}]: it parses to an object with
    neither a subject nor a body, and the operation returns a record whose
    subject and body are [undefined]. *)
Lemma generateEmailForContact_empty_object_counterexample :
  JSON_parse (cleanJsonString (js "{}")) = Some (JObj [])
  /\ field (js "subject") (JObj []) = None
  /\ field (js "body") (JObj []) = None
  /\ fst (generateEmailForContact Sample.ada (js "ask for a position")
            Sample.resume (Reply (js "{}")) Sample.world)
     = Ok {| draft_to := Some (js "ada@uni.example");
             draft_subject := None; draft_body := None |}.
Proof. by vm_compute. Qed.

(** *** [findContacts] *)

Section DiscoveryFacts.
Context {rt : Runtime}.

Lemma looksLikeContact_exposes item :
  looksLikeContact item = Ok true <-> exposes item = true.
Proof.
  unfold looksLikeContact, exposes, hasProp.
  destruct item as [| | | | |props]; simpl; try (split; done).
  unfold mbind, result_bind; simpl.
  destruct (ownProp (js "name") props); simpl; [|split; done].
  destruct (ownProp (js "title") props); simpl; [|split; done].
  destruct (ownProp (js "researchInterests") props); simpl; split; done.
Qed.

Lemma every_true items :
  forallb exposes items = true -> every looksLikeContact items = Ok true.
Proof.
  induction items as [|x r IH]; simpl; [done|].
  intros [Hx Hr]%andb_true_iff. apply looksLikeContact_exposes in Hx.
  rewrite Hx. simpl. by apply IH.
Qed.

Lemma every_not_true items :
  forallb exposes items = false -> every looksLikeContact items <> Ok true.
Proof.
  induction items as [|x r IH]; simpl; [done|].
  intros H. destruct (looksLikeContact x) as [[|]|e] eqn:E; simpl; try done.
  apply looksLikeContact_exposes in E. rewrite E in H. by apply IH.
Qed.

Lemma findContacts_try_exposed text items :
  JSON_parse (cleanJsonString text) = Some (JArr items) ->
  forallb exposes items = true ->
  findContacts_try text = Ok items.
Proof.
  intros Hp Hall. unfold findContacts_try, parseJSON. rewrite Hp. simpl.
  destruct items as [|x r]; [done|].
  change (0 <? length (x :: r))%nat with true. cbv iota.
  rewrite (every_true _ Hall). done.
Qed.

Lemma findContacts_try_unexposed text items :
  JSON_parse (cleanJsonString text) = Some (JArr items) ->
  forallb exposes items = false ->
  isOk (findContacts_try text) = false.
Proof.
  intros Hp Hall. unfold findContacts_try, parseJSON. rewrite Hp. simpl.
  destruct items as [|x r]; [done|].
  change (0 <? length (x :: r))%nat with true. cbv iota.
  pose proof (every_not_true _ Hall) as Hne.
  by destruct (every looksLikeContact (x :: r)) as [[|]|e].
Qed.

Lemma findContacts_try_not_array text :
  (forall items, JSON_parse (cleanJsonString text) <> Some (JArr items)) ->
  isOk (findContacts_try text) = false.
Proof.
  intros Hp. unfold findContacts_try, parseJSON.
  destruct (JSON_parse (cleanJsonString text)) as [v|]; [|done].
  destruct v; try done. by destruct (Hp items).
Qed.

Lemma findContacts_reply university department resume text w :
  contactsPromptOk resume = true ->
  findContacts university department resume (Reply text) w
  = (translate msgContacts (findContacts_try text),
     logRequest (ReqFindContacts university department resume) w).
Proof.
  unfold contactsPromptOk, findContacts. intros H.
  by destruct (contactsPrompt resume).
Qed.

Lemma forallb_false_Exists {A} (f : A -> bool) l :
  Exists (fun x => f x = false) l -> forallb f l = false.
Proof.
  induction 1 as [x l Hx|x l _ IH]; simpl.
  - by rewrite Hx.
  - rewrite IH. apply andb_false_r.
Qed.

End DiscoveryFacts.

Section WizardFacts.
Context {rt : Runtime}.

(** What a failed discovery leaves of the wizard. *)
Lemma handleFindContacts_failure rep s w resume :
  resumeData s = Some resume ->
  isOk (fst (findContacts (university s) (department s) resume rep w)) = false ->
  let s' := fst (handleFindContacts rep s w) in
  currentStep s' = currentStep s
  /\ contacts s' = contacts s
  /\ selectedContacts s' = selectedContacts s
  /\ emails s' = emails s
  /\ is_Some (error s').
Proof.
  intros Hres Hfail. unfold handleFindContacts. rewrite Hres.
  destruct (nonEmpty (university s) && nonEmpty (department s)).
  - destruct (findContacts _ _ _ _ _) as [[l|e] w1]; [done|].
    destruct s; simpl. by repeat split.
  - destruct s; simpl. by repeat split.
Qed.

End WizardFacts.

(** C5.  For every response text to contact discovery (the request being
    made, which takes a resume whose skills and projects are lists):
    a response that parses to the empty array gives the empty list, without
    error; a response that parses to an array whose elements all expose
    [name], [title] and [researchInterests] gives that array; a response
    that parses to a non-empty array in which some element does not expose
    the three fields is a hard failure, and so is a response that parses to
    something that is not an array or does not parse; a list that is
    returned has the three fields in every element; and on a failure of the
    discovery the wizard stays on the step it is on, with its contacts and
    its selection, and reports an error. *)
Theorem findContacts_spec {rt : Runtime} (uni dept : jsstring)
    (resume : ResumeData) (text : jsstring) (w : World) :
  contactsPromptOk resume = true ->
  let outcome := fst (findContacts uni dept resume (Reply text) w) in
  (JSON_parse (cleanJsonString text) = Some (JArr []) -> outcome = Ok [])
  /\ (forall items, JSON_parse (cleanJsonString text) = Some (JArr items) ->
      Forall (fun item => exposes item = true) items -> outcome = Ok items)
  /\ (forall items, JSON_parse (cleanJsonString text) = Some (JArr items) ->
      items <> [] -> Exists (fun item => exposes item = false) items ->
      outcome = Err (Error msgContacts))
  /\ ((forall items, JSON_parse (cleanJsonString text) <> Some (JArr items)) ->
      outcome = Err (Error msgContacts))
  /\ (forall items, outcome = Ok items ->
      JSON_parse (cleanJsonString text) = Some (JArr items)
      /\ Forall (fun item => exposes item = true) items)
  /\ (forall s rep w0, resumeData s = Some resume ->
      isOk (fst (findContacts (university s) (department s) resume rep w0)) = false ->
      let s' := fst (handleFindContacts rep s w0) in
      currentStep s' = currentStep s /\ contacts s' = contacts s
      /\ selectedContacts s' = selectedContacts s /\ is_Some (error s')).
Proof.
  intros Hprompt. simpl. rewrite findContacts_reply by done. simpl.
  assert (Hexp : forall items,
    JSON_parse (cleanJsonString text) = Some (JArr items) ->
    Forall (fun item => exposes item = true) items ->
    translate msgContacts (findContacts_try text) = Ok items).
  { intros items Hp Hall. apply translate_ok, findContacts_try_exposed; [done|].
    apply forallb_forall. intros x Hx. rewrite Forall_forall in Hall.
    apply Hall. by apply list_elem_of_In. }
  assert (Hback : forall items,
    translate msgContacts (findContacts_try text) = Ok items ->
    JSON_parse (cleanJsonString text) = Some (JArr items)
    /\ forallb exposes items = true).
  { intros items H.
    assert (Hok : isOk (findContacts_try text) = true)
      by (by rewrite <- (isOk_translate msgContacts), H).
    destruct (JSON_parse (cleanJsonString text)) as [v|] eqn:Hp.
    - destruct v as [| | | |l|];
        try (by rewrite findContacts_try_not_array in Hok; [|intros ?; rewrite Hp]).
      destruct (forallb exposes l) eqn:Hall.
      + rewrite (findContacts_try_exposed text l Hp Hall) in H.
        by injection H as <-.
      + by rewrite (findContacts_try_unexposed text l Hp Hall) in Hok.
    - by rewrite findContacts_try_not_array in Hok; [|intros ?; rewrite Hp]. }
  split_and!.
  - intros Hp. by apply Hexp.
  - exact Hexp.
  - intros items Hp _ Hex. apply translate_err.
    eapply findContacts_try_unexposed; [exact Hp|].
    by apply forallb_false_Exists.
  - intros Hp. by apply translate_err, findContacts_try_not_array.
  - intros items H. destruct (Hback items H) as [Hp Hall]. split; [done|].
    apply Forall_forall. intros x Hx. rewrite forallb_forall in Hall.
    apply Hall. by apply list_elem_of_In.
  - intros s rep w0 Hres Hfail.
    destruct (handleFindContacts_failure rep s w0 resume Hres Hfail)
      as (? & ? & ? & ? & ?).
    done.
Qed.

(** The theorem at an empty result and at a result with a broken element. *)
Lemma findContacts_spec_witness :
  fst (findContacts (js "MIT") (js "Logic") Sample.resume (Reply (js " [] "))
         Sample.world) = Ok []
  /\ fst (findContacts (js "MIT") (js "Logic") Sample.resume
            (Reply (jsq "[{'name': 'Ada', 'title': 'Professor'}]"))
            Sample.world) = Err (Error msgContacts).
Proof.
  split.
  - destruct (findContacts_spec (js "MIT") (js "Logic") Sample.resume
                (js " [] ") Sample.world eq_refl) as (Hempty & _).
    apply Hempty. by vm_compute.
  - destruct (findContacts_spec (js "MIT") (js "Logic") Sample.resume
                (jsq "[{'name': 'Ada', 'title': 'Professor'}]")
                Sample.world eq_refl) as (_ & _ & Hbroken & _).
    apply (Hbroken [JObj [(js "name", JStr (js "Ada"));
                          (js "title", JStr (js "Professor"))]]).
    + by vm_compute.
    + done.
    + by constructor.
Defined.

(** ** The wizard *)

(** *** Entering [Select] *)

(** C9.  When the resume facts are absent, or the university is empty, or
    the department is empty, [handleFindContacts] only reports an error:
    the state is the state before with the error message set, so the
    current step stays what it was ([Input], where the button is), and the
    world is unchanged, so no request went to the AI service. *)
Theorem handleFindContacts_precondition {rt : Runtime} (rep : reply)
    (s : AppState) (w : World) :
  resumeData s = None \/ university s = [] \/ department s = [] ->
  let s' := fst (handleFindContacts rep s w) in
  let w' := snd (handleFindContacts rep s w) in
  s' = setError (Some msgMissingInput) s
  /\ error s' = Some msgMissingInput
  /\ currentStep s' = currentStep s
  /\ (currentStep s = Input -> currentStep s' = Input)
  /\ w' = w
  /\ requests w' = requests w.
Proof.
  intros H. simpl.
  assert (E : handleFindContacts rep s w = (setError (Some msgMissingInput) s, w)).
  { unfold handleFindContacts.
    destruct (resumeData s) as [resume|]; [|done].
    destruct H as [H|[H|H]]; [done| |]; rewrite H; simpl; [done|].
    by rewrite andb_false_r. }
  rewrite E. simpl. destruct s; simpl. by split_and!.
Qed.

(** The theorem on the first render, where nothing has been entered. *)
Lemma handleFindContacts_precondition_witness :
  let s := initialState Sample.world false in
  currentStep (fst (handleFindContacts (Reply (js "[]")) s Sample.world)) = Input
  /\ requests (snd (handleFindContacts (Reply (js "[]")) s Sample.world)) = [].
Proof.
  destruct (handleFindContacts_precondition (Reply (js "[]"))
              (initialState Sample.world false) Sample.world)
    as (_ & _ & _ & Hstep & _ & Hreq); [by left|].
  split; [by apply Hstep|exact Hreq].
Defined.

(** *** Editing a body *)

Lemma changeBody_ok index newBody prev e :
  prev !! index = Some e ->
  changeBody index newBody prev =
  Ok (<[index := {| email_to := email_to e; email_subject := email_subject e;
                    email_body := newBody; email_sent := email_sent e |}]> prev).
Proof. unfold changeBody. by intros ->. Qed.

Lemma changeBody_sent index newBody prev next :
  changeBody index newBody prev = Ok next ->
  map email_sent next = map email_sent prev.
Proof.
  unfold changeBody. destruct (prev !! index) as [e|] eqn:E; [|done].
  intros [= <-]. apply list_eq. intros j.
  rewrite !list_lookup_fmap.
  destruct (decide (index = j)) as [<-|Hne].
  - rewrite list_lookup_insert_eq by (by eapply lookup_lt_Some). by rewrite E.
  - by rewrite list_lookup_insert_ne.
Qed.

(** C10.  For every state, every index [i] within the email list and every
    new body, [handleEmailChange] returns a state whose email list has the
    same length, whose email at [i] has the new body and the recipient,
    subject and sent flag it had, and whose emails at the other indices are
    the emails that were there; no other state variable changes. *)
Theorem handleEmailChange_frame (s : AppState) (i : nat) (newBody : jsstring) :
  (i < length (emails s))%nat ->
  exists s',
    handleEmailChange i newBody s = Ok s'
    /\ s' = setEmails (emails s') s
    /\ length (emails s') = length (emails s)
    /\ (exists e e', emails s !! i = Some e /\ emails s' !! i = Some e'
          /\ email_body e' = newBody
          /\ email_to e' = email_to e
          /\ email_subject e' = email_subject e
          /\ email_sent e' = email_sent e)
    /\ (forall j, j <> i -> emails s' !! j = emails s !! j).
Proof.
  intros Hi. destruct (lookup_lt_is_Some_2 _ _ Hi) as [e He].
  unfold handleEmailChange. rewrite (changeBody_ok _ _ _ _ He). simpl.
  eexists; split; [reflexivity|].
  destruct s; simpl in *. split_and!; try done.
  - by rewrite length_insert.
  - exists e. eexists. split; [done|].
    split; [by apply list_lookup_insert_eq|done].
  - intros j Hj. by apply list_lookup_insert_ne.
Qed.

(** The theorem on a list of two drafts, editing the second. *)
Lemma handleEmailChange_frame_witness :
  let e1 := {| email_to := js "a@x"; email_subject := js "S1";
               email_body := js "B1"; email_sent := true |} in
  let e2 := {| email_to := js "b@x"; email_subject := js "S2";
               email_body := js "B2"; email_sent := false |} in
  let s := setEmails [e1; e2] (initialState Sample.world false) in
  exists s', handleEmailChange 1 (js "Dear B") s = Ok s'
    /\ emails s' !! 0%nat = Some e1.
Proof.
  intros e1 e2 s.
  destruct (handleEmailChange_frame s 1 (js "Dear B")) as (s' & Hs' & _ & _ & _ & Hother);
    [simpl; lia|].
  exists s'. split; [exact Hs'|]. by rewrite Hother.
Defined.

(** *** Dispatch *)

Section DispatchFacts.
Context {rt : Runtime}.

Lemma sentCopy_sent e : email_sent e = true -> sentCopy e = e.
Proof. destruct e; simpl. by intros ->. Qed.

Lemma markSent_lookup i cur e :
  cur !! i = Some e -> markSent i cur = <[i := sentCopy e]> cur.
Proof. unfold markSent. by intros ->. Qed.

Lemma markSent_middle done e rest :
  markSent (length done) (map sentCopy done ++ e :: rest)
  = map sentCopy (done ++ [e]) ++ rest.
Proof.
  rewrite (markSent_lookup _ _ e).
  - rewrite map_app, <- app_assoc. simpl.
    replace (length done) with (length (map sentCopy done) + 0)%nat
      by (rewrite length_map; lia).
    by rewrite insert_app_r.
  - rewrite lookup_app_r by (by rewrite length_map).
    by rewrite length_map, Nat.sub_diag.
Qed.

Lemma unsent_cons_unsent e l :
  email_sent e = false -> unsent (e :: l) = e :: unsent l.
Proof. intros H. unfold unsent. by rewrite filter_cons_True. Qed.

Lemma unsent_cons_sent e l :
  email_sent e = true -> unsent (e :: l) = unsent l.
Proof.
  intros H. unfold unsent. rewrite filter_cons_False; [done|]. by rewrite H.
Qed.

(** The loop, when every link can be built: it runs to its end, marks
    every email, opens one window and makes one record per email that was
    still to be sent, in list order. *)
Lemma sendLoop_complete now rest :
  forall done entries w,
  Forall dispatchable rest ->
  exists new links,
    sendLoop rest (length done) now (map sentCopy done ++ rest) entries w
    = (Ok (entries ++ new), map sentCopy (done ++ rest),
       {| requests := requests w; windows := windows w ++ links;
          storage := storage w |})
    /\ Forall2 recordOf (unsent rest) new
    /\ Forall2 (fun e link => mailtoLink e = Ok link) (unsent rest) links.
Proof.
  induction rest as [|e rest IH]; intros done entries w Hall; simpl.
  - exists [], []. rewrite !app_nil_r. destruct w; simpl.
    split; [done|]. split; constructor.
  - apply Forall_cons in Hall as [He Hall].
    destruct (email_sent e) eqn:Hsent; simpl.
    + destruct (IH (done ++ [e]) entries w Hall) as (new & links & Hrun & Hnew & Hlinks).
      rewrite length_app, Nat.add_1_r in Hrun.
      rewrite map_app in Hrun. simpl in Hrun.
      rewrite sentCopy_sent, <- app_assoc in Hrun by done. simpl in Hrun.
      rewrite <- app_assoc in Hrun. simpl in Hrun.
      exists new, links. by rewrite unsent_cons_sent.
    + specialize (He Hsent). destruct (mailtoLink e) as [link|] eqn:Hlink; [|done].
      rewrite markSent_middle.
      set (entry := {| history_to := email_to e;
                       history_subject := email_subject e;
                       history_body := email_body e;
                       history_dateSent := now (length done) |}).
      destruct (IH (done ++ [e]) (entries ++ [entry]) (openWindow link w) Hall)
        as (new & links & Hrun & Hnew & Hlinks).
      rewrite length_app, Nat.add_1_r in Hrun. rewrite Hrun.
      exists (entry :: new), (link :: links).
      rewrite unsent_cons_unsent by done.
      split; [|split; constructor; done].
      simpl. rewrite <- !app_assoc. simpl. done.
Qed.

(** The loop runs to its end only if every link could be built. *)
Lemma sendLoop_ok_dispatchable now rest :
  forall i cur entries w all cur' w',
  sendLoop rest i now cur entries w = (Ok all, cur', w') ->
  Forall dispatchable rest.
Proof.
  induction rest as [|e rest IH]; intros i cur entries w all cur' w' Hrun;
    simpl in Hrun; [constructor|].
  destruct (email_sent e) eqn:Hsent; simpl in Hrun.
  - constructor; [|by eapply IH]. intros H. congruence.
  - destruct (mailtoLink e) as [link|] eqn:Hlink; [|done].
    constructor; [|by eapply IH]. intros _. by rewrite Hlink.
Qed.

Lemma laterOf_refl e : laterOf e e.
Proof. by repeat split. Qed.

Lemma laterOf_trans a b c : laterOf a b -> laterOf b c -> laterOf a c.
Proof.
  intros (? & ? & ?) (? & ? & ?). repeat split; try congruence. auto.
Qed.

Lemma Forall2_laterOf_refl l : Forall2 laterOf l l.
Proof. induction l; constructor; [apply laterOf_refl|done]. Qed.

Lemma Forall2_laterOf_trans l1 l2 l3 :
  Forall2 laterOf l1 l2 -> Forall2 laterOf l2 l3 -> Forall2 laterOf l1 l3.
Proof.
  intros H. revert l3. induction H as [|a b l1 l2 Hab _ IH]; intros l3 H23.
  - by inversion H23.
  - inversion H23 as [|? c ? l3' Hbc H23']; subst.
    constructor; [by eapply laterOf_trans|by apply IH].
Qed.

Lemma markSent_laterOf i cur :
  (i < length cur)%nat -> Forall2 laterOf cur (markSent i cur).
Proof.
  intros Hi. destruct (lookup_lt_is_Some_2 _ _ Hi) as [e He].
  rewrite (markSent_lookup _ _ _ He).
  apply Forall2_same_length_lookup_2; [by rewrite length_insert|].
  intros j a b Ha Hb.
  destruct (decide (i = j)) as [<-|Hne].
  - rewrite list_lookup_insert_eq in Hb by done.
    injection Hb as <-. rewrite He in Ha. injection Ha as <-. by repeat split.
  - rewrite list_lookup_insert_ne in Hb by done.
    rewrite Ha in Hb. injection Hb as <-. apply laterOf_refl.
Qed.

(** However the loop ends, it only marks emails: the list keeps its length
    and no record changes recipient or subject or loses its sent flag. *)
Lemma sendLoop_laterOf now rest :
  forall i cur entries w,
  (i + length rest <= length cur)%nat ->
  Forall2 laterOf cur (sendLoop rest i now cur entries w).1.2.
Proof.
  induction rest as [|e rest IH]; intros i cur entries w Hlen; simpl in *.
  - apply Forall2_laterOf_refl.
  - destruct (email_sent e); simpl.
    + apply IH. lia.
    + destruct (mailtoLink e) as [link|]; simpl; [|apply Forall2_laterOf_refl].
      eapply Forall2_laterOf_trans; [apply (markSent_laterOf i); lia|].
      apply IH.
      assert (length (markSent i cur) = length cur); [|lia].
      destruct (lookup_lt_is_Some_2 cur i) as [x Hx]; [lia|].
      by rewrite (markSent_lookup _ _ _ Hx), length_insert.
Qed.

(** The send loop of [handleSendAll] never writes past the end of the list. *)
Lemma sendLoop_length now l w :
  length (sendLoop l 0 now l [] w).1.2 = length l.
Proof.
  symmetry. eapply Forall2_length. apply sendLoop_laterOf. simpl. lia.
Qed.

Lemma handleSendAll_laterOf now s w :
  Forall2 laterOf (emails s) (emails (handleSendAll now s w).1.2).
Proof.
  unfold handleSendAll.
  pose proof (sendLoop_laterOf now (emails s) 0 (emails s) [] w) as H.
  destruct (sendLoop (emails s) 0 now (emails s) [] w) as [[outcome cur] w1].
  simpl in H. specialize (H (le_n _)).
  destruct outcome as [new|e]; [destruct (0 <? length new)%nat|];
    destruct s; simpl in *; exact H.
Qed.

End DispatchFacts.



(** *** The sent flag *)

Section FrameFacts.
Context {rt : Runtime}.

Lemma handleFileChange_frame file rep s w :
  let s' := (handleFileChange file rep s w).1 in
  emails s' = emails s /\ contacts s' = contacts s
  /\ selectedContacts s' = selectedContacts s.
Proof.
  destruct s. unfold handleFileChange. repeat case_match; simpl; done.
Qed.

Lemma handleBack_frame s :
  emails (handleBack s) = emails s /\ contacts (handleBack s) = contacts s
  /\ selectedContacts (handleBack s) = selectedContacts s.
Proof. destruct s. unfold handleBack. simpl. by case_match. Qed.

Lemma handleClearHistory_frame confirmed s w :
  let s' := (handleClearHistory confirmed s w).1 in
  emails s' = emails s /\ contacts s' = contacts s
  /\ selectedContacts s' = selectedContacts s.
Proof. destruct s, confirmed; done. Qed.

Lemma handleFindContacts_emails rep s w :
  emails (handleFindContacts rep s w).1 = emails s.
Proof.
  destruct s. unfold handleFindContacts. repeat case_match; simpl; done.
Qed.

Lemma onContactChange_frame contact s :
  emails (onContactChange contact s) = emails s
  /\ contacts (onContactChange contact s) = contacts s.
Proof.
  destruct s. unfold onContactChange, handleContactSelection.
  repeat case_match; simpl; done.
Qed.

Lemma handleSendAll_frame now s w :
  contacts (handleSendAll now s w).1.2 = contacts s
  /\ selectedContacts (handleSendAll now s w).1.2 = selectedContacts s.
Proof.
  destruct s. unfold handleSendAll. repeat case_match; simpl; done.
Qed.

Lemma handleEmailChange_others index newBody s s' :
  handleEmailChange index newBody s = Ok s' ->
  contacts s' = contacts s /\ selectedContacts s' = selectedContacts s.
Proof.
  unfold handleEmailChange. destruct (changeBody _ _ _); [|done].
  intros [= <-]. by destruct s.
Qed.

Lemma changeBody_laterOf index newBody prev next :
  changeBody index newBody prev = Ok next -> Forall2 laterOf prev next.
Proof.
  unfold changeBody. destruct (prev !! index) as [e|] eqn:E; [|done].
  intros [= <-].
  apply Forall2_same_length_lookup_2; [by rewrite length_insert|].
  intros j a b Ha Hb.
  destruct (decide (index = j)) as [<-|Hne].
  - rewrite list_lookup_insert_eq in Hb by (by eapply lookup_lt_Some).
    injection Hb as <-. rewrite E in Ha. injection Ha as <-. by repeat split.
  - rewrite list_lookup_insert_ne in Hb by done.
    rewrite Ha in Hb. injection Hb as <-. apply laterOf_refl.
Qed.

(** An event that does not draft a new batch keeps the records of the
    list, position by position. *)
Lemma step_laterOf ev s w :
  redrafts ev = false -> Forall2 laterOf (emails s) (emails (step ev (s, w)).1).
Proof.
  intros Hev.
  assert (Hsame : forall s', emails s' = emails s ->
                  Forall2 laterOf (emails s) (emails s')).
  { intros s' ->. apply Forall2_laterOf_refl. }
  destruct ev; simpl in *; try done; try (apply Hsame; by destruct s).
  - apply Hsame, handleFileChange_frame.
  - apply Hsame, handleFindContacts_emails.
  - destruct (contacts s !! index); simpl; [|by apply Hsame].
    apply Hsame, onContactChange_frame.
  - unfold handleEmailChange.
    destruct (changeBody index newBody (emails s)) as [next|] eqn:E; simpl.
    + apply changeBody_laterOf in E. by destruct s.
    + by apply Hsame.
  - pose proof (handleSendAll_laterOf now s w) as H.
    by destruct (handleSendAll now s w) as [[? ?] ?].
  - apply Hsame, handleClearHistory_frame.
  - apply Hsame, handleBack_frame.
Qed.

Lemma run_cons ev evs sw : run (ev :: evs) sw = run evs (step ev sw).
Proof. reflexivity. Qed.

Lemma run_laterOf evs : forall s w,
  Forall (fun ev => redrafts ev = false) evs ->
  Forall2 laterOf (emails s) (emails (run evs (s, w)).1).
Proof.
  induction evs as [|ev evs IH]; intros s w Hevs.
  - apply Forall2_laterOf_refl.
  - apply Forall_cons in Hevs as [Hev Hevs]. rewrite run_cons.
    pose proof (step_laterOf ev s w Hev) as H1.
    destruct (step ev (s, w)) as [s1 w1].
    eapply Forall2_laterOf_trans; [exact H1|]. by apply IH.
Qed.

End FrameFacts.

(** *** Drafting a batch *)

Section BatchFacts.
Context {rt : Runtime}.

Lemma promiseAll_ok {A} (l : list (result A)) :
  Forall (fun r => isOk r = true) l ->
  exists ds, promiseAll l = Ok ds /\ Forall2 (fun r d => r = Ok d) l ds.
Proof.
  induction 1 as [|r l Hr _ (ds & Hds & HF)].
  - exists []. split; [done|constructor].
  - destruct r as [d|]; [|done]. exists (d :: ds). simpl. rewrite Hds.
    split; [done|by constructor].
Qed.

Lemma promiseAll_err {A} (l : list (result A)) :
  Exists (fun r => isOk r = false) l -> isOk (promiseAll l) = false.
Proof.
  induction 1 as [r l Hr|r l _ IH]; simpl.
  - by destruct r.
  - destruct r; [|done]. by destruct (promiseAll l).
Qed.

Lemma generateEmailForContact_to contact purp resume rep w d :
  (generateEmailForContact contact purp resume rep w).1 = Ok d ->
  draft_to d = contact_email contact.
Proof.
  destruct (emailPromptOk resume) eqn:Hprompt.
  - destruct rep as [text|].
    + rewrite generateEmailForContact_reply by done. simpl.
      unfold generateEmailForContact_try.
      destruct (parseJSON (cleanJsonString text)) as [v|]; [|done]. simpl.
      destruct (getProp (js "subject") v); [|done]. simpl.
      destruct (getProp (js "body") v); [|done]. simpl. by intros [= <-].
    + unfold generateEmailForContact.
      by destruct (emailPrompt resume).
  - by rewrite generateEmailForContact_noPrompt.
Qed.

Lemma generateEmailForContact_requests contact purp resume rep w :
  requests (generateEmailForContact contact purp resume rep w).2
  = requests w ++ (if emailPromptOk resume
                   then [ReqDraftEmail contact purp resume] else []).
Proof.
  destruct (emailPromptOk resume) eqn:Hprompt.
  - unfold emailPromptOk in Hprompt. unfold generateEmailForContact.
    by destruct (emailPrompt resume).
  - rewrite generateEmailForContact_noPrompt by done.
    symmetry. apply app_nil_r.
Qed.

Lemma draftAll_to cs purp resume replies : forall i w,
  Forall2 (fun c r => forall d, r = Ok d -> draft_to d = contact_email c)
    cs (draftAll cs purp resume replies i w).1.
Proof.
  induction cs as [|c cs IH]; intros i w; simpl; [constructor|].
  pose proof (generateEmailForContact_to c purp resume (replies i) w) as Hc.
  destruct (generateEmailForContact c purp resume (replies i) w) as [r w1].
  specialize (IH (S i) w1).
  destruct (draftAll cs purp resume replies (S i) w1) as [rs w2]. simpl in *.
  constructor; [|done]. intros d ->. by apply Hc.
Qed.

Lemma draftAll_requests cs purp resume replies : forall i w,
  requests (draftAll cs purp resume replies i w).2
  = requests w ++ (if emailPromptOk resume
                   then map (fun c => ReqDraftEmail c purp resume) cs else []).
Proof.
  induction cs as [|c cs IH]; intros i w; simpl.
  - destruct (emailPromptOk resume); symmetry; apply app_nil_r.
  - pose proof (generateEmailForContact_requests c purp resume (replies i) w) as Hc.
    destruct (generateEmailForContact c purp resume (replies i) w) as [r w1].
    specialize (IH (S i) w1).
    destruct (draftAll cs purp resume replies (S i) w1) as [rs w2]. simpl in *.
    rewrite IH, Hc. destruct (emailPromptOk resume).
    + by rewrite <- app_assoc.
    + by rewrite <- app_assoc.
Qed.

Lemma contactsToEmail_hasEmail s :
  Forall (fun p => hasEmail p = true /\ emailOf p ∈ selectedContacts s
                   /\ p ∈ contacts s)
    (contactsToEmail s).
Proof.
  apply Forall_forall. intros p Hp. unfold contactsToEmail in Hp.
  apply list_elem_of_filter in Hp as [[H1 H2] H3]. done.
Qed.

Lemma hasEmail_email p :
  hasEmail p = true -> contact_email p = Some (emailOf p) /\ emailOf p <> [].
Proof.
  unfold hasEmail, emailOf. destruct (contact_email p) as [[|c e]|]; simpl; done.
Qed.

Lemma handleGenerateEmails_guard replies s w :
  resumeData s = None \/ purpose s = [] \/ selectedContacts s = ∅ ->
  handleGenerateEmails replies s w = (setError (Some msgGenerateGuard) s, w).
Proof.
  intros H. unfold handleGenerateEmails.
  destruct (resumeData s) as [resume|]; [|done].
  destruct H as [H|[H|H]]; [done| |]; rewrite H; [done|].
  replace (size (∅ : gset jsstring) =? 0)%nat with true
    by (symmetry; apply Nat.eqb_eq, size_empty).
  simpl. by rewrite andb_false_r.
Qed.

Lemma handleGenerateEmails_run replies s w resume :
  resumeData s = Some resume -> purpose s <> [] -> selectedContacts s <> ∅ ->
  handleGenerateEmails replies s w =
  (let s1 := setEmails [] (setError None (setIsGeneratingEmails true s)) in
   setIsGeneratingEmails false
     match promiseAll (draftAll (contactsToEmail s) (purpose s) resume replies 0 w).1 with
     | Ok generatedEmails =>
         setCurrentStep Review (setEmails (map asEmail generatedEmails) s1)
     | Err _ => setError (Some msgGenerateFailed) s1
     end,
   (draftAll (contactsToEmail s) (purpose s) resume replies 0 w).2).
Proof.
  intros Hres Hpurpose Hsel. unfold handleGenerateEmails. rewrite Hres.
  destruct (purpose s) as [|c p] eqn:Hp; [done|]. simpl.
  destruct (Nat.eqb_spec (size (selectedContacts s)) 0) as [E|_].
  { by apply size_empty_inv, leibniz_equiv in E. }
  simpl. by destruct (draftAll _ _ _ _ _ _).
Qed.

Lemma handleGenerateEmails_frame replies s w :
  contacts (handleGenerateEmails replies s w).1 = contacts s
  /\ selectedContacts (handleGenerateEmails replies s w).1 = selectedContacts s.
Proof.
  destruct s. unfold handleGenerateEmails. repeat case_match; simpl; done.
Qed.

(** A new batch is made of records that were not there before, all unsent. *)
Lemma handleGenerateEmails_fresh replies s w :
  emails (handleGenerateEmails replies s w).1 = emails s
  \/ Forall (fun e => email_sent e = false) (emails (handleGenerateEmails replies s w).1).
Proof.
  destruct s. unfold handleGenerateEmails.
  repeat case_match; simpl; try (by left); right; try (by constructor).
  all: apply Forall_forall; intros e He; apply list_elem_of_In in He;
    apply in_map_iff in He as (d & <- & _); done.
Qed.

(** What a drafting request comes to does not depend on the requests made
    before it. *)
Lemma generateEmailForContact_outcome contact purp resume rep w w0 :
  (generateEmailForContact contact purp resume rep w).1
  = (generateEmailForContact contact purp resume rep w0).1.
Proof. unfold generateEmailForContact. by destruct (emailPrompt resume). Qed.

Lemma generateEmailForContact_isOk contact purp resume rep w :
  isOk (generateEmailForContact contact purp resume rep w).1
  = emailPromptOk resume
    && match rep with Reply text => parsesToNonNull text | Rejected => false end.
Proof.
  destruct (emailPromptOk resume) eqn:Hprompt.
  - destruct rep as [text|].
    + rewrite generateEmailForContact_reply by done. simpl.
      by rewrite isOk_translate, generateEmailForContact_try_isOk.
    + unfold emailPromptOk in Hprompt. unfold generateEmailForContact.
      by destruct (emailPrompt resume).
  - by rewrite generateEmailForContact_noPrompt.
Qed.

(** The promise at position [k] of the batch is the one of the request made
    for the contact at position [k], settled by its own reply. *)
Lemma draftAll_lookup cs purp resume replies w0 : forall i w k c,
  cs !! k = Some c ->
  (draftAll cs purp resume replies i w).1 !! k
  = Some (generateEmailForContact c purp resume (replies (i + k)%nat) w0).1.
Proof.
  induction cs as [|c0 cs IH]; intros i w k c Hk; [done|]. simpl.
  destruct (generateEmailForContact c0 purp resume (replies i) w) as [r w1] eqn:E.
  specialize (IH (S i) w1).
  destruct (draftAll cs purp resume replies (S i) w1) as [rs w2]. simpl in *.
  destruct k as [|k]; simpl in *.
  - injection Hk as <-. rewrite Nat.add_0_r.
    by rewrite (generateEmailForContact_outcome _ _ _ _ w0 w), E.
  - rewrite (IH k c Hk). by rewrite Nat.add_succ_r.
Qed.

Lemma draftAll_length cs purp resume replies i w :
  length (draftAll cs purp resume replies i w).1 = length cs.
Proof. symmetry. eapply Forall2_length, draftAll_to. Qed.

End BatchFacts.

(** C8, as the code has it.  Editing a body leaves every sent flag as it
    is; dispatch, however it ends, leaves every record in its place with its
    recipient and subject, sent if it was sent; and over every sequence of
    events that does not draft a new batch, the record at each position
    keeps its recipient and subject and, once sent, stays sent.  Drafting a
    new batch leaves the list as it is (when the handler is not entered) or
    replaces it by new records, all unsent; and of all the events it is the
    only one after which a position that held a sent record may hold an
    unsent one, or none. *)
Theorem sent_reverts_only_on_redraft {rt : Runtime} :
  (forall i newBody s s', handleEmailChange i newBody s = Ok s' ->
     map email_sent (emails s') = map email_sent (emails s))
  /\ (forall now s w,
        Forall2 laterOf (emails s) (emails (handleSendAll now s w).1.2))
  /\ (forall evs s w, Forall (fun ev => redrafts ev = false) evs ->
        Forall2 laterOf (emails s) (emails (run evs (s, w)).1))
  /\ (forall evs s w i e, Forall (fun ev => redrafts ev = false) evs ->
        emails s !! i = Some e -> email_sent e = true ->
        exists e', emails (run evs (s, w)).1 !! i = Some e'
                   /\ email_sent e' = true /\ email_to e' = email_to e
                   /\ email_subject e' = email_subject e)
  /\ (forall replies s w,
        emails (handleGenerateEmails replies s w).1 = emails s
        \/ Forall (fun e => email_sent e = false)
             (emails (handleGenerateEmails replies s w).1))
  /\ (forall ev s w i e, emails s !! i = Some e -> email_sent e = true ->
        (exists e', emails (step ev (s, w)).1 !! i = Some e'
                    /\ email_sent e' = true /\ email_to e' = email_to e
                    /\ email_subject e' = email_subject e)
        \/ (exists replies, ev = GenerateEmails replies
              /\ is_Some (resumeData s) /\ purpose s <> []
              /\ selectedContacts s <> ∅)).
Proof.
  split_and!.
  - intros i newBody s s'. unfold handleEmailChange.
    destruct (changeBody i newBody (emails s)) as [next|] eqn:E; [|done].
    intros [= <-]. apply changeBody_sent in E. by destruct s.
  - apply @handleSendAll_laterOf.
  - intros evs s w. apply run_laterOf.
  - intros evs s w i e Hevs He Hsent.
    pose proof (run_laterOf evs s w Hevs) as H.
    destruct (Forall2_lookup_l _ _ _ _ _ H He) as (e' & He' & Hto & Hsubj & Hkeep).
    exists e'. split_and!; auto.
  - apply @handleGenerateEmails_fresh.
  - intros ev s w i e He Hsent.
    assert (Hkept : Forall2 laterOf (emails s) (emails (step ev (s, w)).1) ->
              exists e', emails (step ev (s, w)).1 !! i = Some e'
                         /\ email_sent e' = true /\ email_to e' = email_to e
                         /\ email_subject e' = email_subject e).
    { intros H.
      destruct (Forall2_lookup_l _ _ _ _ _ H He) as (e' & He' & Hto & Hsubj & Hkeep).
      exists e'. split_and!; auto. }
    destruct (redrafts ev) eqn:Hev; [|left; by apply Hkept, step_laterOf].
    destruct ev; try done.
    assert (Hguard : (resumeData s = None \/ purpose s = [] \/ selectedContacts s = ∅)
                     \/ (is_Some (resumeData s) /\ purpose s <> []
                         /\ selectedContacts s <> ∅)).
    { destruct (resumeData s) as [resume|]; [|left; by left].
      destruct (purpose s) as [|c p]; [left; right; by left|].
      destruct (decide (selectedContacts s = ∅)) as [E|E]; [left; right; by right|].
      right. by split_and!. }
    destruct Hguard as [Hguard|Hguard]; [left|right; by exists replies].
    apply Hkept. simpl. rewrite handleGenerateEmails_guard by done.
    replace (emails (setError (Some msgGenerateGuard) s, w).1) with (emails s)
      by (by destruct s).
    apply Forall2_laterOf_refl.
Qed.

(** The theorem on a session that dispatches, edits, goes back, looks at
    the history and dispatches again. *)
Lemma sent_reverts_only_on_redraft_witness :
  let e1 := {| email_to := js "a@x"; email_subject := js "S1";
               email_body := js "B1"; email_sent := true |} in
  let e2 := {| email_to := js "b@x"; email_subject := js "S2";
               email_body := js "B2"; email_sent := false |} in
  let s := setEmails [e1; e2] (initialState Sample.world false) in
  let evs := [EmailChange 1 (js "Dear B"); SendAll (fun _ => js "t1");
              EmailChange 0 (js "Dear A"); Back; ToggleView;
              SendAll (fun _ => js "t2")] in
  exists e', emails (run evs (s, Sample.world)).1 !! 0%nat = Some e'
             /\ email_sent e' = true /\ email_to e' = js "a@x".
Proof.
  intros e1 e2 s evs.
  destruct sent_reverts_only_on_redraft as (_ & _ & _ & H & _).
  destruct (H evs s Sample.world 0%nat e1) as (e' & He' & Hsent & Hto & _);
    [by repeat constructor|done|done|].
  exists e'. by split_and!.
Defined.

(** C8 as stated fails on a session that drafts, dispatches, goes back and
    drafts again (all of it offered by the page): after the dispatch the
    record at position 0 is sent; after the second batch the record at
    position 0, with the same recipient, subject and body, is unsent, and a
    second dispatch opens a second window for it. *)
Lemma sent_reverts_on_redraft_counterexample :
  let s := setSelectedContacts {[js "ada@uni.example"]}
             (setContacts [Sample.ada; Sample.bob]
                (setResumeData (Some Sample.resume)
                   (setCurrentStep Select (initialState Sample.world false)))) in
  let draft := fun _ : nat => Reply (jsq "{'subject': 'Hello', 'body': 'Dear Ada'}") in
  let now := fun _ : nat => js "2026-01-01T00:00:00.000Z" in
  let record := fun sent => {| email_to := js "ada@uni.example";
                               email_subject := js "Hello";
                               email_body := js "Dear Ada"; email_sent := sent |} in
  let sent := run [GenerateEmails draft; SendAll now] (s, Sample.world) in
  let redrafted := run [Back; GenerateEmails draft] sent in
  let again := run [SendAll now] redrafted in
  emails sent.1 = [record true]
  /\ emails redrafted.1 = [record false]
  /\ length (windows sent.2) = 1%nat
  /\ length (windows again.2) = 2%nat
  /\ map history_to (history again.1) = [js "ada@uni.example"; js "ada@uni.example"].
Proof. by vm_compute. Qed.

(** C3, as the code has it.  With [batch] the contacts of the list that have
    an address in the selection: when the handler is not entered (no resume
    facts, an empty purpose or an empty selection) it reports an error,
    makes no request and leaves the email list and the step as they are.
    When it is entered, one drafting request is made per contact of the
    batch, in order; request [i] succeeds exactly when its prompt can be
    built and reply [i] is a text that parses to a value other than [null].
    If every request succeeds, the email list has exactly one record per
    contact of the batch, record [i] being unsent, addressed to contact [i]
    and holding the subject and the body that request [i] returned, and the
    wizard is on [Review] with no error.  If any one request fails, the email list is
    empty, one error is reported and the wizard is on the step it was on
    ([Select], where the button is). *)
Theorem handleGenerateEmails_spec {rt : Runtime} (replies : nat -> reply)
    (s : AppState) (w : World) :
  let batch := contactsToEmail s in
  let s' := (handleGenerateEmails replies s w).1 in
  let w' := (handleGenerateEmails replies s w).2 in
  (forall c, c ∈ batch <->
     c ∈ contacts s /\ hasEmail c = true /\ emailOf c ∈ selectedContacts s)
  /\ (resumeData s = None \/ purpose s = [] \/ selectedContacts s = ∅ ->
      s' = setError (Some msgGenerateGuard) s /\ w' = w)
  /\ (forall resume,
      resumeData s = Some resume -> purpose s <> [] -> selectedContacts s <> ∅ ->
      let outcome := fun (i : nat) (c : Contact) =>
        (generateEmailForContact c (purpose s) resume (replies i) w).1 in
      (forall i c,
         isOk (outcome i c)
         = emailPromptOk resume
           && match replies i with
              | Reply text => parsesToNonNull text
              | Rejected => false
              end)
      /\ requests w'
         = requests w
           ++ (if emailPromptOk resume
               then map (fun c => ReqDraftEmail c (purpose s) resume) batch
               else [])
      /\ ((forall i c, batch !! i = Some c -> isOk (outcome i c) = true) ->
          length (emails s') = length batch
          /\ (forall i c, batch !! i = Some c ->
                exists d e, outcome i c = Ok d
                            /\ emails s' !! i = Some e
                            /\ contact_email c = Some (email_to e)
                            /\ email_sent e = false
                            /\ (forall subject, draft_subject d = Some (JStr subject) ->
                                  email_subject e = subject)
                            /\ (forall body, draft_body d = Some (JStr body) ->
                                  email_body e = body))
          /\ currentStep s' = Review
          /\ error s' = None)
      /\ (forall i c, batch !! i = Some c -> isOk (outcome i c) = false ->
          emails s' = []
          /\ error s' = Some msgGenerateFailed
          /\ currentStep s' = currentStep s
          /\ (currentStep s = Select -> currentStep s' = Select))).
Proof.
  simpl. split_and!.
  - intros c. unfold contactsToEmail. rewrite list_elem_of_filter. tauto.
  - intros Hguard. by rewrite handleGenerateEmails_guard.
  - intros resume Hres Hpurpose Hsel.
    rewrite (handleGenerateEmails_run replies s w resume) by done. simpl.
    pose proof (draftAll_lookup (contactsToEmail s) (purpose s) resume replies w 0 w)
      as Hlookup.
    pose proof (draftAll_length (contactsToEmail s) (purpose s) resume replies 0 w)
      as Hlength.
    pose proof (contactsToEmail_hasEmail s) as Hbatch.
    set (results := (draftAll (contactsToEmail s) (purpose s) resume replies 0 w).1) in *.
    split_and!.
    + intros i c. apply generateEmailForContact_isOk.
    + apply draftAll_requests.
    + intros Hall.
      assert (Hresults : Forall (fun r => isOk r = true) results).
      { apply Forall_lookup. intros i r Hr.
        destruct (lookup_lt_is_Some_2 (contactsToEmail s) i) as [c Hc].
        { rewrite <- Hlength. by eapply lookup_lt_Some. }
        rewrite (Hlookup i c Hc) in Hr. injection Hr as <-. by apply Hall. }
      destruct (promiseAll_ok results Hresults) as (ds & -> & Hds).
      assert (Hemails : emails (setIsGeneratingEmails false
                 (setCurrentStep Review (setEmails (map asEmail ds)
                    (setEmails [] (setError None (setIsGeneratingEmails true s))))))
               = map asEmail ds) by (by destruct s).
      rewrite Hemails. split_and!.
      * rewrite length_map, <- Hlength. symmetry. by eapply Forall2_length.
      * intros i c Hc. pose proof (Hlookup i c Hc) as Hr.
        destruct (Forall2_lookup_l _ _ _ _ _ Hds Hr) as (d & Hd & Hok).
        exists d, (asEmail d). split; [exact Hok|]. split.
        { by rewrite list_lookup_fmap, Hd. }
        split; [|split; [done|split; unfold asEmail; simpl; by intros ? ->]].
        rewrite Forall_forall in Hbatch.
        destruct (Hbatch c) as (Hhas & _); [by eapply list_elem_of_lookup_2|].
        apply hasEmail_email in Hhas as [Hemail _].
        apply generateEmailForContact_to in Hok.
        unfold asEmail. simpl. by rewrite Hok, Hemail.
      * by destruct s.
      * by destruct s.
    + intros i c Hc Hfail.
      assert (Hex : Exists (fun r => isOk r = false) results).
      { apply Exists_exists. eexists. split; [|exact Hfail].
        eapply list_elem_of_lookup_2, Hlookup, Hc. }
      pose proof (promiseAll_err results Hex) as Herr.
      destruct (promiseAll results); [done|].
      destruct s; simpl in *. by split_and!.
Qed.

(** The theorem on a batch of two contacts, both drafts arriving. *)
Lemma handleGenerateEmails_spec_witness :
  let s := setSelectedContacts {[js "ada@uni.example"; js "kim@uni.example"]}
             (setContacts [Sample.ada; Sample.bob; Sample.kim]
                (setResumeData (Some Sample.resume)
                   (setCurrentStep Select (initialState Sample.world false)))) in
  let replies := fun _ : nat => Reply (jsq "{'subject': 'Hello', 'body': 'Dear colleague'}") in
  let s' := (handleGenerateEmails replies s Sample.world).1 in
  length (emails s') = 2%nat /\ currentStep s' = Review.
Proof.
  intros s replies.
  assert (Hbatch : contactsToEmail s = [Sample.ada; Sample.kim]) by (by vm_compute).
  destruct (handleGenerateEmails_spec replies s Sample.world) as (_ & _ & H).
  destruct (H Sample.resume) as (Hok & _ & Hall & _); [done|done| |].
  { apply (non_empty_inhabited_L (js "ada@uni.example")).
    apply elem_of_union_l. by apply elem_of_singleton. }
  destruct Hall as (Hlen & _ & Hstep & _).
  { intros i c _. by rewrite Hok. }
  rewrite Hbatch in Hlen. split; [exact Hlen|exact Hstep].
Defined.

(** C3 as stated fails when the purpose is empty (the page offers the
    button then).  Two drafts are there from an earlier batch, one contact
    is selected and its request would succeed; yet the handler makes no
    request and stays on [Select], and the email list holds neither one
    new record nor none: it is left as it was.  What the handler reports
    is its own entry error. *)
Lemma handleGenerateEmails_empty_purpose_counterexample :
  let earlier := [{| email_to := js "ada@uni.example"; email_subject := js "Hello";
                     email_body := js "Dear Ada"; email_sent := true |};
                  {| email_to := js "kim@uni.example"; email_subject := js "Hello";
                     email_body := js "Dear Kim"; email_sent := true |}] in
  let s := setPurpose []
             (setEmails earlier
                (setSelectedContacts {[js "ada@uni.example"]}
                   (setContacts [Sample.ada; Sample.bob; Sample.kim]
                      (setResumeData (Some Sample.resume)
                         (setCurrentStep Select
                            (initialState Sample.world false)))))) in
  let replies := fun _ : nat => Reply (jsq "{'subject': 'Hello', 'body': 'Dear Ada'}") in
  let s' := (handleGenerateEmails replies s Sample.world).1 in
  let w' := (handleGenerateEmails replies s Sample.world).2 in
  contactsToEmail s = [Sample.ada]
  /\ offered (GenerateEmails replies) s = true
  /\ isOk (generateEmailForContact Sample.ada (purpose s) Sample.resume (replies 0%nat)
             Sample.world).1 = true
  /\ emails s' = earlier
  /\ currentStep s' = Select
  /\ requests w' = []
  /\ error s' = Some msgGenerateGuard.
Proof. by vm_compute. Qed.

(** *** The selection *)

Section SelectionFacts.
Context {rt : Runtime}.

Lemma selectionInv_frame s s' :
  contacts s' = contacts s -> selectedContacts s' = selectedContacts s ->
  selectionInv s -> selectionInv s'.
Proof.
  intros Hc Hs Hinv e He. rewrite Hs in He.
  destruct (Hinv e He) as (p & Hp & Hpe). exists p. by rewrite Hc.
Qed.

(** The selection made by a discovery: the addresses of the contacts that
    have one. *)
Lemma initial_selection cs e :
  e ∈ (list_to_set (map emailOf (filter (fun p => hasEmail p = true) cs))
       : gset jsstring)
  <-> exists p, p ∈ cs /\ contact_email p = Some e /\ e <> [].
Proof.
  rewrite elem_of_list_to_set, list_elem_of_In, in_map_iff. split.
  - intros (p & <- & Hp). apply list_elem_of_In, list_elem_of_filter in Hp as [Hhas Hp].
    exists p. split; [done|]. by apply hasEmail_email.
  - intros (p & Hp & Hemail & Hne). exists p.
    assert (Hhas : hasEmail p = true).
    { unfold hasEmail. rewrite Hemail. by destruct e. }
    split; [unfold emailOf; by rewrite Hemail|].
    apply list_elem_of_In, list_elem_of_filter. done.
Qed.

Lemma handleFindContacts_cases rep s w :
  let s' := (handleFindContacts rep s w).1 in
  (contacts s' = contacts s /\ selectedContacts s' = selectedContacts s)
  \/ selectedContacts s'
     = list_to_set (map emailOf (filter (fun p => hasEmail p = true) (contacts s'))).
Proof.
  destruct s. unfold handleFindContacts. repeat case_match; simpl; auto.
Qed.

Lemma handleFindContacts_success rep s w resume result :
  resumeData s = Some resume -> university s <> [] -> department s <> [] ->
  (findContacts (university s) (department s) resume rep w).1 = Ok result ->
  let s' := (handleFindContacts rep s w).1 in
  contacts s' = map asContact result
  /\ selectedContacts s'
     = list_to_set (map emailOf (filter (fun p => hasEmail p = true) (contacts s')))
  /\ currentStep s' = Select.
Proof.
  intros Hres Hu Hd Hfound. unfold handleFindContacts. rewrite Hres.
  destruct (university s) as [|c u] eqn:Eu; [done|].
  destruct (department s) as [|c' d] eqn:Ed; [done|]. simpl.
  destruct (findContacts (c :: u) (c' :: d) resume rep w) as [found w1].
  simpl in Hfound. subst found. by destruct s.
Qed.

Lemma onContactChange_selection contact s e :
  e ∈ selectedContacts (onContactChange contact s) ->
  e ∈ selectedContacts s \/ (contact_email contact = Some e /\ e <> []).
Proof.
  unfold onContactChange. destruct (hasEmail contact) eqn:Hhas; [|by left].
  apply hasEmail_email in Hhas as [Hemail Hne].
  unfold handleContactSelection.
  destruct (decide (emailOf contact ∈ selectedContacts s)); destruct s; simpl.
  - intros [He _]%elem_of_difference. by left.
  - intros [He|He]%elem_of_union; [by left|].
    apply elem_of_singleton in He as ->. by right.
Qed.

Lemma step_selectionInv ev s w :
  selectionInv s -> selectionInv (step ev (s, w)).1.
Proof.
  intros Hinv.
  destruct ev; simpl;
    try (apply (selectionInv_frame s); [..|exact Hinv]; by destruct s).
  - apply (selectionInv_frame s); [..|exact Hinv]; apply handleFileChange_frame.
  - destruct (handleFindContacts_cases rep s w) as [[Hc Hs]|Hnew].
    + by apply (selectionInv_frame s).
    + intros e He. rewrite Hnew in He. by apply initial_selection in He.
  - destruct (contacts s !! index) as [contact|] eqn:Hc; simpl; [|done].
    intros e He. apply onContactChange_selection in He as [He|[Hemail Hne]].
    + destruct (Hinv e He) as (p & Hp & Hpe). exists p.
      by rewrite (proj2 (onContactChange_frame contact s)).
    + exists contact. rewrite (proj2 (onContactChange_frame contact s)).
      split; [by eapply list_elem_of_lookup_2|done].
  - apply (selectionInv_frame s); [..|exact Hinv]; apply handleGenerateEmails_frame.
  - destruct (handleEmailChange index newBody s) as [s'|] eqn:E; simpl; [|done].
    apply handleEmailChange_others in E as [Hc Hs].
    by apply (selectionInv_frame s).
  - pose proof (handleSendAll_frame now s w) as [Hc Hs].
    destruct (handleSendAll now s w) as [[? s'] ?]. simpl in *.
    by apply (selectionInv_frame s).
  - apply (selectionInv_frame s); [..|exact Hinv]; apply handleClearHistory_frame.
  - apply (selectionInv_frame s); [..|exact Hinv]; apply handleBack_frame.
Qed.

Lemma run_selectionInv evs : forall s w,
  selectionInv s -> selectionInv (run evs (s, w)).1.
Proof.
  induction evs as [|ev evs IH]; intros s w Hinv; [done|].
  rewrite run_cons. pose proof (step_selectionInv ev s w Hinv) as H1.
  destruct (step ev (s, w)) as [s1 w1]. by apply IH.
Qed.

Lemma handleGenerateEmails_requests replies s w :
  exists new,
    requests (handleGenerateEmails replies s w).2 = requests w ++ new
    /\ Forall (fun q => exists p purp r,
                 q = ReqDraftEmail p purp r /\ p ∈ contactsToEmail s) new.
Proof.
  unfold handleGenerateEmails.
  destruct (resumeData s) as [resume|]; [|exists []; by rewrite app_nil_r].
  destruct (nonEmpty (purpose s) && negb (size (selectedContacts s) =? 0)%nat);
    [|exists []; by rewrite app_nil_r].
  pose proof (draftAll_requests (contactsToEmail s) (purpose s) resume replies 0 w) as H.
  destruct (draftAll (contactsToEmail s) (purpose s) resume replies 0 w) as [ps w1].
  simpl in *. rewrite H. eexists; split; [reflexivity|].
  destruct (emailPromptOk resume); [|constructor].
  apply Forall_forall. intros q Hq. apply list_elem_of_In, in_map_iff in Hq as (p & <- & Hp).
  exists p, (purpose s), resume. split; [done|by apply list_elem_of_In].
Qed.

End SelectionFacts.

(** C7, as the code has it.  In every state of a session the selection
    holds only addresses of contacts of the list that have one: a non-null
    address that is not the empty string.  A successful discovery sets it
    to exactly those addresses of the contacts it found; a check box
    toggles only the address of its own contact, when the contact has one;
    the contacts a batch is drafted for all have an address, and it is in
    the selection; and the drafting requests a batch sends are requests for
    those contacts.  So a contact without an address never enters the
    selection and is never drafted for. *)
Theorem selection_invariant {rt : Runtime} :
  (forall evs w dark, selectionInv (run evs (initialState w dark, w)).1)
  /\ (forall rep s w resume result,
        resumeData s = Some resume -> university s <> [] -> department s <> [] ->
        (findContacts (university s) (department s) resume rep w).1 = Ok result ->
        let s' := (handleFindContacts rep s w).1 in
        contacts s' = map asContact result
        /\ forall e, e ∈ selectedContacts s' <-> selectable s' e)
  /\ (forall contact s e,
        e ∈ selectedContacts (onContactChange contact s) ->
        e ∈ selectedContacts s \/ (contact_email contact = Some e /\ e <> []))
  /\ (forall s,
        Forall (fun p => exists e, contact_email p = Some e /\ e <> []
                                   /\ e ∈ selectedContacts s)
          (contactsToEmail s))
  /\ (forall replies s w, exists new,
        requests (handleGenerateEmails replies s w).2 = requests w ++ new
        /\ Forall (fun q => exists p purp r e,
                     q = ReqDraftEmail p purp r
                     /\ contact_email p = Some e /\ e <> []) new).
Proof.
  assert (Hbatch : forall s,
    Forall (fun p => exists e, contact_email p = Some e /\ e <> []
                               /\ e ∈ selectedContacts s) (contactsToEmail s)).
  { intros s. eapply Forall_impl; [apply contactsToEmail_hasEmail|].
    intros p (Hhas & Hsel & _). apply hasEmail_email in Hhas as [Hemail Hne].
    by exists (emailOf p). }
  split_and!.
  - intros evs w dark. apply run_selectionInv. intros e He. simpl in He. set_solver.
  - intros rep s w resume result Hres Hu Hd Hfound.
    destruct (handleFindContacts_success rep s w resume result Hres Hu Hd Hfound)
      as (Hc & Hs & _).
    split; [done|]. intros e. rewrite Hs. apply initial_selection.
  - apply @onContactChange_selection.
  - exact Hbatch.
  - intros replies s w.
    destruct (handleGenerateEmails_requests replies s w) as (new & Hreq & Hnew).
    exists new. split; [done|].
    eapply Forall_impl; [exact Hnew|]. intros q (p & purp & r & -> & Hp).
    specialize (Hbatch s). rewrite Forall_forall in Hbatch.
    destruct (Hbatch p Hp) as (e & Hemail & Hne & _).
    by exists p, purp, r, e.
Qed.

(** The theorem on a session that discovers three contacts (one without an
    address), clears the check box of the first and ticks the one of the
    second, which has none. *)
Lemma selection_invariant_witness :
  let text := jsq "[{'name': 'Ada', 'title': 'Prof', 'researchInterests': 'Engines', 'email': 'ada@uni.example'}, {'name': 'Bob', 'title': 'Dr', 'researchInterests': 'Looms', 'email': null}, {'name': 'Kim', 'title': 'Dr', 'researchInterests': 'Proofs', 'email': 'kim@uni.example'}]" in
  let evs := [FileChange (Some {| upload_name := js "cv.pdf"; upload_type := pdfType;
                                  upload_base64 := Some (js "JVBERi0x") |})
                (Reply (jsq "{'skills': ['Rocq'], 'projects': []}"));
              ChangeUniversity (js "MIT"); ChangeDepartment (js "Logic");
              FindContacts (Reply text); ContactChange 0; ContactChange 1] in
  let s := (run evs (initialState Sample.world false, Sample.world)).1 in
  selectionInv s /\ elements (selectedContacts s) = [js "kim@uni.example"].
Proof.
  intros text evs s. split.
  - destruct selection_invariant as (Hinv & _). apply Hinv.
  - by vm_compute.
Defined.

(** C7 as stated fails on a discovered contact whose address is the empty
    string: the address is not null, and the selection a discovery makes
    does not hold it. *)
Lemma selection_initialised_counterexample :
  let text := jsq "[{'name': 'Eve', 'title': 'Dr', 'researchInterests': 'Ciphers', 'email': ''}]" in
  let s := setDepartment (js "Logic") (setUniversity (js "MIT")
             (setResumeData (Some Sample.resume) (initialState Sample.world false))) in
  let s' := (handleFindContacts (Reply text) s Sample.world).1 in
  currentStep s' = Select
  /\ map contact_email (contacts s') = [Some []]
  /\ selectedContacts s' = ∅.
Proof. by vm_compute. Qed.

(** * Further properties of the code *)

#[local] Set Warnings "-clear-no-such-hyp".

(** ** More on [cleanJsonString] *)

Section CleanFacts.

Lemma infixOf_refl s : infixOf s s.
Proof. exists [], []. by rewrite app_nil_r. Qed.

Lemma infixOf_trans a b c : infixOf a b -> infixOf b c -> infixOf a c.
Proof.
  intros (p1 & q1 & ->) (p2 & q2 & ->). exists (p2 ++ p1), (q1 ++ q2).
  by rewrite <- !app_assoc.
Qed.

Lemma infixOf_rev a b : infixOf a b -> infixOf (rev a) (rev b).
Proof.
  intros (p & q & ->). exists (rev q), (rev p).
  by rewrite !rev_app_distr, <- app_assoc.
Qed.

Lemma infixOf_length a b : infixOf a b -> (length a <= length b)%nat.
Proof. intros (p & q & ->). rewrite !length_app. lia. Qed.

Lemma dropWhile_infix {p : N -> bool} s : infixOf (dropWhile p s) s.
Proof.
  induction s as [|x s IH]; simpl; [apply infixOf_refl|].
  destruct (p x); [|apply infixOf_refl].
  eapply infixOf_trans; [exact IH|]. by exists [x], []; rewrite app_nil_r.
Qed.

Lemma stripPrefix_Some pfx s t : stripPrefix pfx s = Some t -> s = pfx ++ t.
Proof.
  revert s; induction pfx as [|a pfx IH]; intros s H; simpl in H.
  - by destruct s; injection H as <-.
  - destruct s as [|b s]; [done|].
    destruct (N.eqb_spec a b) as [<-|]; [|done]. simpl. f_equal. by apply IH.
Qed.

Lemma stripPrefix_app pfx t : stripPrefix pfx (pfx ++ t) = Some t.
Proof.
  induction pfx as [|a pfx IH]; simpl; [by destruct t|].
  by rewrite N.eqb_refl.
Qed.

Lemma stripSuffix_Some sfx s t : stripSuffix sfx s = Some t -> s = t ++ sfx.
Proof.
  unfold stripSuffix.
  destruct (stripPrefix (rev sfx) (rev s)) as [r|] eqn:E; [|done].
  intros [= <-]. apply stripPrefix_Some in E.
  apply (f_equal (@rev N)) in E.
  by rewrite rev_involutive, rev_app_distr, rev_involutive in E.
Qed.

Lemma stripSuffix_app sfx t : stripSuffix sfx (t ++ sfx) = Some t.
Proof.
  unfold stripSuffix. rewrite rev_app_distr, stripPrefix_app.
  by rewrite rev_involutive.
Qed.

Lemma replaceFences_infix s : infixOf (replaceFences s) s.
Proof.
  unfold replaceFences.
  set (r := match stripPrefix fenceOpen s with
            | Some t => dropWhile isWhiteSpace t
            | None => s
            end).
  assert (Hr : infixOf r s).
  { subst r. destruct (stripPrefix fenceOpen s) as [t|] eqn:E;
      [|apply infixOf_refl].
    eapply infixOf_trans; [apply dropWhile_infix|].
    apply stripPrefix_Some in E. exists fenceOpen, []. by rewrite app_nil_r. }
  destruct (stripSuffix fenceClose r) as [t|] eqn:E; [|done].
  eapply infixOf_trans; [|exact Hr].
  apply stripSuffix_Some in E. by exists [], fenceClose.
Qed.

Lemma trim_infix s : infixOf (trim s) s.
Proof.
  unfold trim. eapply infixOf_trans; [|apply (@dropWhile_infix isWhiteSpace)].
  rewrite <- (rev_involutive (dropWhile isWhiteSpace s)) at 2.
  apply infixOf_rev, dropWhile_infix.
Qed.

Lemma extract_infix s : infixOf (extract s) s.
Proof.
  unfold extract.
  destruct (findFirst isOpening s) as [i|]; [|apply infixOf_refl].
  destruct (findLast isClosing s) as [j|]; [|apply infixOf_refl].
  destruct (j <? i)%nat; [apply infixOf_refl|].
  exists (take i s), (drop (S j - i) (drop i s)).
  by rewrite take_drop, take_drop.
Qed.

Lemma findFirst_lookup p s i :
  findFirst p s = Some i -> exists c, s !! i = Some c /\ p c = true.
Proof.
  revert i; induction s as [|x s IH]; intros i; simpl; [done|].
  destruct (p x) eqn:Hx; [intros [= <-]; by exists x|].
  destruct (findFirst p s) as [k|]; simpl; [|done].
  intros [= <-]. by apply IH.
Qed.

Lemma findLast_lookup p s j :
  findLast p s = Some j -> exists c, s !! j = Some c /\ p c = true.
Proof.
  revert j; induction s as [|x s IH]; intros j; simpl; [done|].
  destruct (findLast p s) as [k|].
  - intros [= <-]. by apply IH.
  - destruct (p x) eqn:Hx; [|done]. intros [= <-]. by exists x.
Qed.

Lemma opening_not_closing c : isOpening c = true -> isClosing c = false.
Proof. by intros [-> | ->]%isOpening_inv. Qed.

(** What the extraction returns when it cuts: a text that opens with a
    bracket or brace and closes with one. *)
Lemma extract_cases s : extract s = s \/ delimited (extract s).
Proof.
  unfold extract.
  destruct (findFirst isOpening s) as [i|] eqn:Hi; [|by left].
  destruct (findLast isClosing s) as [j|] eqn:Hj; [|by left].
  destruct (Nat.ltb_spec j i); [by left|]. right.
  destruct (findFirst_lookup _ _ _ Hi) as (o & Ho & Hopen).
  destruct (findLast_lookup _ _ _ Hj) as (c & Hc & Hclose).
  assert (i <> j).
  { intros ->. rewrite Ho in Hc. injection Hc as ->.
    by rewrite (opening_not_closing _ Hopen) in Hclose. }
  exists o, (take (j - S i) (drop (S i) s)), c. split; [|done].
  rewrite (drop_S _ _ _ Ho).
  replace (S j - i)%nat with (S (S (j - S i))) by lia.
  rewrite firstn_cons. f_equal.
  apply take_S_r. rewrite lookup_drop.
  by replace (S i + (j - S i))%nat with j by lia.
Qed.

Lemma cleanJsonString_delimited r : delimited r -> cleanJsonString r = r.
Proof.
  intros Hr. rewrite cleanJsonString_extract.
  apply extract_wrapped; [done|].
  destruct Hr as (o & mid & c & -> & Ho & Hc).
  apply trim_wrapped, replaceFences_wrapped; try done.
  exists [], []. by rewrite app_nil_r.
Qed.

Lemma dropWhile_head {p : N -> bool} s c :
  head (dropWhile p s) = Some c -> p c = false.
Proof.
  induction s as [|x s IH]; simpl; [done|].
  destruct (p x) eqn:Hx; [done|]. simpl. by intros [= <-].
Qed.

Lemma dropWhile_app_stop {p : N -> bool} l x r :
  p x = false -> dropWhile p (l ++ x :: r) = dropWhile p l ++ x :: r.
Proof.
  intros Hx. induction l as [|y l IH]; simpl; [by rewrite Hx|].
  by destruct (p y).
Qed.

Lemma dropWhile_idem {p : N -> bool} s :
  dropWhile p (dropWhile p s) = dropWhile p s.
Proof.
  induction s as [|x s IH]; simpl; [done|].
  destruct (p x) eqn:Hx; [done|]. simpl. by rewrite Hx.
Qed.

(** Trimming from the end keeps the first code unit of what is left. *)
Lemma dropWhile_suffix {p : N -> bool} l : exists q, l = q ++ dropWhile p l.
Proof.
  induction l as [|x l (q & Hq)]; simpl; [by exists []|].
  destruct (p x); [|by exists []].
  exists (x :: q). simpl. by f_equal.
Qed.

Lemma dropEnd_head {p : N -> bool} s c :
  head (rev (dropWhile p (rev s))) = Some c -> head s = Some c.
Proof.
  destruct (dropWhile_suffix (p:=p) (rev s)) as (q & Hq).
  apply (f_equal (@rev N)) in Hq. rewrite rev_involutive, rev_app_distr in Hq.
  rewrite Hq at 2. by destruct (rev (dropWhile p (rev s))).
Qed.

Lemma trim_head s c : head (trim s) = Some c -> isWhiteSpace c = false.
Proof.
  unfold trim. intros H. apply dropEnd_head in H. by apply dropWhile_head in H.
Qed.

Lemma last_rev_head (l : jsstring) : last (rev l) = head l.
Proof. destruct l as [|x l]; [done|]. simpl. by rewrite last_snoc. Qed.

Lemma trim_last s c : last (trim s) = Some c -> isWhiteSpace c = false.
Proof. unfold trim. rewrite last_rev_head. apply dropWhile_head. Qed.

Lemma trim_dropWhile s : trim (dropWhile isWhiteSpace s) = trim s.
Proof. unfold trim. by rewrite dropWhile_idem. Qed.

End CleanFacts.

(** X1.  [cleanJsonString] only cuts: its result is a run of consecutive
    code units of the response text, so it is never longer, and no
    character of it is made up. *)
Theorem cleanJsonString_infix (s : jsstring) :
  infixOf (cleanJsonString s) s
  /\ (length (cleanJsonString s) <= length s)%nat.
Proof.
  assert (H : infixOf (cleanJsonString s) s).
  { rewrite cleanJsonString_extract.
    eapply infixOf_trans; [apply extract_infix|].
    eapply infixOf_trans; [apply trim_infix|apply replaceFences_infix]. }
  split; [exact H|by apply infixOf_length].
Qed.

(** X2.  Either no cut is made and the result is the response text without
    its fences, trimmed, or the result opens with a bracket or brace and
    closes with one; such a result is a fixed point, so cleaning a cleaned
    text again changes nothing then. *)
Theorem cleanJsonString_extracted (s : jsstring) :
  cleanJsonString s = trim (replaceFences s)
  \/ (delimited (cleanJsonString s)
      /\ cleanJsonString (cleanJsonString s) = cleanJsonString s).
Proof.
  rewrite (cleanJsonString_extract s).
  destruct (extract_cases (trim (replaceFences s))) as [->|Hd]; [by left|].
  right. split; [done|]. by apply cleanJsonString_delimited.
Qed.

(** X3.  The result never starts and never ends with white space. *)
Theorem cleanJsonString_trimmed (s : jsstring) (c : N) :
  head (cleanJsonString s) = Some c \/ last (cleanJsonString s) = Some c ->
  isWhiteSpace c = false.
Proof.
  rewrite cleanJsonString_extract.
  destruct (extract_cases (trim (replaceFences s)))
    as [->|(o & mid & d & -> & Ho & Hd)].
  - intros [H|H]; [by eapply trim_head|by eapply trim_last].
  - intros [H|H].
    + simpl in H. injection H as <-. by destruct (isOpening_inv _ Ho) as [-> | ->].
    + change (o :: mid ++ [d]) with ((o :: mid) ++ [d]) in H.
      rewrite last_snoc in H. injection H as <-.
      by destruct (isClosing_inv _ Hd) as [-> | ->].
Qed.

Lemma cleanJsonString_trimmed_witness :
  head (cleanJsonString (jsq "  |```json|  [1, 2]  |```")) = Some 91%N
  /\ isWhiteSpace 91 = false.
Proof.
  split; [by vm_compute|].
  apply (cleanJsonString_trimmed (jsq "  |```json|  [1, 2]  |```")).
  left. by vm_compute.
Defined.

(** X4.  A fence is transparent: for a payload that carries no fence of its
    own, cleaning the payload wrapped in the fence (with any white space
    after the opening fence) gives what cleaning the payload gives. *)
Theorem cleanJsonString_fenced_payload (ws payload : jsstring) :
  Forall (fun c => isWhiteSpace c = true) ws ->
  replaceFences payload = payload ->
  replaceFences (fenced ws payload) = dropWhile isWhiteSpace payload
  /\ cleanJsonString (fenced ws payload) = cleanJsonString payload.
Proof.
  intros Hws Hplain.
  assert (E : replaceFences (fenced ws payload) = dropWhile isWhiteSpace payload).
  { unfold replaceFences, fenced. rewrite stripPrefix_app.
    assert (Hdrop : dropWhile isWhiteSpace (ws ++ payload ++ fenceClose)
                    = dropWhile isWhiteSpace payload ++ fenceClose).
    { induction Hws as [|x ws Hx _ IH]; simpl.
      - by apply (dropWhile_app_stop payload 96%N [96; 96]%N).
      - by rewrite Hx. }
    by rewrite Hdrop, stripSuffix_app. }
  split; [exact E|].
  by rewrite !cleanJsonString_extract, E, trim_dropWhile, Hplain.
Qed.

Lemma cleanJsonString_fenced_payload_witness :
  cleanJsonString (fenced (jsq "| ") (jsq "Result: {'a': 1} ok"))
  = jsq "{'a': 1}".
Proof.
  destruct (cleanJsonString_fenced_payload (jsq "| ") (jsq "Result: {'a': 1} ok"))
    as [_ ->]; [by repeat constructor|by vm_compute|by vm_compute].
Defined.

(** ** More on the gateway *)

Section GatewayMore.
Context {rt : Runtime}.

Lemma orElse_truthy v d : truthy (Some d) = true -> truthy (Some (orElse v d)) = true.
Proof.
  intros Hd. unfold orElse. destruct v as [x|]; [|done].
  by destruct (truthy (Some x)) eqn:E.
Qed.

Lemma stringifies_orElse v d :
  stringifies d = true -> stringifies (orElse v d) = printable v.
Proof.
  intros Hd. unfold orElse, printable. destruct v as [x|]; [|done].
  destruct (truthy (Some x)) eqn:E; [done|].
  rewrite Hd. destruct x as [|b|z m e|s|l|p]; simpl in *; done.
Qed.

Lemma join_orElse v :
  isOk (join (orElse v (JArr []))) = joinable v.
Proof.
  unfold orElse, joinable. destruct v as [x|]; [|done].
  destruct x as [|b|z m e|s|l|p]; simpl; try done.
  - by destruct b.
  - by destruct z.
  - by destruct s.
  - by destruct (forallb stringifies l).
Qed.

Lemma isOk_ToString v : isOk (ToString v) = stringifies v.
Proof. unfold ToString. by destruct (stringifies v). Qed.

Lemma isOk_contactsPrompt resume :
  contactsPromptOk resume
  = isOk (join (resume_skills resume))
    && stringifies (resume_educationLevel resume)
    && isOk (join (resume_projects resume)).
Proof.
  unfold contactsPromptOk, contactsPrompt, mbind, result_bind, bind.
  rewrite <- isOk_ToString.
  destruct (join (resume_skills resume)) as [[]|]; [|done].
  by destruct (ToString (resume_educationLevel resume)) as [[]|].
Qed.

Lemma isOk_emailPrompt resume :
  emailPromptOk resume
  = isOk (join (resume_skills resume))
    && stringifies (resume_educationLevel resume)
    && isOk (first (resume_projects resume)).
Proof.
  unfold emailPromptOk, emailPrompt, mbind, result_bind, bind.
  rewrite <- isOk_ToString.
  destruct (join (resume_skills resume)) as [[]|]; [|done].
  by destruct (ToString (resume_educationLevel resume)) as [[]|].
Qed.

Lemma join_first v : isOk (join v) = true -> isOk (first v) = true.
Proof.
  unfold join, first. destruct v as [| | | |items|]; try done.
  destruct items as [|x items]; [done|]. cbn [forallb lookup list_lookup].
  destruct (stringifies x) eqn:Hx; [intros _|done].
  unfold orElse. destruct (truthy (Some x)); [|done].
  by rewrite isOk_ToString.
Qed.

Lemma contactsPromptOk_arrays resume :
  contactsPromptOk resume = true ->
  exists a b, resume_skills resume = JArr a /\ resume_projects resume = JArr b.
Proof.
  rewrite isOk_contactsPrompt. unfold join.
  destruct (resume_skills resume); try done.
  destruct (resume_projects resume); try (by rewrite andb_false_r).
  intros _. by eexists _, _.
Qed.

Lemma findContacts_noPrompt uni dept resume rep w :
  contactsPromptOk resume = false ->
  findContacts uni dept resume rep w = (Err TypeError, w).
Proof.
  intros H. unfold findContacts. by rewrite contactsPrompt_err.
Qed.

End GatewayMore.

(** X5.  What [parseResume] returns holds a truthy value in each extracted
    field.  The prompt of the discovery request can be built from it exactly
    when, in the response, [skills] and [projects] are each a list of values
    that convert to strings, or a value that the default replaces (missing,
    [null], [false], 0, the empty string), and the education level converts
    to a string.  And from resume facts from which the prompt of the
    discovery request can be built, the prompt of a drafting request can be
    built too. *)
Theorem parseResume_feeds_prompt {rt : Runtime} :
  (forall (file : RawFile) (text : jsstring) (w : World) (r : ResumeData) (v : json),
     (parseResume file (Reply text) w).1 = Ok r ->
     JSON_parse (cleanJsonString text) = Some v ->
     truthy (Some (resume_skills r)) = true
     /\ truthy (Some (resume_educationLevel r)) = true
     /\ truthy (Some (resume_projects r)) = true
     /\ contactsPromptOk r
        = joinable (field (js "skills") v)
          && printable (field (js "educationLevel") v)
          && joinable (field (js "projects") v))
  /\ (forall r : ResumeData, contactsPromptOk r = true -> emailPromptOk r = true).
Proof.
  split.
  - intros file text w r v Hr Hp. unfold parseResume in Hr. simpl in Hr.
    unfold mbind, result_bind in Hr. simpl in Hr.
    assert (Hv : v <> JNull).
    { intros ->. unfold parseResume_try, parseJSON in Hr. by rewrite Hp in Hr. }
    rewrite (parseResume_try_ok file text v Hp Hv) in Hr. injection Hr as <-.
    split_and!; try (by apply orElse_truthy).
    rewrite isOk_contactsPrompt. simpl.
    by rewrite !join_orElse, stringifies_orElse.
  - intros r. rewrite isOk_contactsPrompt, isOk_emailPrompt.
    intros H. apply andb_prop in H as [H Hp]. rewrite H. simpl.
    by apply join_first.
Qed.

(** The theorem on a response whose only skill has a property [toString]:
    the resume facts are returned, and no prompt can be built from them. *)
Lemma parseResume_feeds_prompt_witness :
  exists r,
    (parseResume Sample.file (Reply (jsq "{'skills': [{'toString': 0}], 'projects': null}"))
       Sample.world).1 = Ok r
    /\ contactsPromptOk r = false.
Proof.
  set (text := jsq "{'skills': [{'toString': 0}], 'projects': null}").
  set (v := JObj [(js "skills", JArr [JObj [(js "toString", JNum true 0 0)]]);
                  (js "projects", JNull)]).
  set (r := {| resume_name := file_name Sample.file;
               resume_mimeType := file_mimeType Sample.file;
               resume_data := file_data Sample.file;
               resume_skills := JArr [JObj [(js "toString", JNum true 0 0)]];
               resume_educationLevel := JStr (js "Not found");
               resume_projects := JArr [] |}).
  assert (Hr : (parseResume Sample.file (Reply text) Sample.world).1 = Ok r)
    by (by vm_compute).
  exists r. split; [exact Hr|].
  destruct parseResume_feeds_prompt as [H _].
  destruct (H Sample.file text Sample.world r v Hr) as (_ & _ & _ & ->);
    [by vm_compute|done].
Defined.

(** X6.  When the skills or the projects of the resume facts are not a
    list, the discovery fails while its prompt is built: [findContacts]
    throws a [TypeError] and sends no request, whatever the service would
    have replied, and [handleFindContacts] reports the discovery failure
    and leaves the wizard where it is. *)
Theorem findContacts_unbuildable_prompt {rt : Runtime} (rep : reply)
    (s : AppState) (w : World) (resume : ResumeData) :
  resumeData s = Some resume -> university s <> [] -> department s <> [] ->
  ~ (exists a b, resume_skills resume = JArr a /\ resume_projects resume = JArr b) ->
  findContacts (university s) (department s) resume rep w = (Err TypeError, w)
  /\ (handleFindContacts rep s w).2 = w
  /\ error (handleFindContacts rep s w).1 = Some msgFindFailed
  /\ currentStep (handleFindContacts rep s w).1 = currentStep s
  /\ contacts (handleFindContacts rep s w).1 = contacts s
  /\ isLoading (handleFindContacts rep s w).1 = false.
Proof.
  intros Hres Hu Hd Hnot.
  assert (Hprompt : contactsPromptOk resume = false).
  { destruct (contactsPromptOk resume) eqn:E; [|done].
    by apply contactsPromptOk_arrays in E. }
  pose proof (findContacts_noPrompt (university s) (department s) resume rep w
                Hprompt) as Hfind.
  split; [exact Hfind|].
  unfold handleFindContacts. rewrite Hres, Hfind.
  destruct (university s) as [|c u]; [done|].
  destruct (department s) as [|c' d]; [done|]. by destruct s.
Qed.

Lemma findContacts_unbuildable_prompt_witness :
  let resume := {| resume_name := js "cv.pdf"; resume_mimeType := pdfType;
                   resume_data := js "JVBERi0x";
                   resume_skills := JStr (js "Rocq, OCaml");
                   resume_educationLevel := JStr (js "Not found");
                   resume_projects := JArr [] |} in
  let s := setDepartment (js "Logic") (setUniversity (js "MIT")
             (setResumeData (Some resume) (initialState Sample.world false))) in
  requests (handleFindContacts (Reply (js "[]")) s Sample.world).2 = []
  /\ currentStep (handleFindContacts (Reply (js "[]")) s Sample.world).1 = Input.
Proof.
  intros resume s.
  destruct (findContacts_unbuildable_prompt (Reply (js "[]")) s Sample.world resume)
    as (_ & Hw & _ & Hstep & _); [done|done|done| |].
  - by intros (a & b & Ha & _).
  - split; [by rewrite Hw|exact Hstep].
Defined.

(** X7.  The three operations tell a rejected request from a bad payload:
    when the request is rejected the error of the service is passed on as
    it is, and when the service replies the only error there can be is the
    translation error of the operation.  Each call whose prompt can be
    built logs exactly one request, whatever comes back. *)
Theorem gateway_errors {rt : Runtime} (w : World) :
  (forall file rep,
     (parseResume file rep w).2 = logRequest (ReqParseResume file) w
     /\ match rep with
        | Rejected => (parseResume file rep w).1 = Err ApiError
        | Reply _ => forall e, (parseResume file rep w).1 = Err e ->
                               e = Error msgResume
        end)
  /\ (forall uni dept resume rep, contactsPromptOk resume = true ->
     (findContacts uni dept resume rep w).2
       = logRequest (ReqFindContacts uni dept resume) w
     /\ match rep with
        | Rejected => (findContacts uni dept resume rep w).1 = Err ApiError
        | Reply _ => forall e, (findContacts uni dept resume rep w).1 = Err e ->
                               e = Error msgContacts
        end)
  /\ (forall contact purp resume rep, emailPromptOk resume = true ->
     (generateEmailForContact contact purp resume rep w).2
       = logRequest (ReqDraftEmail contact purp resume) w
     /\ match rep with
        | Rejected =>
            (generateEmailForContact contact purp resume rep w).1 = Err ApiError
        | Reply _ =>
            forall e, (generateEmailForContact contact purp resume rep w).1 = Err e ->
                      e = Error msgEmail
        end).
Proof.
  split_and!.
  - intros file [text|]; (split; [done|]); [|done].
    intros e. unfold parseResume. simpl. unfold mbind, result_bind. simpl.
    destruct (parseResume_try file text); simpl; congruence.
  - intros uni dept resume rep Hprompt.
    unfold contactsPromptOk in Hprompt. unfold findContacts.
    destruct (contactsPrompt resume);
      [|done].
    destruct rep as [text|]; (split; [done|]); [|done].
    intros e. simpl. unfold mbind, result_bind. simpl.
    destruct (findContacts_try text); simpl; congruence.
  - intros contact purp resume rep Hprompt.
    unfold emailPromptOk in Hprompt. unfold generateEmailForContact.
    destruct (emailPrompt resume);
      [|done].
    destruct rep as [text|]; (split; [done|]); [|done].
    intros e. simpl. unfold mbind, result_bind. simpl.
    destruct (generateEmailForContact_try contact text); simpl; congruence.
Qed.

Lemma gateway_errors_witness :
  (findContacts (js "MIT") (js "Logic") Sample.resume Rejected Sample.world).1
  = Err ApiError
  /\ (forall e, (findContacts (js "MIT") (js "Logic") Sample.resume
                   (Reply (js "sorry")) Sample.world).1 = Err e ->
                e = Error msgContacts).
Proof.
  destruct (gateway_errors Sample.world) as (_ & H & _).
  split.
  - by destruct (H (js "MIT") (js "Logic") Sample.resume Rejected eq_refl).
  - by destruct (H (js "MIT") (js "Logic") Sample.resume (Reply (js "sorry")) eq_refl).
Defined.

(** ** More on the wizard *)

(** *** Selecting *)

(** X8.  Toggling an address twice gives back the state there was; one
    toggle flips the membership of that address and of no other, and moves
    the size of the selection by one. *)
Theorem handleContactSelection_toggle (email : jsstring) (s : AppState) :
  handleContactSelection email (handleContactSelection email s) = s
  /\ (email ∈ selectedContacts (handleContactSelection email s)
      <-> email ∉ selectedContacts s)
  /\ (forall e, e <> email ->
      (e ∈ selectedContacts (handleContactSelection email s)
       <-> e ∈ selectedContacts s))
  /\ size (selectedContacts (handleContactSelection email s))
     = (if decide (email ∈ selectedContacts s)
        then size (selectedContacts s) - 1
        else size (selectedContacts s) + 1)%nat.
Proof.
  unfold handleContactSelection. destruct s as [? ? ? ? ? ? sel ? ? ? ? ? ? ? ? ?].
  simpl. destruct (decide (email ∈ sel)) as [Hin|Hout]; simpl.
  - destruct (decide (email ∈ sel ∖ {[email]})) as [Hin'|_]; [set_solver|].
    split_and!.
    + f_equal. apply set_eq. intros x.
      destruct (decide (x = email)) as [->|]; set_solver.
    + set_solver.
    + intros e He. set_solver.
    + rewrite size_difference by set_solver. by rewrite size_singleton.
  - destruct (decide (email ∈ sel ∪ {[email]})) as [_|Hout']; [|set_solver].
    split_and!.
    + f_equal. set_solver.
    + set_solver.
    + intros e He. set_solver.
    + rewrite size_union by set_solver. by rewrite size_singleton.
Qed.

Lemma handleContactSelection_toggle_witness :
  let s := setSelectedContacts {[js "ada@uni.example"; js "kim@uni.example"]}
             (initialState Sample.world false) in
  js "kim@uni.example"
    ∈ selectedContacts (handleContactSelection (js "ada@uni.example") s)
  /\ handleContactSelection (js "ada@uni.example")
       (handleContactSelection (js "ada@uni.example") s) = s.
Proof.
  intros s.
  destruct (handleContactSelection_toggle (js "ada@uni.example") s)
    as (Hback & _ & Hother & _).
  split; [|exact Hback].
  apply Hother; [done|]. simpl. set_solver.
Defined.

(** *** Going back *)

(** X9.  [handleBack] changes the current step and nothing else; it moves
    one step back and stays on the first step, so it never moves forward
    and two of them always end on [Input]. *)
Theorem handleBack_spec (s : AppState) :
  handleBack s = setCurrentStep (currentStep (handleBack s)) s
  /\ stepNumber (currentStep (handleBack s))
     = Z.max 1 (stepNumber (currentStep s) - 1)
  /\ currentStep (handleBack (handleBack s)) = Input.
Proof.
  destruct s as [st ? ? ? ? ? ? ? ? ? ? ? ? ? ? ?]. unfold handleBack. simpl.
  by destruct st.
Qed.

(** *** Editing *)

Section EditFacts.
Context {rt : Runtime}.

Lemma changeBody_withBody i b l e :
  l !! i = Some e -> changeBody i b l = Ok (<[i := withBody b e]> l).
Proof. apply changeBody_ok. Qed.

Lemma changeBody_isOk i b l :
  isOk (changeBody i b l) = bool_decide (i < length l)%nat.
Proof.
  unfold changeBody. destruct (l !! i) as [e|] eqn:E; simpl; symmetry.
  - apply bool_decide_eq_true. by eapply lookup_lt_Some.
  - apply bool_decide_eq_false. apply lookup_ge_None in E. lia.
Qed.

End EditFacts.

(** X10.  Edits compose as writes to one field: an edit fails exactly when
    the index is past the end of the list; of two edits of the same email
    the later one wins; edits of different emails can be made in either
    order; and writing the body an email has changes nothing. *)
Theorem handleEmailChange_compose {rt : Runtime} (s : AppState) (i j : nat)
    (b1 b2 : jsstring) :
  isOk (handleEmailChange i b1 s) = bool_decide (i < length (emails s))%nat
  /\ (forall s1, handleEmailChange i b1 s = Ok s1 ->
        handleEmailChange i b2 s1 = handleEmailChange i b2 s)
  /\ (i <> j ->
        (s1 ← handleEmailChange i b1 s; handleEmailChange j b2 s1)
        = (s1 ← handleEmailChange j b2 s; handleEmailChange i b1 s1))
  /\ (forall e, emails s !! i = Some e -> email_body e = b1 ->
        handleEmailChange i b1 s = Ok s).
Proof.
  unfold handleEmailChange. split_and!.
  - rewrite <- (changeBody_isOk i b1). by destruct (changeBody i b1 (emails s)).
  - intros s1. destruct (emails s !! i) as [e|] eqn:E.
    + rewrite (changeBody_withBody _ _ _ _ E). simpl. intros [= <-].
      assert (Hi : (i < length (emails s))%nat) by (by eapply lookup_lt_Some).
      destruct s as [? ? ? ? ? ? ? l ? ? ? ? ? ? ? ?]. simpl in *.
      rewrite (changeBody_withBody i b2 _ (withBody b1 e))
        by (by apply list_lookup_insert_eq).
      rewrite (changeBody_withBody i b2 l e) by done. simpl.
      by rewrite list_insert_insert_eq.
    + unfold changeBody. by rewrite E.
  - intros Hij.
    destruct s as [? ? ? ? ? ? ? l ? ? ? ? ? ? ? ?]. simpl.
    destruct (l !! i) as [ei|] eqn:Ei; destruct (l !! j) as [ej|] eqn:Ej.
    + rewrite (changeBody_withBody i b1 l ei), (changeBody_withBody j b2 l ej)
        by done. simpl.
      rewrite (changeBody_withBody j b2 _ ej)
        by (by rewrite list_lookup_insert_ne).
      rewrite (changeBody_withBody i b1 _ ei)
        by (by rewrite list_lookup_insert_ne).
      simpl. by rewrite list_insert_insert_ne.
    + assert (H1 : changeBody j b2 l = Err TypeError)
        by (unfold changeBody; by rewrite Ej).
      assert (H2 : changeBody j b2 (<[i := withBody b1 ei]> l) = Err TypeError)
        by (unfold changeBody; by rewrite list_lookup_insert_ne, Ej).
      rewrite (changeBody_withBody i b1 l ei) by done.
      unfold mbind, result_bind. simpl. by rewrite H1, H2.
    + assert (H1 : changeBody i b1 l = Err TypeError)
        by (unfold changeBody; by rewrite Ei).
      assert (H2 : changeBody i b1 (<[j := withBody b2 ej]> l) = Err TypeError)
        by (unfold changeBody; by rewrite list_lookup_insert_ne, Ei).
      rewrite (changeBody_withBody j b2 l ej) by done.
      unfold mbind, result_bind. simpl. by rewrite H1, H2.
    + unfold changeBody. by rewrite Ei, Ej.
  - intros e He Hb. rewrite (changeBody_withBody _ _ _ _ He). simpl.
    destruct s as [? ? ? ? ? ? ? l ? ? ? ? ? ? ? ?]. simpl in *.
    do 2 f_equal. apply list_insert_id. rewrite He. f_equal.
    destruct e; simpl in *. by subst.
Qed.

Lemma handleEmailChange_compose_witness :
  let e1 := {| email_to := js "a@x"; email_subject := js "S1";
               email_body := js "B1"; email_sent := false |} in
  let e2 := {| email_to := js "b@x"; email_subject := js "S2";
               email_body := js "B2"; email_sent := false |} in
  let s := setEmails [e1; e2] (initialState Sample.world false) in
  (s1 ← handleEmailChange 0 (js "Dear A") s; handleEmailChange 1 (js "Dear B") s1)
  = (s1 ← handleEmailChange 1 (js "Dear B") s; handleEmailChange 0 (js "Dear A") s1).
Proof.
  intros e1 e2 s.
  destruct (handleEmailChange_compose s 0 1 (js "Dear A") (js "Dear B"))
    as (_ & _ & H & _).
  by apply H.
Defined.

(** *** More on dispatch *)

Section DispatchMore.
Context {rt : Runtime}.

Lemma handleSendAll_complete now s w :
  Forall dispatchable (emails s) ->
  exists new links,
    handleSendAll now s w
    = (Ok tt,
       setIsSending false
         (setHistory (new ++ history s)
            (setEmails (map sentCopy (emails s)) (setIsSending true s))),
       {| requests := requests w; windows := windows w ++ links;
          storage := match new with [] => storage w
                     | _ :: _ => Some (new ++ history s) end |})
    /\ Forall2 recordOf (unsent (emails s)) new
    /\ Forall2 (fun e link => mailtoLink e = Ok link) (unsent (emails s)) links.
Proof.
  intros Hall.
  destruct (sendLoop_complete now (emails s) [] [] w Hall)
    as (new & links & Hrun & Hnew & Hlinks).
  exists new, links. split; [|done].
  unfold handleSendAll. simpl in Hrun. rewrite Hrun.
  destruct new as [|h new]; destruct s; simpl; done.
Qed.



Lemma mailtoLink_err e : isOk (mailtoLink e) = false -> mailtoLink e = Err URIError.
Proof.
  unfold mailtoLink.
  destruct (encodeURIComponent (email_subject e)); [|done].
  by destruct (encodeURIComponent (email_body e ++ reminder)).
Qed.

(** The loop, when the link of [e] cannot be built and those before can. *)
Lemma sendLoop_abort now pre e post :
  forall done entries w,
  Forall dispatchable pre -> email_sent e = false ->
  isOk (mailtoLink e) = false ->
  exists links,
    sendLoop (pre ++ e :: post) (length done) now
      (map sentCopy done ++ pre ++ e :: post) entries w
    = (Err URIError, map sentCopy (done ++ pre) ++ e :: post,
       {| requests := requests w; windows := windows w ++ links;
          storage := storage w |})
    /\ Forall2 (fun x link => mailtoLink x = Ok link) (unsent pre) links.
Proof.
  induction pre as [|x pre IH]; intros done entries w Hall Hsent Hlink; simpl.
  - rewrite Hsent, (mailtoLink_err e Hlink). simpl. exists [].
    rewrite !app_nil_r. destruct w; simpl. split; [done|constructor].
  - apply Forall_cons in Hall as [Hx Hall].
    destruct (email_sent x) eqn:Hxs; simpl.
    + destruct (IH (done ++ [x]) entries w Hall Hsent Hlink) as (links & Hrun & Hlinks).
      rewrite length_app, Nat.add_1_r in Hrun.
      rewrite map_app in Hrun. simpl in Hrun.
      rewrite sentCopy_sent, <- app_assoc in Hrun by done. simpl in Hrun.
      rewrite <- app_assoc in Hrun. simpl in Hrun.
      exists links. by rewrite unsent_cons_sent.
    + specialize (Hx Hxs). destruct (mailtoLink x) as [link|] eqn:Hxl; [|done].
      pose proof (markSent_middle done x (pre ++ e :: post)) as Hm.
      rewrite Hm.
      set (entry := {| history_to := email_to x;
                       history_subject := email_subject x;
                       history_body := email_body x;
                       history_dateSent := now (length done) |}).
      destruct (IH (done ++ [x]) (entries ++ [entry]) (openWindow link w)
                  Hall Hsent Hlink) as (links & Hrun & Hlinks).
      rewrite length_app, Nat.add_1_r in Hrun. rewrite Hrun.
      exists (link :: links). rewrite unsent_cons_unsent by done.
      split; [|by constructor].
      simpl. rewrite <- !app_assoc. simpl. done.
Qed.

End DispatchMore.



(** X12.  When the link of an unsent email cannot be built (its subject or
    body holds a lone surrogate), dispatch stops there with [URIError]: the
    emails before it are marked sent and their windows were opened, that
    email and the ones after it are untouched, no history record is
    written for any of them, the store is untouched, and [isSending] stays
    set. *)
Theorem handleSendAll_abort {rt : Runtime} (now : nat -> jsstring)
    (s : AppState) (w : World) (pre post : list Email) (e : Email) :
  emails s = pre ++ e :: post ->
  Forall dispatchable pre -> email_sent e = false ->
  isOk (mailtoLink e) = false ->
  let outcome := (handleSendAll now s w).1.1 in
  let s' := (handleSendAll now s w).1.2 in
  let w' := (handleSendAll now s w).2 in
  outcome = Err URIError
  /\ emails s' = map sentCopy pre ++ e :: post
  /\ history s' = history s
  /\ storage w' = storage w
  /\ isSending s' = true
  /\ exists links, windows w' = windows w ++ links
       /\ Forall2 (fun x link => mailtoLink x = Ok link) (unsent pre) links.
Proof.
  intros Hemails Hpre Hsent Hlink. simpl.
  destruct (sendLoop_abort now pre e post [] [] w Hpre Hsent Hlink)
    as (links & Hrun & Hlinks).
  simpl in Hrun. unfold handleSendAll. rewrite Hemails, Hrun.
  destruct s; simpl in *. split_and!; try done. by exists links.
Qed.

Lemma handleSendAll_abort_witness :
  let e1 := {| email_to := js "a@x"; email_subject := js "S1";
               email_body := js "B1"; email_sent := false |} in
  let e2 := {| email_to := js "b@x"; email_subject := [55357%N];
               email_body := js "B2"; email_sent := false |} in
  let s := setEmails [e1; e2] (initialState Sample.world false) in
  let s' := (handleSendAll (fun _ => js "t") s Sample.world).1.2 in
  map email_sent (emails s') = [true; false] /\ history s' = []
  /\ isSending s' = true.
Proof.
  intros e1 e2 s s'. subst s'.
  destruct (handleSendAll_abort (fun _ => js "t") s Sample.world [e1] [] e2)
    as (_ & Hemails & Hhist & _ & Hsending & _);
    [done|by constructor; [intros _; vm_compute|]|done|by vm_compute|].
  rewrite Hemails. by split_and!.
Defined.

(** X13.  What is dispatched is what was edited: after an edit of an unsent
    email, a dispatch that completes writes a history record with the
    recipient and subject of that email and the new body, and opens the
    link built from the new body. *)
Theorem edit_then_dispatch {rt : Runtime} (now : nat -> jsstring)
    (s s1 : AppState) (w : World) (i : nat) (e : Email) (newBody : jsstring) :
  emails s !! i = Some e -> email_sent e = false ->
  handleEmailChange i newBody s = Ok s1 ->
  (handleSendAll now s1 w).1.1 = Ok tt ->
  exists h link,
    h ∈ history (handleSendAll now s1 w).1.2
    /\ history_to h = email_to e
    /\ history_subject h = email_subject e
    /\ history_body h = newBody
    /\ link ∈ windows (handleSendAll now s1 w).2
    /\ mailtoLink (withBody newBody e) = Ok link.
Proof.
  intros He Hsent Hedit Hok.
  unfold handleEmailChange in Hedit.
  rewrite (changeBody_withBody _ _ _ _ He) in Hedit. simpl in Hedit.
  injection Hedit as <-.
  assert (Hd : Forall dispatchable
                 (emails (setEmails (<[i:=withBody newBody e]> (emails s)) s))).
  { unfold handleSendAll in Hok.
    destruct (sendLoop _ 0 now _ [] w) as [[out cur] w1] eqn:E.
    destruct out as [all|x]; [by eapply sendLoop_ok_dispatchable|done]. }
  destruct (handleSendAll_complete now _ w Hd) as (new & links & -> & Hnew & Hlinks).
  assert (Hin : withBody newBody e
                ∈ unsent (emails (setEmails (<[i:=withBody newBody e]> (emails s)) s))).
  { unfold unsent. apply list_elem_of_filter. split; [done|].
    destruct s; simpl in *. eapply list_elem_of_lookup_2.
    apply list_lookup_insert_eq. by eapply lookup_lt_Some. }
  apply list_elem_of_lookup in Hin as (k & Hk).
  destruct (Forall2_lookup_l _ _ _ _ _ Hnew Hk) as (h & Hh & Hto & Hsubj & Hbody).
  destruct (Forall2_lookup_l _ _ _ _ _ Hlinks Hk) as (link & Hl & Hlink).
  exists h, link. destruct s; simpl in *. split_and!; try done.
  - apply elem_of_app. left. by eapply list_elem_of_lookup_2.
  - apply elem_of_app. right. by eapply list_elem_of_lookup_2.
Qed.

Lemma edit_then_dispatch_witness :
  let e1 := {| email_to := js "a@x"; email_subject := js "S1";
               email_body := js "B1"; email_sent := false |} in
  let s := setEmails [e1] (initialState Sample.world false) in
  let s1 := setEmails [withBody (js "Dear A") e1] (initialState Sample.world false) in
  exists h, h ∈ history (handleSendAll (fun _ => js "t") s1 Sample.world).1.2
            /\ history_body h = js "Dear A".
Proof.
  intros e1 s s1.
  destruct (edit_then_dispatch (fun _ => js "t") s s1 Sample.world 0 e1 (js "Dear A"))
    as (h & _ & Hin & _ & _ & Hbody & _); [done|done|done|by vm_compute|].
  by exists h.
Defined.

(** *** The history and its store *)

Section HistoryFacts.
Context {rt : Runtime}.

Lemma parseResume_world file rep w :
  (parseResume file rep w).2 = logRequest (ReqParseResume file) w.
Proof. done. Qed.

Lemma findContacts_world uni dept resume rep w :
  windows (findContacts uni dept resume rep w).2 = windows w
  /\ storage (findContacts uni dept resume rep w).2 = storage w.
Proof.
  unfold findContacts.
  by destruct (contactsPrompt resume).
Qed.

Lemma generateEmailForContact_world contact purp resume rep w :
  windows (generateEmailForContact contact purp resume rep w).2 = windows w
  /\ storage (generateEmailForContact contact purp resume rep w).2 = storage w.
Proof.
  unfold generateEmailForContact.
  by destruct (emailPrompt resume).
Qed.

Lemma draftAll_world cs purp resume replies : forall i w,
  windows (draftAll cs purp resume replies i w).2 = windows w
  /\ storage (draftAll cs purp resume replies i w).2 = storage w.
Proof.
  induction cs as [|c cs IH]; intros i w; simpl; [done|].
  pose proof (generateEmailForContact_world c purp resume (replies i) w) as [H1 H2].
  destruct (generateEmailForContact c purp resume (replies i) w) as [r w1].
  destruct (IH (S i) w1) as [H3 H4].
  destruct (draftAll cs purp resume replies (S i) w1) as [rs w2]. simpl in *.
  split; congruence.
Qed.

Lemma handleFileChange_history file rep s w :
  history (handleFileChange file rep s w).1 = history s
  /\ storage (handleFileChange file rep s w).2 = storage w.
Proof.
  destruct s. unfold handleFileChange. repeat case_match; simpl; try done.
  all: match goal with
       | H : parseResume ?f ?r ?w0 = (_, ?w1) |- _ =>
           pose proof (parseResume_world f r w0) as Hw; rewrite H in Hw;
           simpl in Hw; subst w1
       end; done.
Qed.

Lemma handleFindContacts_history rep s w :
  history (handleFindContacts rep s w).1 = history s
  /\ storage (handleFindContacts rep s w).2 = storage w.
Proof.
  unfold handleFindContacts.
  destruct (resumeData s) as [resume|]; [|by destruct s].
  destruct (nonEmpty (university s) && nonEmpty (department s)); [|by destruct s].
  pose proof (findContacts_world (university s) (department s) resume rep w) as [_ Hs].
  destruct (findContacts (university s) (department s) resume rep w) as [[l|e] w1];
    destruct s; simpl in *; done.
Qed.

Lemma handleGenerateEmails_history replies s w :
  history (handleGenerateEmails replies s w).1 = history s
  /\ storage (handleGenerateEmails replies s w).2 = storage w.
Proof.
  unfold handleGenerateEmails.
  destruct (resumeData s) as [resume|]; [|by destruct s].
  destruct (nonEmpty (purpose s) && negb (size (selectedContacts s) =? 0)%nat);
    [|by destruct s].
  pose proof (draftAll_world (contactsToEmail s) (purpose s) resume replies 0 w)
    as [_ Hs].
  destruct (draftAll (contactsToEmail s) (purpose s) resume replies 0 w) as [ps w1].
  destruct (promiseAll ps); destruct s; simpl in *; done.
Qed.

Lemma sendLoop_storage now rest : forall i cur entries w,
  storage (sendLoop rest i now cur entries w).2 = storage w.
Proof.
  induction rest as [|e rest IH]; intros i cur entries w; simpl; [done|].
  destruct (email_sent e); simpl; [apply IH|].
  destruct (mailtoLink e); simpl; [|done]. by rewrite IH.
Qed.

(** Dispatch puts its new records in front and stores what it shows. *)
Lemma handleSendAll_history now s w :
  exists new,
    history (handleSendAll now s w).1.2 = new ++ history s
    /\ ((new = [] /\ storage (handleSendAll now s w).2 = storage w)
        \/ storage (handleSendAll now s w).2
           = Some (history (handleSendAll now s w).1.2)).
Proof.
  unfold handleSendAll.
  pose proof (sendLoop_storage now (emails s) 0 (emails s) [] w) as Hs.
  destruct (sendLoop (emails s) 0 now (emails s) [] w) as [[[new|e] cur] w1].
  - destruct new as [|h new]; simpl.
    + exists []. destruct s; simpl in *. split; [done|by left].
    + exists (h :: new). destruct s; simpl in *. split; [done|by right].
  - exists []. destruct s; simpl in *. split; [done|by left].
Qed.

Lemma step_history ev s w :
  clears ev = false ->
  exists new, history (step ev (s, w)).1 = new ++ history s.
Proof.
  intros Hev.
  destruct ev; simpl in *; try (exists []; by destruct s).
  - exists []. apply handleFileChange_history.
  - exists []. apply handleFindContacts_history.
  - exists []. destruct (contacts s !! index); [|done].
    unfold onContactChange, handleContactSelection.
    destruct s; simpl; by repeat case_match.
  - exists []. apply handleGenerateEmails_history.
  - exists []. unfold handleEmailChange.
    destruct (changeBody index newBody (emails s)); by destruct s.
  - destruct (handleSendAll_history now s w) as (new & Hnew & _).
    exists new. by destruct (handleSendAll now s w) as [[? ?] ?].
  - subst confirmed. by exists [].
  - exists []. unfold handleBack. destruct s; simpl. by case_match.
Qed.

Lemma step_storeInSync ev sw : storeInSync sw -> storeInSync (step ev sw).
Proof.
  destruct sw as [s w]. unfold storeInSync. simpl. intros Hsync.
  assert (Hsame : forall s' w', history s' = history s -> storage w' = storage w ->
                  history s' = default [] (storage w')).
  { intros s' w' -> ->. done. }
  destruct ev; simpl; try (by apply Hsame; destruct s).
  - apply Hsame; apply handleFileChange_history.
  - apply Hsame; apply handleFindContacts_history.
  - destruct (contacts s !! index); simpl; [|done]. apply Hsame; [|done].
    unfold onContactChange, handleContactSelection.
    destruct s; simpl; by repeat case_match.
  - apply Hsame; apply handleGenerateEmails_history.
  - unfold handleEmailChange.
    destruct (changeBody index newBody (emails s)); simpl; [|done].
    apply Hsame; [by destruct s|done].
  - destruct (handleSendAll_history now s w) as (new & Hnew & [[-> Hs]|Hs]).
    + destruct (handleSendAll now s w) as [[? s'] w']. simpl in *.
      by apply Hsame.
    + destruct (handleSendAll now s w) as [[? s'] w']. simpl in *.
      by rewrite Hs.
  - destruct confirmed; simpl; [by destruct s|done].
  - apply Hsame; [|done]. unfold handleBack. destruct s; simpl. by case_match.
Qed.

End HistoryFacts.

(** X14.  The history on the page is the history in the store: from the
    first render on, after any sequence of events, the history list equals
    what the entry of [localStorage] holds (the empty list when there is
    no entry). *)
Theorem history_store_in_sync {rt : Runtime} (evs : list event) (w : World)
    (dark : bool) :
  storeInSync (run evs (initialState w dark, w)).
Proof.
  assert (H : forall sw, storeInSync sw -> storeInSync (run evs sw)).
  { induction evs as [|ev evs IH]; intros sw Hsw; [done|].
    rewrite run_cons. by apply IH, step_storeInSync. }
  by apply H.
Qed.

(** X15.  The history is append-only: over any sequence of events in which
    the user does not confirm a clearing, the history there was is still
    there, unchanged and in the same order, behind the records that were
    added; a confirmed clearing leaves an empty history and no entry in the
    store, a declined one leaves everything as it is. *)
Theorem history_append_only {rt : Runtime} :
  (forall evs s w, Forall (fun ev => clears ev = false) evs ->
     exists new, history (run evs (s, w)).1 = new ++ history s)
  /\ (forall s w, history (handleClearHistory true s w).1 = []
                  /\ storage (handleClearHistory true s w).2 = None)
  /\ (forall s w, handleClearHistory false s w = (s, w)).
Proof.
  split_and!.
  - induction evs as [|ev evs IH]; intros s w Hevs; [by exists []|].
    apply Forall_cons in Hevs as [Hev Hevs]. rewrite run_cons.
    destruct (step_history ev s w Hev) as (new1 & H1).
    destruct (step ev (s, w)) as [s1 w1]. simpl in H1.
    destruct (IH s1 w1 Hevs) as (new2 & H2).
    exists (new2 ++ new1). by rewrite H2, H1, app_assoc.
  - intros s w. by destruct s.
  - done.
Qed.

Lemma history_append_only_witness :
  let h := {| history_to := js "z@x"; history_subject := js "Old";
              history_body := js "Old body"; history_dateSent := js "t0" |} in
  let e1 := {| email_to := js "a@x"; email_subject := js "S1";
               email_body := js "B1"; email_sent := false |} in
  let s := setEmails [e1] (setHistory [h] (initialState Sample.world false)) in
  let evs := [SendAll (fun _ => js "t1"); ClearHistory false; Back] in
  exists new, history (run evs (s, Sample.world)).1 = new ++ [h].
Proof.
  intros h e1 s evs.
  destruct history_append_only as (H & _).
  apply (H evs s Sample.world). by repeat constructor.
Defined.

(** *** More on drafting a batch *)

Section BatchMore.
Context {rt : Runtime}.

Lemma size_list_to_set_le (l : list jsstring) :
  (size (list_to_set l : gset jsstring) <= length l)%nat.
Proof.
  induction l as [|x l IH].
  { change (list_to_set [] : gset jsstring) with (∅ : gset jsstring).
    rewrite size_empty. simpl. lia. }
  change (list_to_set (x :: l) : gset jsstring)
    with ({[x]} ∪ list_to_set l : gset jsstring).
  rewrite size_union_alt, size_singleton. simpl length.
  assert (Hsub : list_to_set l ∖ {[x]} ⊆ (list_to_set l : gset jsstring))
    by set_solver.
  apply subseteq_size in Hsub. lia.
Qed.

(** Under the invariant of the selection, the selection is the set of the
    addresses of the batch. *)
Lemma selection_of_batch s :
  selectionInv s ->
  selectedContacts s = list_to_set (map emailOf (contactsToEmail s)).
Proof.
  intros Hinv. apply set_eq. intros e.
  rewrite elem_of_list_to_set, list_elem_of_In, in_map_iff. split.
  - intros He. destruct (Hinv e He) as (p & Hp & Hemail & Hne).
    assert (Hhas : hasEmail p = true).
    { unfold hasEmail. rewrite Hemail. by destruct e. }
    assert (Hof : emailOf p = e) by (unfold emailOf; by rewrite Hemail).
    exists p. split; [done|].
    apply list_elem_of_In. unfold contactsToEmail.
    apply list_elem_of_filter. by rewrite Hof.
  - intros (p & <- & Hp). apply list_elem_of_In in Hp.
    pose proof (contactsToEmail_hasEmail s) as H. rewrite Forall_forall in H.
    by destruct (H p Hp) as (_ & Hsel & _).
Qed.

End BatchMore.

(** X16.  Every request of a batch is sent, whatever the others come to:
    when the step is entered and the prompt can be built, the requests
    logged are the requests there were followed by one drafting request per
    contact of the batch, in list order, for any replies; the step opens no
    window and does not touch the store.  When the entry check fails, the
    world is untouched. *)
Theorem batch_requests {rt : Runtime} (replies : nat -> reply) (s : AppState)
    (w : World) :
  ((resumeData s = None \/ purpose s = [] \/ selectedContacts s = ∅) ->
     (handleGenerateEmails replies s w).2 = w)
  /\ (forall resume, resumeData s = Some resume -> purpose s <> [] ->
        selectedContacts s <> ∅ ->
        requests (handleGenerateEmails replies s w).2
        = requests w ++
          (if emailPromptOk resume
           then map (fun c => ReqDraftEmail c (purpose s) resume) (contactsToEmail s)
           else [])
        /\ windows (handleGenerateEmails replies s w).2 = windows w
        /\ storage (handleGenerateEmails replies s w).2 = storage w).
Proof.
  split.
  - intros H. by rewrite handleGenerateEmails_guard.
  - intros resume Hres Hp Hsel.
    rewrite (handleGenerateEmails_run replies s w resume) by done. simpl.
    split; [apply draftAll_requests|apply draftAll_world].
Qed.

Lemma batch_requests_witness :
  let s := setSelectedContacts {[js "ada@uni.example"; js "kim@uni.example"]}
             (setContacts [Sample.ada; Sample.bob; Sample.kim]
                (setResumeData (Some Sample.resume)
                   (setCurrentStep Select (initialState Sample.world false)))) in
  let replies := fun i : nat => match i with O => Rejected | _ => Reply (js "{}") end in
  length (requests (handleGenerateEmails replies s Sample.world).2) = 2%nat.
Proof.
  intros s replies.
  assert (Hbatch : contactsToEmail s = [Sample.ada; Sample.kim]).
  { unfold contactsToEmail. simpl.
    rewrite filter_cons_True by (split; [done|set_solver]).
    rewrite filter_cons_False by (by intros [? _]).
    rewrite filter_cons_True by (split; [done|set_solver]). done. }
  destruct (batch_requests replies s Sample.world) as (_ & H).
  destruct (H Sample.resume) as (Hreq & _); [done|done|set_solver|].
  rewrite Hreq, Hbatch. done.
Defined.

(** X17.  The button says [Generate k Emails] with [k] the size of the
    selection.  In a state that keeps the invariant of the selection (every
    state of a session does), the batch has at least [k] contacts, and
    exactly [k] when no two contacts of the batch share an address;
    contacts that share a selected address are all drafted for. *)
Theorem batch_size {rt : Runtime} (s : AppState) :
  selectionInv s ->
  (size (selectedContacts s) <= length (contactsToEmail s))%nat
  /\ (NoDup (map emailOf (contactsToEmail s)) ->
      size (selectedContacts s) = length (contactsToEmail s)).
Proof.
  intros Hinv. rewrite (selection_of_batch s Hinv) at 1 2. split.
  - etrans; [apply size_list_to_set_le|]. by rewrite length_map.
  - intros Hnd. by rewrite size_list_to_set, length_map.
Qed.

Lemma batch_size_witness :
  let twin := {| contact_name := js "Ada B."; contact_title := js "Chair";
                 contact_email := Some (js "ada@uni.example");
                 contact_researchInterests := js "Engines";
                 contact_labWebsite := None; contact_recentPublication := None;
                 contact_linkedinProfile := None |} in
  let s := setSelectedContacts {[js "ada@uni.example"]}
             (setContacts [Sample.ada; twin] (initialState Sample.world false)) in
  (size (selectedContacts s) <= length (contactsToEmail s))%nat
  /\ size (selectedContacts s) = 1%nat
  /\ length (contactsToEmail s) = 2%nat.
Proof.
  intros twin s.
  assert (Hinv : selectionInv s).
  { intros e He. simpl in He. apply elem_of_singleton in He as ->.
    exists Sample.ada. split; [simpl; set_solver|done]. }
  destruct (batch_size s Hinv) as [Hle _].
  split; [exact Hle|]. split; [by vm_compute|].
  unfold contactsToEmail. simpl.
  rewrite filter_cons_True by (split; [done|set_solver]).
  rewrite filter_cons_True by (split; [done|set_solver]). done.
Defined.

(** *** Uploading *)

Lemma eqbs_eq a b : eqbs a b = true <-> a = b.
Proof.
  revert b; induction a as [|x a IH]; intros [|y b]; simpl; try done.
  rewrite andb_true_iff, N.eqb_eq, IH. split; [by intros [-> ->]|by intros [= -> ->]].
Qed.

(** X18.  [handleFileChange] never touches the step, the target, the
    contacts, the selection, the drafts or the history.  Without a file, or
    with a file that is not a PDF, it reports an error, drops the resume
    facts and sends nothing.  With a PDF whose data URL has a payload it
    sends exactly one request and ends with [isParsingResume] reset: the
    resume facts are the parsed ones when the extraction succeeds, and none
    with an error reported when it fails.  With a PDF whose data URL has no
    payload it sends nothing, and [isParsingResume] stays set. *)
Theorem handleFileChange_outcomes {rt : Runtime} (file : option Upload)
    (rep : reply) (s : AppState) (w : World) :
  let s' := (handleFileChange file rep s w).1 in
  let w' := (handleFileChange file rep s w).2 in
  (currentStep s' = currentStep s /\ university s' = university s
   /\ department s' = department s /\ purpose s' = purpose s
   /\ contacts s' = contacts s /\ selectedContacts s' = selectedContacts s
   /\ emails s' = emails s /\ history s' = history s)
  /\ ((file = None \/ exists f, file = Some f /\ upload_type f <> pdfType) ->
      w' = w /\ resumeData s' = None /\ error s' = Some msgNotPdf)
  /\ (forall f, file = Some f -> upload_type f = pdfType ->
      match upload_base64 f with
      | Some (c :: b) =>
          let rawFile := {| file_name := upload_name f;
                            file_mimeType := upload_type f;
                            file_data := c :: b |} in
          w' = logRequest (ReqParseResume rawFile) w
          /\ isParsingResume s' = false
          /\ match (parseResume rawFile rep w).1 with
             | Ok parsedData => resumeData s' = Some parsedData /\ error s' = None
             | Err _ => resumeData s' = None /\ error s' = Some msgParseFailed
             end
      | _ => w' = w /\ isParsingResume s' = true
             /\ resumeData s' = None /\ error s' = None
      end).
Proof.
  simpl. split; [|split].
  - destruct s. unfold handleFileChange. repeat case_match; simpl; done.
  - intros [->|(f & -> & Hf)]; [by destruct s|].
    unfold handleFileChange.
    destruct (eqbs (upload_type f) pdfType) eqn:E; [by apply eqbs_eq in E|].
    by destruct s.
  - intros f -> Hf. unfold handleFileChange.
    rewrite (proj2 (eqbs_eq _ _) Hf).
    destruct (upload_base64 f) as [[|c b]|]; try (by destruct s).
    unfold parseResume. simpl.
    destruct (_ ≫= _); destruct s; simpl; done.
Qed.

Lemma handleFileChange_outcomes_witness :
  let text := js "notes.txt" in
  let f := {| upload_name := text; upload_type := js "text/plain";
              upload_base64 := Some (js "aGk=") |} in
  let s := setResumeData (Some Sample.resume) (initialState Sample.world false) in
  resumeData (handleFileChange (Some f) (Reply (js "{}")) s Sample.world).1 = None
  /\ (handleFileChange (Some f) (Reply (js "{}")) s Sample.world).2 = Sample.world.
Proof.
  intros text f s.
  destruct (handleFileChange_outcomes (Some f) (Reply (js "{}")) s Sample.world)
    as (_ & H & _).
  destruct H as (Hw & Hres & _); [right; by exists f|].
  by split.
Defined.

(** ** The page *)

Section PageFacts.
Context {rt : Runtime}.

Lemma onStep_inv st s : onStep st s = true -> currentStep s = st /\ view s = AppView.
Proof. unfold onStep. by destruct (view s), (currentStep s), st. Qed.

Lemma uiRun_cons ev evs sw : uiRun (ev :: evs) sw = uiRun evs (uiStep ev sw).
Proof. reflexivity. Qed.

End PageFacts.

(** ** The wizard while its handlers wait *)

Section SessionFacts.
Context {rt : Runtime}.

Lemma session_cons i inputs p : session (i :: inputs) p = session inputs (turn i p).
Proof. reflexivity. Qed.

Lemma discovered_app a more : discovered a -> discovered (a ++ more).
Proof. intros H. apply Exists_app. by left. Qed.

Lemma drafted_app a more : drafted a -> drafted (a ++ more).
Proof. intros H. apply Exists_app. by left. Qed.

Lemma backed_app a more wt : backed a wt -> backed (a ++ more) wt.
Proof. destruct wt; simpl; auto using discovered_app, drafted_app. Qed.

Lemma findContacts_requests uni dept resume rep w :
  requests (findContacts uni dept resume rep w).2
  = requests w ++ (if contactsPromptOk resume
                   then [ReqFindContacts uni dept resume] else []).
Proof.
  unfold findContacts, contactsPromptOk.
  destruct (contactsPrompt resume); simpl; [done|by rewrite app_nil_r].
Qed.

Lemma sessionInv_shown n' p :
  nav_currentStep n' = nav_currentStep (shown p) ->
  nav_contacts n' = nav_contacts (shown p) ->
  nav_selectedContacts n' = nav_selectedContacts (shown p) ->
  sessionInv p ->
  sessionInv {| shown := n'; asked := asked p; waiting := waiting p |}.
Proof.
  intros Hst Hc Hs (H1 & H2 & H3 & H4 & H5 & H6 & H7).
  unfold sessionInv, navSelectionInv. simpl. rewrite Hst, Hc, Hs. by split_and!.
Qed.

Lemma sessionInv_asked more p :
  Forall complete more -> (drafted more -> discovered (asked p)) ->
  sessionInv p ->
  sessionInv {| shown := shown p; asked := asked p ++ more; waiting := waiting p |}.
Proof.
  intros Hmore Hd (H1 & H2 & H3 & H4 & H5 & H6 & H7).
  unfold sessionInv. simpl. split_and!.
  - done.
  - by apply Forall_app.
  - intros H. by apply discovered_app, H3.
  - intros H. by apply drafted_app, H4.
  - intros H. by apply discovered_app, H5.
  - intros [H|H]%Exists_app; apply discovered_app; auto.
  - eapply Forall_impl; [exact H7|]. intros wt. apply backed_app.
Qed.

Lemma sessionInv_await wt p :
  backed (asked p) wt -> sessionInv p -> sessionInv (await wt p).
Proof.
  intros Hb (H1 & H2 & H3 & H4 & H5 & H6 & H7).
  unfold sessionInv, await. simpl. split_and!; try done.
  apply Forall_app. split; [done|by constructor].
Qed.

Lemma sessionInv_delete k p :
  sessionInv p ->
  sessionInv {| shown := shown p; asked := asked p; waiting := delete k (waiting p) |}.
Proof.
  intros (H1 & H2 & H3 & H4 & H5 & H6 & H7).
  unfold sessionInv. simpl. split_and!; try done. by apply Forall_delete.
Qed.

Lemma isOk_promiseAll {A} (l : list (result A)) :
  isOk (promiseAll l) = forallb isOk l.
Proof.
  induction l as [|[a|e] l IH]; simpl; try done.
  rewrite <- IH. by destruct (promiseAll l).
Qed.

(** When the prompt cannot be built none of the promises of a batch is
    fulfilled. *)
Lemma draftAll_noPrompt cs purp resume replies : forall i w,
  emailPromptOk resume = false ->
  forallb isOk (draftAll cs purp resume replies i w).1 = match cs with [] => true | _ => false end.
Proof.
  destruct cs as [|c cs]; intros i w Hprompt; [done|]. simpl.
  rewrite generateEmailForContact_noPrompt by done.
  by destruct (draftAll cs purp resume replies (S i) w).
Qed.

Lemma navContactsToEmail_hasEmail n :
  Forall (fun p => hasEmail p = true) (navContactsToEmail n).
Proof.
  apply Forall_forall. intros p Hp. unfold navContactsToEmail in Hp.
  by apply list_elem_of_filter in Hp as [[H1 H2] H3].
Qed.

(** A selection that is not empty gives a batch that is not empty. *)
Lemma navContactsToEmail_nonempty n :
  navSelectionInv n -> nav_selectedContacts n <> ∅ -> navContactsToEmail n <> [].
Proof.
  intros Hinv Hne. apply set_choose_L in Hne as [e He].
  destruct (Hinv e He) as (p & Hp & Hemail & Hnee). intros E.
  assert (Hin : p ∈ navContactsToEmail n).
  { unfold navContactsToEmail. apply list_elem_of_filter. split; [split|done].
    - unfold hasEmail. rewrite Hemail. by destruct e.
    - unfold emailOf. by rewrite Hemail. }
  rewrite E in Hin. by apply elem_of_nil in Hin.
Qed.

Lemma continue_sessionInv wt p :
  backed (asked p) wt -> sessionInv p -> sessionInv (continue wt p).
Proof.
  intros Hb Hinv. destruct wt as [f rep|parsed|found|ps]; simpl.
  - destruct (upload_base64 f) as [[|c b]|]; try done.
    set (rawFile := {| file_name := upload_name f; file_mimeType := upload_type f;
                       file_data := c :: b |}).
    change (sessionInv
              (await (Parsing (parseResume rawFile rep (logged (asked p))).1)
                 {| shown := shown p; asked := asked p ++ [ReqParseResume rawFile];
                    waiting := waiting p |})).
    apply sessionInv_await; [done|].
    apply sessionInv_asked; [by repeat constructor| |done].
    intros H. apply Exists_cons in H as [H|H]; [done|by apply Exists_nil in H].
  - destruct p as [n a wl]. unfold navigate. simpl.
    apply (sessionInv_shown _ {| shown := n; asked := a; waiting := wl |});
      try done; destruct parsed, n; done.
  - destruct found as [result|e].
    + destruct Hinv as (H1 & H2 & H3 & H4 & H5 & H6 & H7).
      destruct p as [n a wl]. unfold sessionInv, navigate. simpl in *.
      destruct n. simpl in *. split_and!; try done.
      intros e He. by apply initial_selection in He.
    + destruct p as [n a wl]. unfold navigate. simpl.
      apply (sessionInv_shown _ {| shown := n; asked := a; waiting := wl |});
        try done; by destruct n.
  - destruct p as [n a wl]. unfold navigate. simpl.
    destruct (promiseAll ps) as [ds|e].
    + destruct Hinv as (H1 & H2 & H3 & H4 & H5 & H6 & H7).
      unfold sessionInv. simpl in *. destruct n. simpl in *.
      split_and!; try done. intros _. by apply H6.
    + apply (sessionInv_shown _ {| shown := n; asked := a; waiting := wl |});
        try done; by destruct n.
Qed.

Lemma press_sessionInv ev p : sessionInv p -> sessionInv (press ev p).
Proof.
  intros Hinv.
  assert (Hnav : forall f,
            (forall n, nav_currentStep (f n) = nav_currentStep n) ->
            (forall n, nav_contacts (f n) = nav_contacts n) ->
            (forall n, nav_selectedContacts (f n) = nav_selectedContacts n) ->
            sessionInv (navigate f p)).
  { intros f Hst Hc Hs. by apply (sessionInv_shown _ p). }
  destruct ev; simpl; try done.
  - apply Hnav; intros []; done.
  - apply Hnav; intros []; done.
  - apply Hnav; intros []; done.
  - destruct file as [f|]; [|apply Hnav; intros []; done].
    destruct (eqbs (upload_type f) pdfType); [|apply Hnav; intros []; done].
    apply sessionInv_await; [done|]. apply Hnav; intros []; done.
  - destruct (nav_resumeData (shown p)) as [resume|] eqn:Hres;
      [|apply Hnav; intros []; done].
    destruct (nonEmpty (nav_university (shown p))
              && nonEmpty (nav_department (shown p))) eqn:Hguard;
      [|apply Hnav; intros []; done].
    apply andb_prop in Hguard as [Hu Hd].
    pose proof (findContacts_requests (nav_university (shown p))
                  (nav_department (shown p)) resume rep (logged (asked p))) as Hreq.
    pose proof (findContacts_noPrompt (nav_university (shown p))
                  (nav_department (shown p)) resume rep (logged (asked p))) as Hno.
    destruct (findContacts _ _ _ _ _) as [found w1]. simpl in Hreq. rewrite Hreq.
    assert (Hp1 : sessionInv
              {| shown := navError None (navIsLoading true (shown p));
                 asked := asked p
                          ++ (if contactsPromptOk resume
                              then [ReqFindContacts (nav_university (shown p))
                                      (nav_department (shown p)) resume]
                              else []);
                 waiting := waiting p |}).
    { apply (sessionInv_shown _
               {| shown := shown p;
                  asked := asked p
                           ++ (if contactsPromptOk resume
                               then [ReqFindContacts (nav_university (shown p))
                                       (nav_department (shown p)) resume]
                               else []);
                  waiting := waiting p |}); try (by destruct (shown p)).
      apply sessionInv_asked; [| |done].
      - destruct (contactsPromptOk resume); repeat constructor.
        + by destruct (nav_university (shown p)).
        + by destruct (nav_department (shown p)).
      - destruct (contactsPromptOk resume); intros H.
        + apply Exists_cons in H as [H|H]; [done|by apply Exists_nil in H].
        + by apply Exists_nil in H. }
    destruct (contactsPromptOk resume) eqn:Hprompt.
    + apply sessionInv_await; [|done]. simpl. apply Exists_app. right.
      by constructor.
    + injection (Hno eq_refl) as -> _. unfold navigate. simpl.
      apply (sessionInv_shown _
               {| shown := navError None (navIsLoading true (shown p));
                  asked := asked p ++ []; waiting := waiting p |});
        try done; by destruct (shown p).
  - destruct (nav_contacts (shown p) !! index) as [contact|] eqn:Hc; [|done].
    destruct (hasEmail contact) eqn:Hhas; [|done].
    destruct Hinv as (H1 & H2 & H3 & H4 & H5 & H6 & H7).
    destruct p as [n a wl]. unfold sessionInv, navigate. simpl in *.
    assert (Hsel : navSelectionInv
              (navSelectedContacts
                 (if decide (emailOf contact ∈ nav_selectedContacts n)
                  then nav_selectedContacts n ∖ {[emailOf contact]}
                  else nav_selectedContacts n ∪ {[emailOf contact]}) n)).
    { apply hasEmail_email in Hhas as [Hemail Hne].
      intros e He.
      assert (Hcases : e ∈ nav_selectedContacts n \/ e = emailOf contact).
      { destruct n; simpl in *.
        destruct (decide (emailOf contact ∈ nav_selectedContacts0)).
        - apply elem_of_difference in He as [He _]. by left.
        - apply elem_of_union in He as [He|He]; [by left|].
          apply elem_of_singleton in He. by right. }
      destruct Hcases as [He'|Heq].
      - destruct (H1 e He') as (q & Hq & Hqe). exists q. by destruct n.
      - subst e. exists contact. split; [|done].
        apply list_elem_of_lookup_2 in Hc. by destruct n. }
    destruct n; simpl in *. by split_and!.
  - destruct (nav_resumeData (shown p)) as [resume|] eqn:Hres;
      [|apply Hnav; intros []; done].
    destruct (nonEmpty (nav_purpose (shown p))
              && negb (size (nav_selectedContacts (shown p)) =? 0)%nat) eqn:Hguard;
      [|apply Hnav; intros []; done].
    apply andb_prop in Hguard as [Hpurpose Hsize].
    assert (Hsel : nav_selectedContacts (shown p) <> ∅).
    { intros E. rewrite E, size_empty in Hsize. done. }
    pose proof Hinv as (H1 & H2 & H3 & H4 & H5 & H6 & H7).
    pose proof (navContactsToEmail_nonempty _ H1 Hsel) as Hbatch.
    assert (Hfound : discovered (asked p)).
    { apply H5. intros E. apply Hbatch. unfold navContactsToEmail. by rewrite E. }
    pose proof (draftAll_requests (navContactsToEmail (shown p))
                  (nav_purpose (shown p)) resume replies 0 (logged (asked p))) as Hreq.
    pose proof (draftAll_noPrompt (navContactsToEmail (shown p))
                  (nav_purpose (shown p)) resume replies 0 (logged (asked p))) as Hno.
    destruct (draftAll _ _ _ _ _ _) as [ps w1]. simpl in Hreq, Hno. rewrite Hreq.
    set (more := if emailPromptOk resume
                 then map (fun c => ReqDraftEmail c (nav_purpose (shown p)) resume)
                          (navContactsToEmail (shown p))
                 else []).
    assert (Hp1 : sessionInv
              {| shown := navError None (navIsGeneratingEmails true (shown p));
                 asked := asked p ++ more; waiting := waiting p |}).
    { apply (sessionInv_shown _
               {| shown := shown p; asked := asked p ++ more;
                  waiting := waiting p |}); try (by destruct (shown p)).
      apply sessionInv_asked; [|done|done].
      unfold more. destruct (emailPromptOk resume); [|constructor].
      apply Forall_fmap.
      eapply Forall_impl; [apply navContactsToEmail_hasEmail|].
      intros c Hc. simpl. split; [|done]. by destruct (nav_purpose (shown p)). }
    destruct (emailPromptOk resume) eqn:Hprompt; simpl.
    + destruct (navContactsToEmail (shown p)) as [|c cs] eqn:E; [done|]. simpl.
      apply sessionInv_await; [|done]. simpl. apply Exists_app. right.
      unfold more. simpl. by constructor.
    + assert (Herr : isOk (promiseAll ps) = false).
      { rewrite isOk_promiseAll, Hno by done.
        by destruct (navContactsToEmail (shown p)). }
      unfold continue.
      destruct (promiseAll ps) as [ds|e]; [done|].
      unfold navigate. simpl.
      apply (sessionInv_shown _
               {| shown := navError None (navIsGeneratingEmails true (shown p));
                  asked := asked p ++ more; waiting := waiting p |});
        try done; by destruct (shown p).
  - destruct Hinv as (H1 & H2 & H3 & H4 & H5 & H6 & H7).
    destruct p as [n a wl]. simpl in *.
    destruct (nav_currentStep n) eqn:Hst; unfold sessionInv, navigate; simpl;
      [rewrite Hst; by split_and!| |].
    + destruct n; simpl in *. by split_and!.
    + destruct n; simpl in *. split_and!; try done. intros _. by apply H3.
Qed.

Lemma turn_sessionInv i p : sessionInv p -> sessionInv (turn i p).
Proof.
  intros Hinv. destruct i as [ev|k]; simpl; [by apply press_sessionInv|].
  unfold wake. destruct (waiting p !! k) as [wt|] eqn:Hk; [|done].
  apply continue_sessionInv; [|by apply sessionInv_delete].
  destruct Hinv as (_ & _ & _ & _ & _ & _ & H7).
  by apply (Forall_lookup_1 _ _ _ _ H7 Hk).
Qed.

Lemma firstRender_sessionInv w dark : sessionInv (firstRender w dark).
Proof.
  unfold sessionInv, firstRender. simpl. split_and!; try done.
  intros H. by apply Exists_nil in H.
Qed.

Lemma session_sessionInv inputs : forall p,
  sessionInv p -> sessionInv (session inputs p).
Proof.
  induction inputs as [|i inputs IH]; intros p Hinv; [done|].
  rewrite session_cons. by apply IH, turn_sessionInv.
Qed.

Lemma discovered_inv asked :
  discovered asked -> exists u d r, ReqFindContacts u d r ∈ asked.
Proof.
  intros H. apply Exists_exists in H as (q & Hq & Hd).
  destruct q as [|u d r|]; try done. by exists u, d, r.
Qed.

Lemma drafted_inv asked :
  drafted asked -> exists c purp r, ReqDraftEmail c purp r ∈ asked.
Proof.
  intros H. apply Exists_exists in H as (q & Hq & Hd).
  destruct q as [| |c purp r]; try done. by exists c, purp, r.
Qed.

End SessionFacts.

(** *** Sessions in which nobody waits

    A handler run as one piece, as [step] runs it, is the session in which
    each wait ends at once: what [step] gives for the variables followed
    here and for the requests is what pressing gives when the waits it
    starts (two for a file, one for a discovery or a batch) end before
    anything else happens. *)

Section AtomicFacts.
Context {rt : Runtime}.

Lemma findContacts_outcome uni dept resume rep w w0 :
  (findContacts uni dept resume rep w).1 = (findContacts uni dept resume rep w0).1.
Proof. unfold findContacts. by destruct (contactsPrompt resume). Qed.

Lemma draftAll_outcome cs purp resume replies w0 : forall i w,
  (draftAll cs purp resume replies i w).1 = (draftAll cs purp resume replies i w0).1.
Proof.
  intros i w. apply list_eq. intros k.
  destruct (cs !! k) as [c|] eqn:Hk.
  - by rewrite (draftAll_lookup cs purp resume replies w0 i w k c Hk),
      (draftAll_lookup cs purp resume replies w0 i w0 k c Hk).
  - rewrite !lookup_ge_None_2; [done| |];
      rewrite draftAll_length; by apply lookup_ge_None_1.
Qed.

Lemma sendLoop_requests now rest : forall i cur entries w,
  requests (sendLoop rest i now cur entries w).2 = requests w.
Proof.
  induction rest as [|e rest IH]; intros i cur entries w; simpl; [done|].
  destruct (email_sent e); simpl; [apply IH|].
  destruct (mailtoLink e); simpl; [|done]. by rewrite IH.
Qed.

Lemma handleSendAll_nav now s w :
  nav (handleSendAll now s w).1.2 = nav s
  /\ requests (handleSendAll now s w).2 = requests w.
Proof.
  unfold handleSendAll.
  pose proof (sendLoop_requests now (emails s) 0 (emails s) [] w) as Hreq.
  destruct (sendLoop (emails s) 0 now (emails s) [] w) as [[outcome cur] w1].
  simpl in Hreq. destruct outcome as [entries|e]; simpl.
  - destruct (0 <? length entries)%nat; simpl; split; try done; by destruct s.
  - split; [by destruct s|done].
Qed.

Lemma atomic_session ev s w p :
  shown p = nav s -> asked p = requests w -> waiting p = [] ->
  let p' := wake 0 (wake 0 (press ev p)) in
  shown p' = nav (step ev (s, w)).1
  /\ asked p' = requests (step ev (s, w)).2
  /\ waiting p' = [].
Proof.
  destruct p as [n a wl]. simpl. intros -> -> ->.
  destruct s as [st res u d pu cs sel em hi vi lo pa ge se er da].
  destruct ev; unfold nav; simpl;
    try (unfold wake, navigate, await; simpl; done).
  - unfold handleFileChange.
    destruct file as [f|]; [|unfold wake, navigate, await; simpl; done].
    destruct (eqbs (upload_type f) pdfType);
      [|unfold wake, navigate, await; simpl; done].
    unfold wake, navigate, await. simpl.
    destruct (upload_base64 f) as [[|c b]|]; simpl; try done.
    destruct rep as [text|]; simpl; [|done].
    unfold mbind, result_bind. simpl.
    by destruct (parseResume_try _ text).
  - unfold handleFindContacts. simpl.
    destruct res as [resume|]; [|unfold wake, navigate, await; simpl; done].
    destruct (nonEmpty u && nonEmpty d);
      [|unfold wake, navigate, await; simpl; done].
    pose proof (findContacts_requests u d resume rep (logged (requests w))) as Hreq1.
    pose proof (findContacts_requests u d resume rep w) as Hreq2.
    pose proof (findContacts_outcome u d resume rep (logged (requests w)) w) as Hout.
    destruct (findContacts u d resume rep (logged (requests w))) as [found w1].
    destruct (findContacts u d resume rep w) as [found' w2].
    simpl in *. subst found'. rewrite Hreq1, Hreq2.
    destruct (contactsPromptOk resume); unfold wake, navigate, await; simpl;
      by destruct found.
  - destruct (cs !! index) as [contact|]; simpl;
      [|unfold wake; simpl; done].
    unfold onContactChange, handleContactSelection.
    destruct (hasEmail contact); simpl; [|unfold wake; simpl; done].
    unfold wake, navigate. simpl.
    by destruct (decide (emailOf contact ∈ sel)).
  - unfold handleGenerateEmails. simpl.
    destruct res as [resume|]; [|unfold wake, navigate, await; simpl; done].
    destruct (nonEmpty pu && negb (size sel =? 0)%nat);
      [|unfold wake, navigate, await; simpl; done].
    set (batch := filter (fun p => hasEmail p = true ∧ emailOf p ∈ sel) cs).
    change (navContactsToEmail _) with batch.
    change (contactsToEmail _) with batch.
    pose proof (draftAll_requests batch pu resume replies 0 (logged (requests w)))
      as Hreq1.
    pose proof (draftAll_requests batch pu resume replies 0 w) as Hreq2.
    pose proof (draftAll_outcome batch pu resume replies w 0 (logged (requests w)))
      as Hout.
    destruct (draftAll batch pu resume replies 0 (logged (requests w))) as [ps w1].
    destruct (draftAll batch pu resume replies 0 w) as [ps' w2].
    simpl in *. subst ps'. rewrite Hreq1, Hreq2.
    destruct (emailPromptOk resume && (0 <? length batch)%nat);
      unfold wake, navigate, await; simpl; by destruct (promiseAll ps).
  - unfold handleEmailChange, wake. simpl.
    by destruct (changeBody index newBody em).
  - pose proof (handleSendAll_nav now
                  (Build_AppState st res u d pu cs sel em hi vi lo pa ge se er da) w)
      as [H1 H2].
    destruct (handleSendAll now _ w) as [[? s'] w']. simpl in *.
    unfold wake. simpl. fold (nav s'). by rewrite H1, H2.
  - unfold wake. simpl. by destruct confirmed.
  - unfold handleBack. simpl.
    destruct st; unfold wake, navigate; simpl; done.
Qed.

End AtomicFacts.

(** X19.  Whatever the order in which the user's events and the ends of
    the waits come, from the first render on: the selection holds only
    addresses of contacts of the list that have one; every request was made
    with the data its handler checks for (a file with data; a university and
    a department; a purpose and a contact with an address); the wizard is
    past [Input] only after a discovery was requested, and on [Review] only
    after a draft was requested.  (The university, the department and the
    purpose shown may have been emptied since: the inputs stay open while a
    handler waits.) *)
Theorem session_invariant {rt : Runtime} (inputs : list input) (w : World)
    (dark : bool) :
  let p := session inputs (firstRender w dark) in
  navSelectionInv (shown p)
  /\ Forall complete (asked p)
  /\ (nav_currentStep (shown p) <> Input ->
      exists u d r, ReqFindContacts u d r ∈ asked p /\ u <> [] /\ d <> [])
  /\ (nav_currentStep (shown p) = Review ->
      exists c purp r, ReqDraftEmail c purp r ∈ asked p
                       /\ purp <> [] /\ hasEmail c = true).
Proof.
  simpl.
  destruct (session_sessionInv inputs (firstRender w dark)
              (firstRender_sessionInv w dark)) as (H1 & H2 & H3 & H4 & _).
  split_and!; try done.
  - intros Hst. destruct (discovered_inv _ (H3 Hst)) as (u & d & r & Hin).
    exists u, d, r. split; [done|].
    rewrite Forall_forall in H2. exact (H2 _ Hin).
  - intros Hst. destruct (drafted_inv _ (H4 Hst)) as (c & purp & r & Hin).
    exists c, purp, r. split; [done|].
    rewrite Forall_forall in H2. exact (H2 _ Hin).
Qed.

(** The theorem on a session in which the user empties the university
    while the discovery is awaited, and goes back while the drafts are
    awaited: the wizard ends on [Review], the university shown is empty,
    and the requests were made with their data. *)
Lemma session_invariant_witness :
  let found := jsq "[{'name': 'Ada', 'title': 'Prof', 'researchInterests': 'Engines', 'email': 'ada@uni.example'}]" in
  let inputs :=
    [Do (FileChange (Some {| upload_name := js "cv.pdf"; upload_type := pdfType;
                             upload_base64 := Some (js "JVBERi0x") |})
           (Reply (jsq "{'skills': ['Rocq'], 'projects': []}")));
     Wake 0; Wake 0;
     Do (ChangeUniversity (js "MIT")); Do (ChangeDepartment (js "Logic"));
     Do (FindContacts (Reply found)); Do (ChangeUniversity []); Wake 0;
     Do (GenerateEmails (fun _ => Reply (jsq "{'subject': 'Hello', 'body': 'Dear Ada'}")));
     Do Back; Wake 0] in
  let p := session inputs (firstRender Sample.world false) in
  nav_currentStep (shown p) = Review
  /\ nav_university (shown p) = []
  /\ exists u d r, ReqFindContacts u d r ∈ asked p /\ u <> [] /\ d <> [].
Proof.
  intros found inputs p.
  assert (Hst : nav_currentStep (shown p) = Review) by (by vm_compute).
  split; [exact Hst|]. split; [by vm_compute|].
  destruct (session_invariant inputs Sample.world false) as (_ & _ & H & _).
  apply H. fold p. by rewrite Hst.
Defined.

Section MoveFacts.
Context {rt : Runtime}.

Lemma continue_step wt p :
  nav_currentStep (shown (continue wt p))
  = match wt with
    | Finding (Ok _) => Select
    | Drafting emailPromises =>
        if isOk (promiseAll emailPromises) then Review
        else nav_currentStep (shown p)
    | _ => nav_currentStep (shown p)
    end.
Proof.
  destruct wt as [f rep|parsed|found|ps]; simpl.
  - by destruct (upload_base64 f) as [[|c b]|].
  - destruct parsed; by destruct (shown p).
  - destruct found; by destruct (shown p).
  - destruct (promiseAll ps); by destruct (shown p).
Qed.

(** But for [Back], the handler of an event leaves the step where it is, as
    far as it runs before the page takes another event. *)
Lemma press_step ev p :
  navSelectionInv (shown p) -> ev <> Back ->
  nav_currentStep (shown (press ev p)) = nav_currentStep (shown p).
Proof.
  intros Hinv Hev.
  destruct ev; simpl; try done; try (by destruct (shown p)).
  - destruct file as [f|]; [|simpl; by destruct (shown p)].
    destruct (eqbs (upload_type f) pdfType); simpl; by destruct (shown p).
  - destruct (nav_resumeData (shown p)) as [resume|];
      [|simpl; by destruct (shown p)].
    destruct (nonEmpty (nav_university (shown p))
              && nonEmpty (nav_department (shown p)));
      [|simpl; by destruct (shown p)].
    pose proof (findContacts_noPrompt (nav_university (shown p))
                  (nav_department (shown p)) resume rep (logged (asked p))) as Hno.
    destruct (findContacts _ _ _ _ _) as [found w1].
    destruct (contactsPromptOk resume); [simpl; by destruct (shown p)|].
    injection (Hno eq_refl) as -> _. simpl. by destruct (shown p).
  - destruct (nav_contacts (shown p) !! index) as [contact|]; [|done].
    destruct (hasEmail contact); [|done]. simpl. by destruct (shown p).
  - destruct (nav_resumeData (shown p)) as [resume|];
      [|simpl; by destruct (shown p)].
    destruct (nonEmpty (nav_purpose (shown p))
              && negb (size (nav_selectedContacts (shown p)) =? 0)%nat) eqn:Hguard;
      [|simpl; by destruct (shown p)].
    apply andb_prop in Hguard as [_ Hsize].
    assert (Hsel : nav_selectedContacts (shown p) <> ∅).
    { intros E. rewrite E, size_empty in Hsize. done. }
    pose proof (navContactsToEmail_nonempty _ Hinv Hsel) as Hbatch.
    pose proof (draftAll_noPrompt (navContactsToEmail (shown p))
                  (nav_purpose (shown p)) resume replies 0 (logged (asked p))) as Hno.
    destruct (draftAll _ _ _ _ _ _) as [ps w1]. simpl in Hno.
    destruct (emailPromptOk resume) eqn:Hprompt.
    + destruct (navContactsToEmail (shown p)) as [|c cs]; [done|]. simpl.
      by destruct (shown p).
    + assert (Herr : isOk (promiseAll ps) = false).
      { rewrite isOk_promiseAll, Hno by done.
        by destruct (navContactsToEmail (shown p)). }
      simpl. destruct (promiseAll ps); [done|]. by destruct (shown p).
Qed.

End MoveFacts.

(** X20.  Whatever the order in which the user's events and the ends of the
    waits come, the step changes in three ways only: [Back] moves it one
    step back; the end of the wait of a discovery that found a usable list
    sets it to [Select]; the end of the wait of a batch whose drafts all
    arrived sets it to [Review].  The last two do so whatever the step is
    then: the handlers do not look at it after their [await].  So a step
    can be skipped: [Back] pressed on [Select] while the drafts are awaited
    brings the wizard to [Input], and the drafts then bring it from [Input]
    to [Review]. *)
Theorem navigation {rt : Runtime} :
  (forall i p, navSelectionInv (shown p) ->
     let before := nav_currentStep (shown p) in
     let after := nav_currentStep (shown (turn i p)) in
     after = before
     \/ (i = Do Back /\ stepNumber after = stepNumber before - 1)
     \/ (exists k result,
           i = Wake k /\ waiting p !! k = Some (Finding (Ok result))
           /\ after = Select)
     \/ (exists k emailPromises drafts,
           i = Wake k /\ waiting p !! k = Some (Drafting emailPromises)
           /\ promiseAll emailPromises = Ok drafts /\ after = Review))
  /\ (forall p,
        stepNumber (nav_currentStep (shown (turn (Do Back) p)))
        = Z.max 1 (stepNumber (nav_currentStep (shown p)) - 1))
  /\ (forall k p result, waiting p !! k = Some (Finding (Ok result)) ->
        nav_currentStep (shown (turn (Wake k) p)) = Select)
  /\ (forall k p emailPromises drafts,
        waiting p !! k = Some (Drafting emailPromises) ->
        promiseAll emailPromises = Ok drafts ->
        nav_currentStep (shown (turn (Wake k) p)) = Review).
Proof.
  split_and!.
  - intros i p Hinv. simpl. destruct i as [ev|k].
    + assert (Hev : ev = Back \/ ev <> Back) by (destruct ev; auto).
      destruct Hev as [->|Hev]; [|left; by apply press_step].
      simpl. destruct (nav_currentStep (shown p)) eqn:Hst; [by left| |].
      * right. left. split; [done|]. unfold navigate. simpl. by destruct (shown p).
      * right. left. split; [done|]. unfold navigate. simpl. by destruct (shown p).
    + simpl. unfold wake. destruct (waiting p !! k) as [wt|] eqn:Hk; [|by left].
      rewrite continue_step. simpl.
      destruct wt as [f rep|parsed|[result|e]|ps]; try (by left).
      * right. right. left. by exists k, result.
      * destruct (promiseAll ps) as [ds|e] eqn:Hps; [|by left].
        right. right. right. by exists k, ps, ds.
  - intros p. simpl. destruct p as [[[] ? ? ? ? ? ? ? ? ? ?] a wl]; done.
  - intros k p result Hk. simpl. unfold wake. rewrite Hk. by rewrite continue_step.
  - intros k p ps ds Hk Hps. simpl. unfold wake. rewrite Hk.
    rewrite continue_step. by rewrite Hps.
Qed.

(** The theorem on the session in which a step is skipped: the user finds
    a contact, presses [Generate], and presses [Back] while the draft is
    awaited; the wizard is on [Input] with the draft still awaited, and the
    end of that wait puts it on [Review]. *)
Lemma navigation_witness :
  let found := jsq "[{'name': 'Ada', 'title': 'Prof', 'researchInterests': 'Engines', 'email': 'ada@uni.example'}]" in
  let draft := {| draft_to := Some (js "ada@uni.example");
                  draft_subject := Some (JStr (js "Hello"));
                  draft_body := Some (JStr (js "Dear Ada")) |} in
  let inputs :=
    [Do (FileChange (Some {| upload_name := js "cv.pdf"; upload_type := pdfType;
                             upload_base64 := Some (js "JVBERi0x") |})
           (Reply (jsq "{'skills': ['Rocq'], 'projects': []}")));
     Wake 0; Wake 0;
     Do (ChangeUniversity (js "MIT")); Do (ChangeDepartment (js "Logic"));
     Do (FindContacts (Reply found)); Wake 0;
     Do (GenerateEmails (fun _ => Reply (jsq "{'subject': 'Hello', 'body': 'Dear Ada'}")));
     Do Back] in
  let p := session inputs (firstRender Sample.world false) in
  nav_currentStep (shown p) = Input
  /\ waiting p = [Drafting [Ok draft]]
  /\ nav_currentStep (shown (turn (Wake 0) p)) = Review.
Proof.
  intros found draft inputs p.
  assert (Hw : waiting p = [Drafting [Ok draft]]) by (by vm_compute).
  split; [by vm_compute|]. split; [exact Hw|].
  destruct navigation as (_ & _ & _ & H).
  apply (H 0%nat p [Ok draft] [draft]); [by rewrite Hw|done].
Defined.

(** *** Sent emails on the page *)

Section FrozenFacts.
Context {rt : Runtime}.

Lemma frozen_refl e : frozen e e.
Proof. by repeat split. Qed.

Lemma frozen_trans a b c : frozen a b -> frozen b c -> frozen a c.
Proof.
  intros (H1 & H2 & H3) (H4 & H5 & H6). split_and!; try congruence.
  intros Ha. specialize (H3 Ha). subst b. by apply H6.
Qed.

Lemma Forall2_frozen_refl l : Forall2 frozen l l.
Proof. induction l; constructor; [apply frozen_refl|done]. Qed.

Lemma Forall2_frozen_trans l1 l2 l3 :
  Forall2 frozen l1 l2 -> Forall2 frozen l2 l3 -> Forall2 frozen l1 l3.
Proof.
  intros H. revert l3. induction H as [|a b l1 l2 Hab _ IH]; intros l3 H23.
  - by inversion H23.
  - inversion H23 as [|? c ? l3' Hbc H23']; subst.
    constructor; [by eapply frozen_trans|by apply IH].
Qed.

(** Replacing the element at [i] by a record that is frozen with respect
    to it keeps the whole list frozen. *)
Lemma insert_frozen i l e e' :
  l !! i = Some e -> frozen e e' -> Forall2 frozen l (<[i := e']> l).
Proof.
  intros He Hf.
  apply Forall2_same_length_lookup_2; [by rewrite length_insert|].
  intros j a b Ha Hb.
  destruct (decide (i = j)) as [<-|Hne].
  - rewrite list_lookup_insert_eq in Hb by (by eapply lookup_lt_Some).
    injection Hb as <-. rewrite He in Ha. by injection Ha as <-.
  - rewrite list_lookup_insert_ne in Hb by done.
    rewrite Ha in Hb. injection Hb as <-. apply frozen_refl.
Qed.

Lemma markSent_frozen i cur :
  (i < length cur)%nat -> Forall2 frozen cur (markSent i cur).
Proof.
  intros Hi. destruct (lookup_lt_is_Some_2 _ _ Hi) as [e He].
  rewrite (markSent_lookup _ _ _ He). apply (insert_frozen i cur e); [done|].
  split_and!; try done. intros Hs. by apply sentCopy_sent.
Qed.

Lemma sendLoop_frozen now rest :
  forall i cur entries w,
  (i + length rest <= length cur)%nat ->
  Forall2 frozen cur (sendLoop rest i now cur entries w).1.2.
Proof.
  induction rest as [|e rest IH]; intros i cur entries w Hlen; simpl in *.
  - apply Forall2_frozen_refl.
  - destruct (email_sent e); simpl.
    + apply IH. lia.
    + destruct (mailtoLink e) as [link|]; simpl; [|apply Forall2_frozen_refl].
      eapply Forall2_frozen_trans; [apply (markSent_frozen i); lia|].
      apply IH.
      assert (length (markSent i cur) = length cur); [|lia].
      symmetry. eapply Forall2_length, markSent_frozen. lia.
Qed.

Lemma handleSendAll_frozen now s w :
  Forall2 frozen (emails s) (emails (handleSendAll now s w).1.2).
Proof.
  unfold handleSendAll.
  pose proof (sendLoop_frozen now (emails s) 0 (emails s) [] w) as H.
  destruct (sendLoop (emails s) 0 now (emails s) [] w) as [[outcome cur] w1].
  simpl in H. specialize (H (le_n _)).
  destruct outcome as [new|e]; [destruct (0 <? length new)%nat|];
    destruct s; simpl in *; exact H.
Qed.

Lemma uiStep_frozen ev s w :
  redrafts ev = false ->
  Forall2 frozen (emails s) (emails (uiStep ev (s, w)).1).
Proof.
  intros Hev. unfold uiStep. simpl.
  destruct (offered ev s) eqn:Hoff; [|apply Forall2_frozen_refl].
  assert (Hsame : forall s', emails s' = emails s ->
                  Forall2 frozen (emails s) (emails s')).
  { intros s' ->. apply Forall2_frozen_refl. }
  destruct ev; simpl in *; try done; try (apply Hsame; by destruct s).
  - apply Hsame, handleFileChange_frame.
  - apply Hsame, handleFindContacts_emails.
  - destruct (contacts s !! index); simpl; [|by apply Hsame].
    apply Hsame, onContactChange_frame.
  - apply andb_true_iff in Hoff as [_ Hoff].
    destruct (emails s !! index) as [e|] eqn:He; [|done].
    apply negb_true_iff in Hoff.
    unfold handleEmailChange. rewrite (changeBody_withBody _ _ _ _ He). simpl.
    destruct s; simpl in *. apply (insert_frozen index _ e); [done|].
    split_and!; try done. congruence.
  - pose proof (handleSendAll_frozen now s w) as H.
    by destruct (handleSendAll now s w) as [[? ?] ?].
  - apply Hsame, handleClearHistory_frame.
  - apply Hsame, handleBack_frame.
Qed.

End FrozenFacts.

(** X21.  On the page a sent email is frozen: over any sequence of events
    that does not draft a new batch, each record of the list keeps its
    recipient and subject, and a record that is sent stays the very same
    record, body included (its text area is read-only and dispatch does not
    act on it again). *)
Theorem sent_email_frozen {rt : Runtime} (evs : list event) (s : AppState)
    (w : World) :
  Forall (fun ev => redrafts ev = false) evs ->
  Forall2 frozen (emails s) (emails (uiRun evs (s, w)).1)
  /\ (forall i e, emails s !! i = Some e -> email_sent e = true ->
        emails (uiRun evs (s, w)).1 !! i = Some e).
Proof.
  intros Hevs.
  assert (H : Forall2 frozen (emails s) (emails (uiRun evs (s, w)).1)).
  { revert s w. induction evs as [|ev evs IH]; intros s w;
      [apply Forall2_frozen_refl|].
    apply Forall_cons in Hevs as [Hev Hevs]. rewrite uiRun_cons.
    pose proof (uiStep_frozen ev s w Hev) as H1.
    destruct (uiStep ev (s, w)) as [s1 w1].
    eapply Forall2_frozen_trans; [exact H1|]. by apply IH. }
  split; [exact H|].
  intros i e He Hsent.
  destruct (Forall2_lookup_l _ _ _ _ _ H He) as (e' & He' & _ & _ & Hsame).
  by rewrite He', (Hsame Hsent).
Qed.

Lemma sent_email_frozen_witness :
  let e1 := {| email_to := js "a@x"; email_subject := js "S1";
               email_body := js "B1"; email_sent := true |} in
  let e2 := {| email_to := js "b@x"; email_subject := js "S2";
               email_body := js "B2"; email_sent := false |} in
  let s := setCurrentStep Review
             (setEmails [e1; e2] (initialState Sample.world false)) in
  let evs := [EmailChange 0 (js "changed"); EmailChange 1 (js "Dear B");
              SendAll (fun _ => js "t1"); Back] in
  emails (uiRun evs (s, Sample.world)).1 !! 0%nat = Some e1.
Proof.
  intros e1 e2 s evs.
  destruct (sent_email_frozen evs s Sample.world) as (_ & H);
    [by repeat constructor|].
  by apply H.
Defined.

(** *** Buttons and check boxes *)



(** X23.  The check boxes.  A disabled box is never checked and does
    nothing.  Ticking the box of a contact flips that box and the box of
    every contact of the same address, and no other box.  After a
    successful discovery every box that is not disabled is checked. *)
Theorem checkboxes {rt : Runtime} (s : AppState) :
  (forall c, checkboxDisabled c = true ->
     checkboxChecked s c = false /\ onContactChange c s = s)
  /\ (forall c c', checkboxDisabled c = false ->
        checkboxChecked (onContactChange c s) c'
        = if decide (hasEmail c' = true /\ emailOf c' = emailOf c)
          then negb (checkboxChecked s c')
          else checkboxChecked s c')
  /\ (forall rep w resume result,
        resumeData s = Some resume -> university s <> [] -> department s <> [] ->
        (findContacts (university s) (department s) resume rep w).1 = Ok result ->
        Forall (fun c => checkboxChecked (handleFindContacts rep s w).1 c
                         = negb (checkboxDisabled c))
          (contacts (handleFindContacts rep s w).1)).
Proof.
  split_and!.
  - intros c Hc. unfold checkboxDisabled in Hc. apply negb_true_iff in Hc.
    unfold checkboxChecked, onContactChange. by rewrite Hc.
  - intros c c' Hc. unfold checkboxDisabled in Hc. apply negb_false_iff in Hc.
    unfold checkboxChecked, onContactChange, handleContactSelection.
    rewrite Hc. destruct s as [? ? ? ? ? ? sel ? ? ? ? ? ? ? ? ?]. simpl.
    destruct (hasEmail c') eqn:Hc'; simpl.
    + destruct (decide (true = true /\ emailOf c' = emailOf c)) as [[_ E]|Hne].
      * rewrite E. destruct (decide (emailOf c ∈ sel)) as [Hin|Hout].
        -- rewrite (bool_decide_eq_true_2 _ Hin).
           apply bool_decide_eq_false. set_solver.
        -- rewrite (bool_decide_eq_false_2 _ Hout).
           apply bool_decide_eq_true. set_solver.
      * assert (emailOf c' <> emailOf c) by (intros E; by apply Hne).
        apply bool_decide_ext.
        destruct (decide (emailOf c ∈ sel)); set_solver.
    + by destruct (decide (false = true /\ emailOf c' = emailOf c)) as [[? _]|_].
  - intros rep w resume result Hres Hu Hd Hfound.
    destruct (handleFindContacts_success rep s w resume result Hres Hu Hd Hfound)
      as (_ & Hsel & _).
    apply Forall_forall. intros c Hc.
    unfold checkboxChecked, checkboxDisabled. rewrite negb_involutive.
    destruct (hasEmail c) eqn:Hhas; [|done]. simpl.
    apply bool_decide_eq_true. rewrite Hsel.
    apply initial_selection. exists c. split; [done|].
    by apply hasEmail_email.
Qed.

Lemma checkboxes_witness :
  let twin := {| contact_name := js "Ada B."; contact_title := js "Chair";
                 contact_email := Some (js "ada@uni.example");
                 contact_researchInterests := js "Engines";
                 contact_labWebsite := None; contact_recentPublication := None;
                 contact_linkedinProfile := None |} in
  let s := setSelectedContacts {[js "ada@uni.example"]}
             (setContacts [Sample.ada; twin; Sample.bob]
                (initialState Sample.world false)) in
  checkboxChecked (onContactChange Sample.ada s) twin = false
  /\ onContactChange Sample.bob s = s.
Proof.
  intros twin s. destruct (checkboxes s) as (Hdis & Hflip & _). split.
  - rewrite (Hflip Sample.ada twin) by done.
    rewrite decide_True by done. by vm_compute.
  - by apply Hdis.
Defined.

(** ** The step indicator *)

(** X24.  For every step of the wizard the indicator shows the steps before
    it as completed, the step itself as the current one and the steps after
    it as to come, and colours exactly the bars that follow a completed
    step: one item is current, and as many bars are coloured as items are
    completed. *)
Theorem StepIndicator_looks (currentStep : Step) :
  let k := Z.to_nat (stepNumber currentStep - 1) in
  StepIndicator currentStep
  = (replicate k Completed ++ [Active] ++ replicate (2 - k) Upcoming,
     replicate k true ++ replicate (2 - k) false)
  /\ (forall step cur,
        (StepItem step cur = Completed <-> step < cur)
        /\ (StepItem step cur = Active <-> step = cur)
        /\ (StepItem step cur = Upcoming <-> cur < step)).
Proof.
  split; [by destruct currentStep|].
  intros step cur. unfold StepItem.
  destruct (Z.gtb_spec cur step), (Z.eqb_spec cur step);
    split_and!; split; try done; lia.
Qed.
